(** * Topaz video upscaler: job pipeline and duration-correcting transcode

    A shallow embedding of the algorithmic core of [topaz_video_gui_pro.py]:
    the model selector, the frame-rate normalizer, the chunked uploader, the
    status poller, the API-key pool with its backing key file and the
    computation of the ffmpeg filter arguments.

    Python [float]s are embedded as rationals [Q].  Every finite float is a
    dyadic rational, comparisons of floats are comparisons of their values,
    and halving or doubling a float is exact, so the tempo loops, the rule
    table and the frame-rate bands behave on [Q] as they do in Python.
    Decimal literals of the source ([29.97], [0.5], ...) are taken at their
    decimal value.  The divisions of the transcoder round to the nearest
    double, overflow to an infinity and underflow to a zero ([Float64]). *)

From Stdlib Require Import ZArith QArith Qround Qabs Qpower Lia Lqa Bool.
From Stdlib Require Import String Ascii List DecimalString.
Import ListNotations.

Local Open Scope Z_scope.
Local Open Scope Q_scope.

(** ** Python numerics on rationals *)

Module PyNum.

Definition Qlt_bool (x y : Q) : bool := negb (Qle_bool y x).

(** Rounding to the nearest integer, ties to the even one: the rule of
    Python's [round] and of the [%.nf] conversions. *)
Definition round_half_even (x : Q) : Z :=
  let fl := Qfloor x in
  let rest := x - inject_Z fl in
  if Qlt_bool rest (1 # 2) then fl
  else if Qlt_bool (1 # 2) rest then (fl + 1)%Z
  else if Z.even fl then fl else (fl + 1)%Z.

Definition pow10 (ndigits : nat) : Z := (10 ^ Z.of_nat ndigits)%Z.

(** [round(x, ndigits)] *)
Definition py_round (x : Q) (ndigits : nat) : Q :=
  Qmake (round_half_even (x * inject_Z (pow10 ndigits)))
        (Z.to_pos (pow10 ndigits)).

(** Decimal digits.  [fixed_digits n z] prints the [n] low decimal digits
    of [z], most significant first. *)
Definition digit_char (d : Z) : ascii := ascii_of_nat (48 + Z.to_nat d).

Fixpoint fixed_digits (n : nat) (z : Z) : string :=
  match n with
  | O => EmptyString
  | S k => (fixed_digits k (z / 10) ++ String (digit_char (z mod 10)) EmptyString)%string
  end.

Fixpoint strip_zeros (s : string) : string :=
  match s with
  | String c (String _ _ as rest) => if Ascii.eqb c "0" then strip_zeros rest else s
  | _ => s
  end.

(** [str(z)] for a natural number [z] *)
Definition Z_to_string (z : Z) : string :=
  strip_zeros (fixed_digits (S (Z.to_nat (Z.log2 z))) z).

(** [f"{x:.<ndigits>f}"]: sign, integer part, and [ndigits] decimals of the
    value rounded half-even. *)
Definition format_f (ndigits : nat) (x : Q) : string :=
  let scale := pow10 ndigits in
  let m := round_half_even (Qabs x * inject_Z scale) in
  let sign := if Qlt_bool x 0 then "-"%string else EmptyString in
  let frac :=
    match ndigits with
    | O => EmptyString
    | _ => String "." (fixed_digits ndigits (m mod scale))
    end in
  (sign ++ Z_to_string (m / scale) ++ frac)%string.

(** The number a [format_f] text denotes. *)
Definition format_f_value (ndigits : nat) (x : Q) : Q :=
  let scale := pow10 ndigits in
  let m := Qmake (round_half_even (Qabs x * inject_Z scale)) (Z.to_pos scale) in
  if Qlt_bool x 0 then - m else m.

(** Reading a decimal text such as ["1.2346"] back as a number. *)
Definition digit_of (c : ascii) : option Z :=
  let n := Z.of_nat (nat_of_ascii c) in
  if (48 <=? n)%Z && (n <=? 57)%Z then Some (n - 48)%Z else None.

Fixpoint digits_acc (s : string) (acc : Z) : option Z :=
  match s with
  | EmptyString => Some acc
  | String c rest =>
      match digit_of c with
      | Some d => digits_acc rest (acc * 10 + d)
      | None => None
      end
  end.

Fixpoint split_dot (s : string) : string * option string :=
  match s with
  | EmptyString => (EmptyString, None)
  | String c rest =>
      if Ascii.eqb c "." then (EmptyString, Some rest)
      else let '(ip, fp) := split_dot rest in (String c ip, fp)
  end.

Definition parse_unsigned (s : string) : option Q :=
  let '(ip, fp) := split_dot s in
  match digits_acc ip 0, fp with
  | Some i, None => Some (inject_Z i)
  | Some i, Some f =>
      match digits_acc f 0 with
      | Some fv =>
          Some (inject_Z i + Qmake fv (Z.to_pos (pow10 (String.length f))))
      | None => None
      end
  | None, _ => None
  end.

Definition parse_decimal (s : string) : option Q :=
  match s with
  | String c rest =>
      if Ascii.eqb c "-" then option_map Qopp (parse_unsigned rest)
      else parse_unsigned s
  | EmptyString => None
  end.

Definition Qmax (x y : Q) : Q := if Qlt_bool x y then y else x.
Definition Qmin (x y : Q) : Q := if Qlt_bool y x then y else x.

End PyNum.
Import PyNum.

(** ** ModelSelector and FrameRateNormalizer *)

Definition unsharp_prefix : string := "unsharp=luma_msize_x=5:luma_amount=".

(** The model and the clamped amount chosen by [pick_model_and_sharpen],
    before the amount is printed into the filter text. *)
Definition pick_model_and_amount (width height : Z) (fps bitrate_mbps : Q)
  : string * Q :=
  let bitrate_mbps := if Qle_bool bitrate_mbps 0 then 1.0 else bitrate_mbps in
  let is_uhd := (3200 <=? width)%Z || (1800 <=? height)%Z in
  let is_fhd := (1920 <=? width)%Z && (1080 <=? height)%Z in
  let is_low_res := (width <? 1280)%Z || (height <? 720)%Z in
  let low_bitrate := Qlt_bool bitrate_mbps 6 in
  let mid_bitrate := Qle_bool 6 bitrate_mbps && Qlt_bool bitrate_mbps 12 in
  let high_bitrate := Qle_bool 12 bitrate_mbps in
  let '(model, amount) :=
    if is_low_res || low_bitrate then ("ahq-12"%string, 0.70)
    else if is_uhd && high_bitrate then ("prob-4"%string, 0.55)
    else if is_fhd && mid_bitrate then
      if Qle_bool fps 30 then ("iris-3"%string, 0.55)
      else ("prob-4"%string, 0.60)
    else ("prob-4"%string, if negb high_bitrate then 0.65 else 0.58) in
  (model, Qmax 0.45 (Qmin amount 0.75)).

Definition pick_model_and_sharpen (width height : Z) (fps bitrate_mbps : Q)
  : string * string :=
  let '(model, amount) := pick_model_and_amount width height fps bitrate_mbps in
  (model, (unsharp_prefix ++ format_f 2 amount)%string).

Definition normalize_fps (fps : Q) : Q :=
  if Qle_bool 23.5 fps && Qlt_bool fps 24.5 then 23.976
  else if Qle_bool 24.5 fps && Qlt_bool fps 25.5 then 25.0
  else if Qle_bool 29.5 fps && Qlt_bool fps 30.5 then 29.97
  else if Qle_bool 49.5 fps && Qlt_bool fps 50.5 then 50.0
  else if Qle_bool 59.5 fps && Qlt_bool fps 60.5 then 59.94
  else py_round fps 3.

(** The selector's rule table as the design document words it: the bit rate
    is clamped first, then the first matching rule decides. *)
Definition noise_model : string := "ahq-12".
Definition detail_model : string := "prob-4".
Definition texture_model : string := "iris-3".

Definition selector_rule_table (width height : Z) (frameRate bitrateMbps : Q)
  : string * Q :=
  let bitrate := if Qle_bool bitrateMbps 0 then 1.0 else bitrateMbps in
  if (width <? 1280)%Z || (height <? 720)%Z || Qlt_bool bitrate 6
  then (noise_model, 0.70)
  else if ((3200 <=? width)%Z || (1800 <=? height)%Z) && Qle_bool 12 bitrate
  then (detail_model, 0.55)
  else if (1920 <=? width)%Z && (1080 <=? height)%Z
          && (Qle_bool 6 bitrate && Qlt_bool bitrate 12)
  then if Qle_bool frameRate 30 then (texture_model, 0.55)
       else (detail_model, 0.60)
  else (detail_model, if Qlt_bool bitrate 12 then 0.65 else 0.58).

Definition sharpen_outcomes : list (string * string) :=
  [ ("ahq-12", "unsharp=luma_msize_x=5:luma_amount=0.70");
    ("prob-4", "unsharp=luma_msize_x=5:luma_amount=0.55");
    ("iris-3", "unsharp=luma_msize_x=5:luma_amount=0.55");
    ("prob-4", "unsharp=luma_msize_x=5:luma_amount=0.60");
    ("prob-4", "unsharp=luma_msize_x=5:luma_amount=0.65");
    ("prob-4", "unsharp=luma_msize_x=5:luma_amount=0.58") ]%string.

(** ** Exceptions

    [HTTPError] carries the status code of its response and the text of
    the response body when the body decodes as JSON. *)

Inductive exn : Type :=
| ZeroDivisionError
| ValueError
| KeyError
| TypeError
| RuntimeError
| HTTPError (status_code : Z) (body : option string)
| OtherError.

Inductive result (A : Type) : Type :=
| Ok (a : A)
| Raise (e : exn).
Arguments Ok {A} a.
Arguments Raise {A} e.

(** ** ChunkedUploader *)

Module Upload.

Definition bytes := list Byte.byte.

(** An upload response: whether [raise_for_status] lets it pass, its status
    code, its body when it decodes as JSON (as text), and the ETag header
    when the response has one. *)
Record response : Type := {
  ok : bool; status : Z; json_body : option string; etag_header : option string
}.

Record part : Type := { partNum : Z; eTag : string }.

(** [f.seek(start); f.read(size)] on a binary file: a size of -1 reads to
    the end of the file, a smaller one is refused. *)
Definition seek_read (content : bytes) (start size : Z) : result bytes :=
  if (size <? -1)%Z then Raise ValueError
  else if (size =? -1)%Z then Ok (skipn (Z.to_nat start) content)
  else Ok (firstn (Z.to_nat size) (skipn (Z.to_nat start) content)).

Definition quote : ascii := "034"%char.

Fixpoint lstrip (c : ascii) (s : string) : string :=
  match s with
  | String a rest => if Ascii.eqb a c then lstrip c rest else s
  | EmptyString => EmptyString
  end.

Fixpoint rstrip (c : ascii) (s : string) : string :=
  match s with
  | String a rest =>
      match rstrip c rest with
      | EmptyString => if Ascii.eqb a c then EmptyString else String a EmptyString
      | kept => String a kept
      end
  | EmptyString => EmptyString
  end.

(** [s.strip(c)] for a single character [c] *)
Definition strip (c : ascii) (s : string) : string := rstrip c (lstrip c s).

Section Uploader.

(** The remote end of [requests.put]. *)
Variable put : string -> bytes -> response.

(** The body of the [for idx, url in enumerate(upload_urls)] loop, with the
    requests sent so far and the [etags] list threaded through. *)
Fixpoint upload_loop (content : bytes) (total_size part_size : Z)
    (idx : Z) (urls : list string)
    (sent : list (string * bytes)) (etags : list part)
  : list (string * bytes) * result (list part) :=
  match urls with
  | [] => (sent, Ok etags)
  | url :: rest =>
      let start := (idx * part_size)%Z in
      let end_ := Z.min ((idx + 1) * part_size) total_size in
      match seek_read content start (end_ - start) with
      | Raise e => (sent, Raise e)
      | Ok data =>
          let resp := put url data in
          let sent := sent ++ [(url, data)] in
          if negb (ok resp)
          then (sent, Raise (HTTPError (status resp) (json_body resp)))
          else
            let etag :=
              strip quote (match etag_header resp with
                           | Some h => h
                           | None => EmptyString
                           end) in
            upload_loop content total_size part_size (idx + 1) rest sent
              (etags ++ [{| partNum := idx + 1; eTag := etag |}])
      end
  end.

(** [upload_video_parts]: the requests it sends, in order, and its result.
    [content] is the file at [video_path]. *)
Definition upload_video_parts (upload_urls : list string) (content : bytes)
  : list (string * bytes) * result (list part) :=
  let total_size := Z.of_nat (length content) in
  let part_count := Z.of_nat (length upload_urls) in
  if (part_count =? 0)%Z then ([], Raise ZeroDivisionError)
  else
    let part_size := ((total_size + part_count - 1) / part_count)%Z in
    upload_loop content total_size part_size 0 upload_urls [] [].

End Uploader.

(** The byte range [[lo, hi)] of a file. *)
Definition byte_range (content : bytes) (lo hi : Z) : bytes :=
  firstn (Z.to_nat (hi - lo)) (skipn (Z.to_nat lo) content).

Definition ceil_div (s n : Z) : Z := ((s + n - 1) / n)%Z.

(** The ranges and results of a run in which every part starts inside the
    file or at its end, and every request succeeds. *)
Section Expected.

Variable put : string -> bytes -> response.
Variable content : bytes.
Variable p : Z.

Definition part_range (idx : Z) : bytes :=
  byte_range content (idx * p)
    (Z.min ((idx + 1) * p) (Z.of_nat (length content))).

Fixpoint expected_sent (idx : Z) (urls : list string) : list (string * bytes) :=
  match urls with
  | [] => []
  | url :: rest => (url, part_range idx) :: expected_sent (idx + 1) rest
  end.

Fixpoint expected_etags (idx : Z) (urls : list string) : list part :=
  match urls with
  | [] => []
  | url :: rest =>
      {| partNum := idx + 1;
         eTag := strip quote (match etag_header (put url (part_range idx)) with
                              | Some h => h
                              | None => EmptyString
                              end) |}
      :: expected_etags (idx + 1) rest
  end.

(** Every remaining part starts inside the file or at its end. *)
Definition starts_inside (idx : Z) (urls : list string) : Prop :=
  urls = [] \/ ((idx + Z.of_nat (length urls) - 1) * p <= Z.of_nat (length content))%Z.

End Expected.

(** What the uploader is meant to do with [n] URLs and a file of [size]
    bytes: [n] requests carrying the consecutive ranges of [ceil(size/n)]
    bytes, only the last one possibly shorter, and [n] results numbered
    from 1. *)
Definition uploads_in_parts (put : string -> bytes -> response)
    (upload_urls : list string) (content : bytes) : Prop :=
  let size := Z.of_nat (length content) in
  let n := length upload_urls in
  let p := ceil_div size (Z.of_nat n) in
  exists sent etags,
    upload_video_parts put upload_urls content = (sent, Ok etags)
    /\ map fst sent = upload_urls
    /\ (forall i, (i < n)%nat ->
          nth i (map snd sent) [] =
          byte_range content (Z.of_nat i * p) (Z.min ((Z.of_nat i + 1) * p) size))
    /\ concat (map snd sent) = content
    /\ (forall i, (i + 1 < n)%nat ->
          Z.of_nat (length (nth i (map snd sent) [])) = p)
    /\ (Z.of_nat (length (nth (n - 1) (map snd sent) [])) <= p)%Z
    /\ length etags = n
    /\ map partNum etags = map Z.of_nat (seq 1 n).

End Upload.

(** Sample uploads: a remote end that accepts every part. *)
Definition put_accepts (url : string) (data : Upload.bytes) : Upload.response :=
  {| Upload.ok := true; Upload.status := 200; Upload.json_body := None;
     Upload.etag_header := Some (String Upload.quote "tag") |}.

Definition four_urls : list string := ["u1"; "u2"; "u3"; "u4"]%string.
Definition five_bytes : Upload.bytes := [Byte.x61; Byte.x62; Byte.x63; Byte.x64; Byte.x65].
Definition seven_bytes : Upload.bytes := five_bytes ++ [Byte.x66; Byte.x67].

(** ** Division of floats *)

Module Float64.

(** A [float]: a finite double, given by its value, or one of the special
    values.  [Fin 0] is [0.0]. *)
Inductive float : Type :=
| Fin (q : Q)
| NegZero                  (* -0.0 *)
| Inf (negative : bool)    (* inf, -inf *)
| NaN.

(** [2 ** e] *)
Definition exp2 (e : Z) : Q := Qpower 2 e.

(** The exponent [e] with [2 ** e <= |q| < 2 ** (e + 1)], for [q] other
    than 0. *)
Definition ilog2 (q : Q) : Z :=
  let e := (Z.log2 (Z.abs (Qnum q)) - Z.log2 (Zpos (Qden q)))%Z in
  if Qle_bool (exp2 e) (Qabs q) then e else (e - 1)%Z.

(** The doubles around [q] are the multiples of [2 ** ulp_exponent q]: 53
    significant bits, and the spacing [2 ** -1074] of the subnormal numbers
    below [2 ** -1022]. *)
Definition ulp_exponent (q : Q) : Z := Z.max (ilog2 q - 52) (-1074).

(** The nearest of them, ties going to the even multiple. *)
Definition nearest (q : Q) : Q :=
  let e := ulp_exponent q in
  Qred (inject_Z (round_half_even (q / exp2 e)) * exp2 e).

(** Half the distance from 1.0 to the next double, [2 ** -53]: the largest
    relative error of a rounding that does not underflow. *)
Definition unit_roundoff : Q := 1 # 9007199254740992.

(** The largest finite double. *)
Definition largest : Q := inject_Z ((2 ^ 53 - 1) * 2 ^ 971).

(** The float a real result is rounded to: past the largest double it
    overflows to an infinity, and a negative one that rounds to zero gives
    [-0.0]. *)
Definition of_real (q : Q) : float :=
  let r := nearest q in
  if Qlt_bool largest (Qabs r) then Inf (Qlt_bool q 0)
  else if Qeq_bool r 0 && Qlt_bool q 0 then NegZero
  else Fin r.

Definition is_zero (x : float) : bool :=
  match x with
  | Fin q => Qeq_bool q 0
  | NegZero => true
  | _ => false
  end.

(** The sign bit. *)
Definition negative (x : float) : bool :=
  match x with
  | Fin q => Qlt_bool q 0
  | NegZero => true
  | Inf negative => negative
  | NaN => false
  end.

Definition signed_zero (negative : bool) : float :=
  if negative then NegZero else Fin 0.

(** [x / y] on floats *)
Definition truediv (x y : float) : result float :=
  if is_zero y then Raise ZeroDivisionError
  else
    Ok match x, y with
       | NaN, _ | _, NaN => NaN
       | Inf _, Inf _ => NaN
       | Inf n, _ => Inf (xorb n (negative y))
       | _, Inf n => signed_zero (xorb (negative x) n)
       | NegZero, _ => signed_zero (negb (negative y))
       | Fin a, Fin b =>
           if Qeq_bool a 0 then signed_zero (negative y) else of_real (a / b)
       | Fin a, NegZero => NaN      (* not reached: [y] is not a zero *)
       end.

(** [f"{x:.<ndigits>f}"] on floats *)
Definition format_float (ndigits : nat) (x : float) : string :=
  match x with
  | Fin q => format_f ndigits q
  | NegZero => ("-" ++ format_f ndigits 0)%string
  | Inf false => "inf"%string
  | Inf true => "-inf"%string
  | NaN => "nan"%string
  end.

End Float64.

(** ** DurationCorrectingTranscoder *)

Module Transcode.

(** The tuple returned by [get_video_metadata]. *)
Record VideoMetadata : Type := {
  width : Z; height : Z; fps : Q; frame_count : Z; duration : Q; size : Z
}.

(** [x / y] on floats *)
Definition truediv (x y : Float64.float) : result Float64.float :=
  Float64.truediv x y.

(** *** The tempo chain of [reencode_video_adobe_optimized] *)

(** [while audio_speed_factor > 2.0: ...] *)
Fixpoint halve_loop (fuel : nat) (atempo_filters : list string)
    (audio_speed_factor : Q) : option (list string * Q) :=
  match fuel with
  | O => None
  | S fuel =>
      if Qlt_bool 2.0 audio_speed_factor
      then halve_loop fuel (atempo_filters ++ ["atempo=2.0"%string])
             (audio_speed_factor / 2.0)
      else Some (atempo_filters, audio_speed_factor)
  end.

(** [while audio_speed_factor < 0.5: ...] *)
Fixpoint double_loop (fuel : nat) (atempo_filters : list string)
    (audio_speed_factor : Q) : option (list string * Q) :=
  match fuel with
  | O => None
  | S fuel =>
      if Qlt_bool audio_speed_factor 0.5
      then double_loop fuel (atempo_filters ++ ["atempo=0.5"%string])
             (audio_speed_factor / 0.5)
      else Some (atempo_filters, audio_speed_factor)
  end.

(** The two loops one after the other: the stages appended and the factor
    left over.  [None] when [fuel] iterations do not end a loop. *)
Definition tempo_loops (fuel : nat) (audio_speed_factor : Q)
  : option (list string * Q) :=
  match halve_loop fuel [] audio_speed_factor with
  | None => None
  | Some (atempo_filters, audio_speed_factor) =>
      double_loop fuel atempo_filters audio_speed_factor
  end.

(** The loops followed by [if audio_speed_factor != 1.0: ...]. *)
Definition atempo_chain (fuel : nat) (audio_speed_factor : Q)
  : option (list string) :=
  match tempo_loops fuel audio_speed_factor with
  | None => None
  | Some (atempo_filters, audio_speed_factor) =>
      Some (if negb (Qeq_bool audio_speed_factor 1.0)
            then atempo_filters
                 ++ [("atempo=" ++ format_f 4 audio_speed_factor)%string]
            else atempo_filters)
  end.

(** Iterations that end both loops on a positive factor. *)
Definition loop_fuel (a : Q) : nat :=
  S (Z.to_nat (Z.log2 (Qnum a)) + Z.to_nat (Z.log2 (Zpos (Qden a)))).

(** The chain for the factor as the division hands it over.  On a finite
    factor the loops are those above, halving and doubling a double being
    exact.  [inf] is above 2.0 and stays [inf] when halved; [-inf] and
    [-0.0] are below 0.5 and stay what they are when doubled: the loop does
    not end.  [nan] fails the test of both loops and differs from 1.0. *)
Definition atempo_filters_of (audio_speed_factor : Float64.float)
  : option (list string) :=
  match audio_speed_factor with
  | Float64.Fin a => atempo_chain (loop_fuel a) a
  | Float64.NegZero | Float64.Inf _ => None
  | Float64.NaN => Some ["atempo=nan"%string]
  end.

(** The factor an emitted stage text ["atempo=<number>"] stands for. *)
Fixpoint drop_prefix (pre s : string) : option string :=
  match pre, s with
  | EmptyString, _ => Some s
  | String a pre', String b s' =>
      if Ascii.eqb a b then drop_prefix pre' s' else None
  | String _ _, EmptyString => None
  end.

Definition stage_factor (stage : string) : option Q :=
  match drop_prefix "atempo=" stage with
  | Some number => parse_decimal number
  | None => None
  end.

Fixpoint chain_product (stages : list string) : option Q :=
  match stages with
  | [] => Some 1
  | stage :: rest =>
      match stage_factor stage, chain_product rest with
      | Some f, Some p => Some (f * p)
      | _, _ => None
      end
  end.

Definition pow2 (k : nat) : Q := inject_Z (2 ^ Z.of_nat k).

(** A stage the tempo primitive accepts. *)
Definition in_tempo_range (stage : string) : Prop :=
  exists f, stage_factor stage = Some f /\ 0.5 <= f /\ f <= 2.0.

(** The chain emitted for the factor [a]: every stage is in range and the
    product of the stage factors is within [tolerance] of [a]. *)
Definition tempo_chain_within (tolerance a : Q) : Prop :=
  exists stages product,
    (forall fuel, (loop_fuel a <= fuel)%nat -> atempo_chain fuel a = Some stages)
    /\ Forall in_tempo_range stages
    /\ chain_product stages = Some product
    /\ Qabs (product - a) <= tolerance.

(** *** The filter and mapping arguments

    [cmd] is the argument list under construction.  It is a mutable list in
    the source, so a computation threads it and keeps what was appended
    before an exception: [Raised] carries the list as it stood.  [Hangs]
    stands for a loop that does not end.  The messages put on the log queue
    are left out. *)

Definition cmd : Type := list string.

Inductive outcome (A : Type) : Type :=
| Done (a : A)
| Raised (e : exn)
| Hangs.
Arguments Done {A} a.
Arguments Raised {A} e.
Arguments Hangs {A}.

Definition M (A : Type) : Type := cmd -> cmd * outcome A.

Definition ret {A} (a : A) : M A := fun c => (c, Done a).

Definition bind {A B} (m : M A) (k : A -> M B) : M B :=
  fun c =>
    match m c with
    | (c', Done a) => k a c'
    | (c', Raised e) => (c', Raised e)
    | (c', Hangs) => (c', Hangs)
    end.

Notation "x <- m ;; k" := (bind m (fun x => k))
  (at level 61, m at next level, right associativity).
Notation "' pat <- m ;; k" := (bind m (fun x => match x with pat => k end))
  (at level 61, pat pattern, m at next level, right associativity).

Definition lift {A} (r : result A) : M A :=
  fun c => match r with Ok a => (c, Done a) | Raise e => (c, Raised e) end.

Definition ends {A} (o : option A) : M A :=
  fun c => match o with Some a => (c, Done a) | None => (c, Hangs) end.

(** [cmd.extend(args)] *)
Definition extend (args : list string) : M unit :=
  fun c => (c ++ args, Done tt).

(** [try: body / except Exception: handler] *)
Definition try_except {A} (body : M A) (handler : exn -> M A) : M A :=
  fun c =>
    match body c with
    | (c', Raised e) => handler e c'
    | other => other
    end.

(** Truth value of an [Optional[str]]: [None] and the empty text are false. *)
Definition truthy (s : option string) : bool :=
  match s with
  | Some (String _ _) => true
  | _ => false
  end.

Definition text_of (s : option string) : string :=
  match s with Some t => t | None => "None" end.

Section Reencode.

(** [get_video_metadata(input_path)] and [has_audio_stream(original_video_path)] *)
Variable probe : result VideoMetadata.
Variable original_has_audio : bool.

Variable mute : bool.
Variables original_duration desired_duration : Q.
Variable sharp_filter : option string.

Definition video_has_audio : bool := original_has_audio && negb mute.

Definition compose_video_filter (base : string) : string :=
  if truthy sharp_filter then (base ++ "," ++ text_of sharp_filter)%string
  else base.

(** The two video factors computed from the probed duration. *)
Definition video_factors (temp_duration : Q)
  : result (Float64.float * Float64.float) :=
  match truediv (Float64.Fin temp_duration) (Float64.Fin desired_duration) with
  | Raise e => Raise e
  | Ok video_speed_factor =>
      match truediv (Float64.Fin 1.0) video_speed_factor with
      | Raise e => Raise e
      | Ok video_pts_factor => Ok (video_speed_factor, video_pts_factor)
      end
  end.

(** The [else] branch of the duration test. *)
Definition fallback_invalid_duration : M unit :=
  if video_has_audio then
    if truthy sharp_filter
    then extend ["-filter:v"; text_of sharp_filter; "-map"; "0:v:0";
                 "-map"; "1:a:0"; "-c:a"; "copy"]%string
    else extend ["-map"; "0:v:0"; "-map"; "1:a:0"; "-c:a"; "copy"]%string
  else
    if truthy sharp_filter
    then extend ["-filter:v"; text_of sharp_filter; "-map"; "0:v:0"; "-an"]%string
    else extend ["-map"; "0:v:0"; "-an"]%string.

(** The [except Exception] handler. *)
Definition fallback_on_exception (e : exn) : M unit :=
  if video_has_audio then
    if truthy sharp_filter
    then extend ["-filter:v"; text_of sharp_filter; "-map"; "0:v:0";
                 "-map"; "1:a:0"; "-c:a"; "copy"]%string
    else extend ["-map"; "0:v:0"; "-map"; "1:a:0"; "-c:a"; "copy"]%string
  else
    if truthy sharp_filter
    then extend ["-filter:v"; text_of sharp_filter; "-map"; "0:v:0"; "-an"]%string
    else extend ["-map"; "0:v:0"; "-an"]%string.

Definition setpts (video_pts_factor : Float64.float) : string :=
  ("setpts=" ++ Float64.format_float 4 video_pts_factor ++ "*PTS")%string.

(** The body of the [try]. *)
Definition factor_body : M unit :=
  meta <- lift probe ;;
  let temp_duration := duration meta in
  if Qlt_bool 0 temp_duration && Qlt_bool 0 original_duration then
    '(video_speed_factor, video_pts_factor) <- lift (video_factors temp_duration) ;;
    if video_has_audio then
      audio_speed_factor <-
        lift (truediv (Float64.Fin original_duration)
                (Float64.Fin desired_duration)) ;;
      atempo_filters <- ends (atempo_filters_of audio_speed_factor) ;;
      let atempo_filter_str :=
        match atempo_filters with
        | [] => "anull"%string
        | _ => String.concat "," atempo_filters
        end in
      let video_filter := compose_video_filter (setpts video_pts_factor) in
      extend ["-filter_complex";
              "[0:v]" ++ video_filter ++ "[v];[1:a]" ++ atempo_filter_str ++ "[a]";
              "-map"; "[v]"; "-map"; "[a]"]%string
    else
      extend ["-filter:v"; compose_video_filter (setpts video_pts_factor);
              "-an"]%string
  else fallback_invalid_duration.

(** The whole [try] / [except] statement of [reencode_video_adobe_optimized]. *)
Definition factor_block : M unit := try_except factor_body fallback_on_exception.

(** The stream-copy fallback as the design document words it: the video
    mapped, with the sharpen filter when there is one; the audio of the
    original copied when it is usable, no audio otherwise. *)
Definition fallback_args : list string :=
  ((if truthy sharp_filter
    then ["-filter:v"%string; text_of sharp_filter] else [])
   ++ ["-map"; "0:v:0"]%string
   ++ (if video_has_audio
       then ["-map"; "1:a:0"; "-c:a"; "copy"]%string else ["-an"%string]))%list.

End Reencode.

(** The arguments before the block: the inputs. *)
Definition initial_cmd (input_path original_video_path : string)
    (has_audio : bool) : cmd :=
  (["ffmpeg"%string; "-y"%string; "-i"%string; input_path]
   ++ (if has_audio then ["-i"%string; original_video_path] else []))%list.

End Transcode.

(** Sample transcodes. *)
Definition probed (seconds : Q) : Transcode.VideoMetadata :=
  {| Transcode.width := 3840; Transcode.height := 2160; Transcode.fps := 29.97;
     Transcode.frame_count := 300; Transcode.duration := seconds;
     Transcode.size := 52428800 |}.

Definition sample_cmd : Transcode.cmd :=
  Transcode.initial_cmd "temp_clip.mp4" "clip.mp4" true.

Definition sample_sharpen : option string :=
  Some "unsharp=luma_msize_x=5:luma_amount=0.55"%string.

(** ** StatusPoller *)

Module Poll.

(** Decoded JSON as Python values. *)
#[local] Set Warnings "-register-all".
Inductive pyval : Type :=
| PNone
| PBool (b : bool)
| PInt (n : Z)
| PFloat (x : Q)
| PStr (s : string)
| PList (items : list pyval)
| PDict (entries : list (string * pyval)).

Definition dict : Type := list (string * pyval).

Fixpoint lookup (d : dict) (key : string) : option pyval :=
  match d with
  | [] => None
  | (k, v) :: rest => if String.eqb k key then Some v else lookup rest key
  end.

(** [d.get(key, default)] and [d.get(key)] *)
Definition get_default (d : dict) (key : string) (default : pyval) : pyval :=
  match lookup d key with Some v => v | None => default end.

Definition get (d : dict) (key : string) : pyval := get_default d key PNone.

(** [v[key]] *)
Definition subscript (v : pyval) (key : string) : result pyval :=
  match v with
  | PDict d =>
      match lookup d key with Some x => Ok x | None => Raise KeyError end
  | _ => Raise TypeError
  end.

Definition truth (v : pyval) : bool :=
  match v with
  | PNone => false
  | PBool b => b
  | PInt n => negb (n =? 0)%Z
  | PFloat x => negb (Qeq_bool x 0)
  | PStr s => negb (String.eqb s EmptyString)
  | PList items => match items with [] => false | _ => true end
  | PDict entries => match entries with [] => false | _ => true end
  end.

(** [a or b] *)
Definition py_or (a b : pyval) : pyval := if truth a then a else b.

Definition lower_char (c : ascii) : ascii :=
  let n := nat_of_ascii c in
  if (65 <=? n)%nat && (n <=? 90)%nat then ascii_of_nat (n + 32) else c.

(** [s.lower()], on ASCII text *)
Fixpoint lower (s : string) : string :=
  match s with
  | EmptyString => EmptyString
  | String c rest => String (lower_char c) (lower rest)
  end.

Definition state_of (status : dict) : pyval :=
  py_or (py_or (get status "state") (get status "status")) (PStr "waiting").

Definition state_lower (status : dict) : string :=
  match state_of status with
  | PStr s => lower s
  | _ => "waiting"%string
  end.

(** The value of an [int], [float] or [bool]; [None] for any other type. *)
Definition number (v : pyval) : option Q :=
  match v with
  | PInt n => Some (inject_Z n)
  | PFloat x => Some x
  | PBool b => Some (if b then 1 else 0)
  | _ => None
  end.

Definition progress_val (status : dict) : Q :=
  let progress_raw := py_or (get_default status "progress" (PInt 0)) (PInt 0) in
  let progress_val :=
    match number progress_raw with
    | Some x => if Qlt_bool 1 x then x else x * 100
    | None => 0
    end in
  Qmax 0 (Qmin progress_val 100).

(** What one iteration of the poll loop of [_process_videos] does with a
    status response. *)
Inductive poll_action : Type :=
| WaitForFinal                       (* progress 100 but not complete: sleep, poll again *)
| Finish (download_url : result pyval) (* the completion branch is taken *)
| ServerFailed (state : pyval)       (* failed or cancelled: leave the loop *)
| PollAgain.                         (* sleep, poll again *)

Definition poll_step (status : dict) : poll_action :=
  if Qle_bool 100 (progress_val status)
     && negb (String.eqb (state_lower status) "complete")
  then WaitForFinal
  else if String.eqb (state_lower status) "complete"
          || truth (get status "download")
  then Finish (match subscript (PDict status) "download" with
               | Ok download => subscript download "url"
               | Raise e => Raise e
               end)
  else if String.eqb (state_lower status) "failed"
          || String.eqb (state_lower status) "cancelled"
  then ServerFailed (state_of status)
  else PollAgain.

Inductive poll_result : Type :=
| Resolved (download_url : result pyval)
| Failed (state : pyval)
| Stopped.

(** The loop over the responses received until the stop signal is seen. *)
Fixpoint poll_loop (responses : list dict) : poll_result :=
  match responses with
  | [] => Stopped
  | status :: rest =>
      match poll_step status with
      | WaitForFinal | PollAgain => poll_loop rest
      | Finish download_url => Resolved download_url
      | ServerFailed state => Failed state
      end
  end.

(** The terms of the poller's contract. *)
Definition state_complete (status : dict) : Prop :=
  state_lower status = "complete"%string.

Definition carries_download (status : dict) : Prop :=
  truth (get status "download") = true.

(** The response holds a download descriptor that is an object with a
    [url] entry. *)
Definition carries_url (status : dict) : Prop :=
  exists download url,
    lookup status "download" = Some (PDict download)
    /\ lookup download "url" = Some url.

(** The job is resolved as successful: the loop is left on the completion
    branch with a download URL in hand. *)
Definition resolves (status : dict) : Prop :=
  exists url, poll_step status = Finish (Ok url).

End Poll.

(** Sample status responses. *)
Definition download_descriptor : Poll.pyval :=
  Poll.PDict [("url"%string, Poll.PStr "https://cdn.example/out.mp4")].

Definition status_finalizing : Poll.dict :=
  [("state"%string, Poll.PStr "Processing"); ("progress"%string, Poll.PInt 100)].

Definition status_early_download : Poll.dict :=
  [("state"%string, Poll.PStr "processing"); ("progress"%string, Poll.PInt 100);
   ("download"%string, download_descriptor)].

Definition status_complete : Poll.dict :=
  [("status"%string, Poll.PStr "COMPLETE"); ("progress"%string, Poll.PFloat 1.0);
   ("download"%string, download_descriptor)].

(** ** CredentialPool and its key file *)

Module Keys.

(** A text is the sequence of its code points, which the embedding takes
    below 256; a file is the text it decodes to. *)
Definition newline : ascii := "010"%char.
Definition carriage_return : ascii := "013"%char.

(** What a file opened for reading as text hands over: every line end of
    the file, [\r\n] and a lone [\r] as well as [\n], comes as [\n].
    [after_cr] tells that the character before was a [\r]. *)
Fixpoint translate_newlines (after_cr : bool) (content : string) : string :=
  match content with
  | EmptyString => EmptyString
  | String c rest =>
      if Ascii.eqb c carriage_return
      then String newline (translate_newlines true rest)
      else if Ascii.eqb c newline && after_cr
      then translate_newlines false rest
      else String c (translate_newlines false rest)
  end.

Definition universal_newlines (content : string) : string :=
  translate_newlines false content.

(** The lines of a text, each with its [\n]. *)
Fixpoint split_lines (text : string) : list string :=
  match text with
  | EmptyString => []
  | String c rest =>
      if Ascii.eqb c newline then String c EmptyString :: split_lines rest
      else match split_lines rest with
           | [] => [String c EmptyString]
           | line :: lines => String c line :: lines
           end
  end.

(** [f.readlines()], and the lines [for line in f] goes through, on a file
    opened for reading as text. *)
Definition readlines (content : string) : list string :=
  split_lines (universal_newlines content).

(** [key in line] on texts *)
Fixpoint contains (key line : string) : bool :=
  String.prefix key line
  || match line with
     | EmptyString => false
     | String _ rest => contains key rest
     end.

Definition is_substring (key line : string) : Prop :=
  exists before after, line = (before ++ key ++ after)%string.

(** The loop [for line in lines: if key_to_remove not in line: f.write(line)]
    on a file opened for writing, [written] being its content so far. *)
Fixpoint write_kept (key_to_remove : string) (lines : list string)
    (written : string) : string :=
  match lines with
  | [] => written
  | line :: rest =>
      if negb (contains key_to_remove line)
      then write_kept key_to_remove rest (written ++ line)
      else write_kept key_to_remove rest written
  end.

Definition kept (key_to_remove line : string) : bool :=
  negb (contains key_to_remove line).

(** The shape of what [readlines] returns: every line but the last ends
    with the only line end it holds, the last one may lack it, and no line
    holds a [\r]. *)
Fixpoint no_newline (s : string) : bool :=
  match s with
  | EmptyString => true
  | String c rest => negb (Ascii.eqb c newline) && no_newline rest
  end.

Fixpoint no_carriage_return (s : string) : bool :=
  match s with
  | EmptyString => true
  | String c rest => negb (Ascii.eqb c carriage_return) && no_carriage_return rest
  end.

Definition full_line (line : string) : Prop :=
  exists body,
    line = (body ++ String newline EmptyString)%string /\ no_newline body = true.

Definition last_line (line : string) : Prop :=
  full_line line \/ (line <> EmptyString /\ no_newline line = true).

Fixpoint lines_ok (lines : list string) : Prop :=
  match lines with
  | [] => True
  | line :: rest =>
      match rest with
      | [] => last_line line
      | _ :: _ => full_line line /\ lines_ok rest
      end
  end.

(** The key file: [None] when no path is set or no file is there, its text
    otherwise.  Reads and writes of an existing file are taken to succeed.
    The platform is taken to be POSIX: a text written to a file opened for
    writing goes to the file as it is ([os.linesep] is [\n]). *)
Definition key_file : Type := option string.

Definition _remove_key_from_file (key_to_remove : string) (file : key_file)
  : key_file :=
  match file with
  | None => None
  | Some content =>
      let lines := readlines content in
      Some (write_kept key_to_remove lines EmptyString)
  end.

(** [read_api_keys_from_file].  The white space [str.strip()] removes,
    among the code points below 256: U+0009 to U+000D, U+001C to U+0020,
    U+0085 and U+00A0. *)
Definition is_space (c : ascii) : bool :=
  let n := nat_of_ascii c in
  (n =? 32)%nat || ((9 <=? n)%nat && (n <=? 13)%nat)
  || ((28 <=? n)%nat && (n <=? 31)%nat)
  || (n =? 133)%nat || (n =? 160)%nat.

Fixpoint lstrip (s : string) : string :=
  match s with
  | String c rest => if is_space c then lstrip rest else s
  | EmptyString => EmptyString
  end.

Fixpoint rstrip (s : string) : string :=
  match s with
  | String c rest =>
      match rstrip rest with
      | EmptyString => if is_space c then EmptyString else String c EmptyString
      | kept => String c kept
      end
  | EmptyString => EmptyString
  end.

Definition strip (s : string) : string := rstrip (lstrip s).

Fixpoint read_keys (lines : list string) (keys : list string) : list string :=
  match lines with
  | [] => keys
  | line :: rest =>
      let line := strip line in
      if negb (String.eqb line EmptyString) && negb (String.prefix "#" line)
      then read_keys rest (keys ++ [line])
      else read_keys rest keys
  end.

Definition read_api_keys_from_file (file : key_file) : list string :=
  match file with
  | None => []
  | Some content => read_keys (readlines content) []
  end.

(** The application state the worker mutates. *)
Record app : Type := { api_keys : list string; api_file : key_file }.

(** [keys.remove(key)]: the first occurrence goes. *)
Fixpoint remove_first (key : string) (keys : list string) : list string :=
  match keys with
  | [] => []
  | k :: rest => if String.eqb key k then rest else k :: remove_first key rest
  end.

Definition mem (key : string) (keys : list string) : bool :=
  existsb (String.eqb key) keys.

(** The test of [_handle_api_error] for an exhausted key: an [HTTPError]
    with a decodable body, status 402 and the credit message. *)
Definition insufficient_credit (e : exn) : bool :=
  match e with
  | HTTPError status_code (Some error_details) =>
      (status_code =? 402)%Z && contains "Insufficient credits" error_details
  | _ => false
  end.

Definition _handle_api_error (e : exn) (key : string) (self : app) : app :=
  match e with
  | HTTPError status_code (Some error_details) =>
      if (status_code =? 402)%Z && contains "Insufficient credits" error_details
      then
        {| api_keys := if mem key (api_keys self)
                       then remove_first key (api_keys self)
                       else api_keys self;
           api_file := _remove_key_from_file key (api_file self) |}
      else self
  | _ => self
  end.

(** The rotation of [_process_videos] after a success:
    [if api_key in self.api_keys: remove, then append]. *)
Definition rotate (api_key : string) (self : app) : app :=
  if mem api_key (api_keys self)
  then {| api_keys := remove_first api_key (api_keys self) ++ [api_key];
          api_file := api_file self |}
  else self.

(** The candidates still to be tried are all in the pool, as often as they
    are to be tried. *)
Definition covered (key_candidates pool : list string) : Prop :=
  forall x, (count_occ string_dec key_candidates x
             <= count_occ string_dec pool x)%nat.

(** How one attempt with a key ends. *)
Inductive attempt : Type :=
| Succeeded                 (* downloaded and re-encoded *)
| Errored (e : exn)         (* an exception reached the handler *)
| Abandoned.                (* no URLs, failed on the server, re-encode failed *)

(** The loop [while key_candidates and not success] of [_process_videos]
    for one video, over the
    outcomes of the attempts in order; running out of outcomes stands for
    the stop signal.  Returns the key that succeeded, if any. *)
Fixpoint failover (outcomes : list attempt) (key_candidates : list string)
    (self : app) : option string * app :=
  match key_candidates, outcomes with
  | [], _ => (None, self)
  | _, [] => (None, self)
  | api_key :: key_candidates, outcome :: outcomes =>
      match outcome with
      | Succeeded => (Some api_key, rotate api_key self)
      | Errored e =>
          failover outcomes key_candidates (_handle_api_error e api_key self)
      | Abandoned => failover outcomes key_candidates self
      end
  end.

Definition process_video (outcomes : list attempt) (self : app)
  : option string * app :=
  failover outcomes (api_keys self) self.

End Keys.

(** Sample pools and key files. *)
Definition no_credit : exn :=
  HTTPError 402 (Some "{'message': 'Insufficient credits'}"%string).

Definition nl : string := String Keys.newline EmptyString.

Definition doubled_pool : Keys.app :=
  {| Keys.api_keys := ["KEY1"; "KEY1"; "KEY2"]%string;
     Keys.api_file := Some ("KEY1" ++ nl ++ "KEY1" ++ nl ++ "KEY2" ++ nl)%string |}.

Definition nested_keys_file : Keys.key_file :=
  Some ("abc" ++ nl ++ "# spare" ++ nl ++ "xabcd" ++ nl ++ "zzz")%string.

(** A key file with [\r\n] line ends. *)
Definition crlf : string := String Keys.carriage_return nl.

Definition crlf_keys_file : string :=
  ("KEY1" ++ crlf ++ "KEY2" ++ crlf)%string.

(** * Further parts of the program *)

(** More sample status responses. *)
Definition status_failed_at_100 : Poll.dict :=
  [("state"%string, Poll.PStr "Failed"); ("progress"%string, Poll.PFloat 1.0)].

Definition status_bare_complete : Poll.dict :=
  [("state"%string, Poll.PStr "complete"); ("progress"%string, Poll.PInt 100)].


(** The bytes of a file from offset [lo] up to offset [hi], both cut at the
    end of the file. *)
Definition file_slice (content : Upload.bytes) (lo hi : Z) : Upload.bytes :=
  let size := Z.of_nat (length content) in
  skipn (Z.to_nat (Z.min lo size)) (firstn (Z.to_nat (Z.min hi size)) content).

(** Every request of a trace was accepted. *)
Definition all_accepted (put : string -> Upload.bytes -> Upload.response)
    (sent : list (string * Upload.bytes)) : Prop :=
  Forall (fun request => Upload.ok (put (fst request) (snd request)) = true) sent.

(** A remote end that rejects the part holding the bytes [c], [d]. *)
Definition put_rejects_second (url : string) (data : Upload.bytes)
  : Upload.response :=
  match data with
  | [Byte.x63; Byte.x64] =>
      {| Upload.ok := false; Upload.status := 403;
         Upload.json_body := Some "{'message': 'Forbidden'}"%string;
         Upload.etag_header := None |}
  | _ => put_accepts url data
  end.

(** No attempt of a run ended on an insufficient-credit response. *)
Definition no_eviction (outcomes : list Keys.attempt) : Prop :=
  forall e, In (Keys.Errored e) outcomes -> Keys.insufficient_credit e = false.

(** A key as [read_api_keys_from_file] returns them: not empty, with no
    white space around it, not a comment and on one line, that is without
    a [\n] or a [\r] in it. *)
Definition well_formed_key (key : string) : Prop :=
  key <> EmptyString
  /\ Keys.strip key = key
  /\ String.prefix "#" key = false
  /\ Keys.no_newline key = true
  /\ Keys.no_carriage_return key = true.

(** [keys] written one per line. *)
Fixpoint key_lines (keys : list string) : string :=
  match keys with
  | [] => EmptyString
  | key :: rest => (key ++ String Keys.newline (key_lines rest))%string
  end.

(** More sample pools. *)
Definition server_error : exn :=
  HTTPError 500 (Some "{'message': 'Internal error'}"%string).

Definition plain_pool : Keys.app :=
  {| Keys.api_keys := ["KEY1"; "KEY2"; "KEY3"]%string;
     Keys.api_file := Some (key_lines ["KEY1"; "KEY2"; "KEY3"]%string) |}.

Definition nested_pool : Keys.app :=
  {| Keys.api_keys := ["abc"; "xabcd"; "zzz"]%string;
     Keys.api_file := nested_keys_file |}.

(** The durations [_process_videos] hands to the transcoder: the desired
    duration is the original one times a slow-motion factor fixed at 1.0. *)
Definition slow_motion_factor : Q := 1.0.

Definition desired_final_duration (original_duration : Q) : Q :=
  original_duration * slow_motion_factor.

(** ** Source metadata: bit rate and validation *)

Definition ADOBE_MIN_DURATION : Z := 5.
Definition ADOBE_MAX_DURATION : Z := 60.



(** [str(z)] for an integer *)
Definition int_to_string (z : Z) : string :=
  if (z <? 0)%Z then ("-" ++ Z_to_string (- z))%string else Z_to_string z.

Definition valid_resolutions : list (Z * Z) :=
  [(1920, 1080); (3840, 2160); (1280, 720)]%Z.

Definition resolution_listed (width height : Z) : bool :=
  existsb (fun r => (fst r =? width)%Z && (snd r =? height)%Z) valid_resolutions.

Section Validation.

(** [str(e)] for the exception of a failed probe. *)
Variable exn_text : exn -> string.

(** [_validate_video_for_adobe], on the outcome of [get_video_metadata]. *)
Definition _validate_video_for_adobe (probe : result Transcode.VideoMetadata)
  : bool * string :=
  match probe with
  | Raise e => (false, exn_text e)
  | Ok metadata =>
      let width := Transcode.width metadata in
      let height := Transcode.height metadata in
      let duration := Transcode.duration metadata in
      let errors : list string := [] in
      let errors :=
        if Qlt_bool duration (inject_Z ADOBE_MIN_DURATION)
        then errors ++ [("Duration too short (" ++ format_f 1 duration ++ "s < "
                         ++ int_to_string ADOBE_MIN_DURATION ++ "s)")%string]
        else if Qlt_bool (inject_Z ADOBE_MAX_DURATION) duration
        then errors ++ [("Duration too long (" ++ format_f 1 duration ++ "s > "
                         ++ int_to_string ADOBE_MAX_DURATION ++ "s)")%string]
        else errors in
      let errors :=
        if negb (resolution_listed width height)
        then
          if (width <? 1920)%Z || (height <? 1080)%Z
          then errors ++ [("Resolution too low (" ++ int_to_string width ++ "x"
                           ++ int_to_string height ++ ")")%string]
          else errors
        else errors in
      match errors with
      | [] => (true, "OK"%string)
      | _ :: _ => (false, String.concat "; " errors)
      end
  end.

End Validation.

(** Sample sources. *)
Definition hd_clip : Transcode.VideoMetadata :=
  {| Transcode.width := 1280; Transcode.height := 720; Transcode.fps := 25;
     Transcode.frame_count := 250; Transcode.duration := 10;
     Transcode.size := 2621440 |}.

Definition fhd_clip : Transcode.VideoMetadata :=
  {| Transcode.width := 1920; Transcode.height := 1080; Transcode.fps := 29.97;
     Transcode.frame_count := 300; Transcode.duration := 10;
     Transcode.size := 15728640 |}.

Definition exn_name (e : exn) : string :=
  match e with
  | RuntimeError => "Gagal membuka"
  | _ => "error"
  end.

(** ** The queue of pending videos and the log history *)

Module Queue.

Section Choose.

(** Whether [_validate_video_for_adobe] accepts the file at a path. *)
Variable accepts : string -> bool.

(** The loop of [_choose_videos] over the files picked in the dialog. *)
Fixpoint _choose_videos (files : list string) (input_files : list string)
  : list string :=
  match files with
  | [] => input_files
  | file :: rest =>
      if negb (Keys.mem file input_files)
      then
        if accepts file
        then _choose_videos rest (input_files ++ [file])
        else _choose_videos rest input_files
      else _choose_videos rest input_files
  end.

End Choose.

(** The loop of [_update_ui]: the messages of the log queue go to the log
    history, whose oldest entry is dropped whenever it grows past 1000. *)
Definition log_cap : nat := 1000.

Fixpoint _update_ui (log_queue : list string) (log_history : list string)
  : list string :=
  match log_queue with
  | [] => log_history
  | msg :: rest =>
      let log_history := log_history ++ [msg] in
      let log_history :=
        if (log_cap <? length log_history)%nat then tl log_history
        else log_history in
      _update_ui rest log_history
  end.

(** The last [n] entries of a list. *)
Definition lastn {A} (n : nat) (l : list A) : list A := skipn (length l - n) l.

(** What happens to one video of the run: its metadata cannot be read, or
    the keys are tried with the given outcomes. *)
Inductive video_plan : Type :=
| Unreadable
| Tried (outcomes : list Keys.attempt).

Record worker : Type := { keys : Keys.app; input_files : list string }.

(** The loop of [_process_videos] over the snapshot [videos_to_process],
    one plan per video; running out of plans stands for the stop signal.
    Returns the videos that succeeded, in order. *)
Fixpoint process_loop (videos_to_process : list string) (plans : list video_plan)
    (self : worker) : list string * worker :=
  match videos_to_process, plans with
  | [], _ => ([], self)
  | _, [] => ([], self)
  | video_path :: videos, plan :: plans =>
      match plan with
      | Unreadable => process_loop videos plans self
      | Tried outcomes =>
          match Keys.process_video outcomes (keys self) with
          | (Some _, keys') =>
              let queue :=
                if Keys.mem video_path (input_files self)
                then Keys.remove_first video_path (input_files self)
                else input_files self in
              let '(done, self') :=
                process_loop videos plans
                  {| keys := keys'; input_files := queue |} in
              (video_path :: done, self')
          | (None, keys') =>
              process_loop videos plans
                {| keys := keys'; input_files := input_files self |}
          end
      end
  end.

Definition _process_videos (plans : list video_plan) (self : worker)
  : list string * worker :=
  process_loop (input_files self) plans self.

End Queue.

(** The videos of a queue that are not among those done. *)
Definition not_done (done : list string) (video : string) : bool :=
  negb (Keys.mem video done).

(** The entries of a list in the order of their first occurrence, each
    once. *)
Definition first_occurrences (l : list string) : list string :=
  rev (nodup string_dec (rev l)).

(** Sample queues. *)
Definition accepts_mp4 (file : string) : bool :=
  String.prefix "ok" file.

Definition sample_worker : Queue.worker :=
  {| Queue.keys := plain_pool;
     Queue.input_files := ["a.mp4"; "b.mp4"; "c.mp4"]%string |}.

(** ** Output paths *)

Section UniquePath.

(** [os.path.exists], [os.path.split], [os.path.splitext] and
    [os.path.join] of the platform. *)
Variable path_exists : string -> bool.
Variable path_split : string -> string * string.
Variable path_splitext : string -> string * string.
Variable path_join : string -> string -> string.

(** The candidate of [get_unique_filepath] with a given counter. *)
Definition numbered_path (output_path : string) (counter : Z) : string :=
  let '(directory, filename) := path_split output_path in
  let '(base_name, extension) := path_splitext filename in
  let new_filename :=
    (base_name ++ "_" ++ int_to_string counter ++ extension)%string in
  path_join directory new_filename.

(** The [while True] loop; [None] when [fuel] iterations find every
    candidate taken. *)
Fixpoint unique_loop (fuel : nat) (output_path : string) (counter : Z)
  : option string :=
  match fuel with
  | O => None
  | S fuel =>
      let new_path := numbered_path output_path counter in
      if negb (path_exists new_path) then Some new_path
      else unique_loop fuel output_path (counter + 1)
  end.

Definition get_unique_filepath (fuel : nat) (output_path : string)
  : option string :=
  if negb (path_exists output_path) then Some output_path
  else unique_loop fuel output_path 1.

End UniquePath.

(** Sample path functions for relative paths with [/] as separator, and a
    sample output directory. *)
Fixpoint rsplit_at (c : ascii) (s : string) : option (string * string) :=
  match s with
  | EmptyString => None
  | String a rest =>
      match rsplit_at c rest with
      | Some (before, after) => Some (String a before, after)
      | None => if Ascii.eqb a c then Some (EmptyString, rest) else None
      end
  end.

Definition sample_split (path : string) : string * string :=
  match rsplit_at "/" path with
  | Some (directory, filename) => (directory, filename)
  | None => (EmptyString, path)
  end.

Definition sample_splitext (filename : string) : string * string :=
  match rsplit_at "." filename with
  | Some (base_name, extension) => (base_name, String "." extension)
  | None => (filename, EmptyString)
  end.

Definition sample_join (directory filename : string) : string :=
  match directory with
  | EmptyString => filename
  | _ => (directory ++ "/" ++ filename)%string
  end.

Definition sample_directory (path : string) : bool :=
  Keys.mem path ["out/AdobeStock_clip.mp4"; "out/AdobeStock_clip_1.mp4";
                 "out/AdobeStock_clip_2.mp4"]%string.

(** ** The probe and the whole transcode *)

(** [int(x)] of a float: truncation towards zero. *)
Definition py_int (x : Q) : Z := Z.quot (Qnum x) (Zpos (Qden x)).

(** What [cv2.VideoCapture] answers for a file. *)
Record capture : Type := {
  isOpened : bool;
  CAP_PROP_FRAME_WIDTH : Q;
  CAP_PROP_FRAME_HEIGHT : Q;
  CAP_PROP_FPS : Q;
  CAP_PROP_FRAME_COUNT : Q
}.

(** [get_video_metadata]; [getsize] is the answer of [os.path.getsize]. *)
Definition get_video_metadata (cap : capture) (getsize : result Z)
  : result Transcode.VideoMetadata :=
  if negb (isOpened cap) then Raise RuntimeError
  else
    let width := py_int (CAP_PROP_FRAME_WIDTH cap) in
    let height := py_int (CAP_PROP_FRAME_HEIGHT cap) in
    let fps := CAP_PROP_FPS cap in
    let frame_count := py_int (CAP_PROP_FRAME_COUNT cap) in
    let duration := if Qlt_bool 0 fps then inject_Z frame_count / fps else 0 in
    match getsize with
    | Raise e => Raise e
    | Ok size =>
        Ok {| Transcode.width := width; Transcode.height := height;
              Transcode.fps := fps; Transcode.frame_count := frame_count;
              Transcode.duration := duration; Transcode.size := size |}
    end.

Module Encode.

Import Transcode.

Section Reencode.

(** The two calls of [get_video_metadata(input_path)], the one inside the
    [try] and the one after it, and [has_audio_stream(original_video_path)]. *)
Variable probe : result VideoMetadata.
Variable probe_out : result VideoMetadata.
Variable original_has_audio : bool.

(** [str(target_fps)] and [subprocess.run(cmd)]: the exit code of ffmpeg,
    or the exception raised when starting it. *)
Variable str_float : Q -> string.
Variable run : cmd -> result Z.

Variables input_path output_path preset : string.
Variable crf : Z.
Variable original_video_path : string.
Variable mute : bool.
Variable target_fps : option Q.
Variables original_duration desired_duration : Q.
Variable sharp_filter : option string.

(** [target_maxrate] and [target_bufsize] for an output size. *)
Definition rate_tier (out_w out_h : Z) : string * string :=
  if (3800 <=? out_w)%Z || (2100 <=? out_h)%Z
  then ("50000k"%string, "100000k"%string)
  else if (1900 <=? out_w)%Z || (1060 <=? out_h)%Z
  then ("25000k"%string, "50000k"%string)
  else ("20000k"%string, "40000k"%string).

(** [gop]: two seconds of frames, at least one; [None] without a frame
    rate. *)
Definition gop_of : option Z :=
  match target_fps with
  | Some fps =>
      if negb (Qeq_bool fps 0)
      then Some (Z.max 1 (round_half_even (fps * 2)))
      else None
  | None => None
  end.

(** The statements after the factor block, up to the run of ffmpeg. *)
Definition encode_tail : M bool :=
  out_meta <- lift probe_out ;;
  let '(target_maxrate, target_bufsize) :=
    rate_tier (width out_meta) (height out_meta) in
  let gop := gop_of in
  _ <- extend ["-c:v"; "libx264";
               "-preset"; preset;
               "-crf"; int_to_string crf;
               "-profile:v"; "high";
               "-level"; "4.2";
               "-pix_fmt"; "yuv420p";
               "-colorspace"; "bt709";
               "-color_primaries"; "bt709";
               "-color_trc"; "bt709";
               "-movflags"; "+faststart";
               "-maxrate"; target_maxrate;
               "-bufsize"; target_bufsize]%string ;;
  _ <- match target_fps with
       | Some fps => extend ["-r"%string; str_float fps]
       | None => ret tt
       end ;;
  _ <- match gop with
       | Some g => extend ["-g"%string; int_to_string g;
                           "-keyint_min"%string; int_to_string g]
       | None => ret tt
       end ;;
  _ <- (if video_has_audio original_has_audio mute
        then extend ["-c:a"; "aac"; "-b:a"; "320k"; "-ar"; "48000"]%string
        else ret tt) ;;
  _ <- extend [output_path] ;;
  fun c =>
    (c, Done match run c with
             | Ok returncode => (returncode =? 0)%Z
             | Raise _ => false
             end).

(** [reencode_video_adobe_optimized]: the command as it stands at the end,
    and the value returned or the exception that leaves the function. *)
Definition reencode_video_adobe_optimized : cmd * outcome bool :=
  (_ <- factor_block probe original_has_audio mute original_duration
          desired_duration sharp_filter ;;
   encode_tail)
    (initial_cmd input_path original_video_path
       (video_has_audio original_has_audio mute)).

End Reencode.

End Encode.

(** Sample runs of ffmpeg and a sample capture. *)
Definition run_ok (c : Transcode.cmd) : result Z := Ok 0%Z.

Definition str_fps (fps : Q) : string := format_f 2 fps.

Definition still_capture : capture :=
  {| isOpened := true; CAP_PROP_FRAME_WIDTH := 3840;
     CAP_PROP_FRAME_HEIGHT := 2160; CAP_PROP_FPS := 0;
     CAP_PROP_FRAME_COUNT := 0 |}.
(** ** Properties of the selector and of the normalizer *)

Lemma Qlt_bool_iff (x y : Q) : Qlt_bool x y = true <-> x < y.
Proof.
  unfold Qlt_bool. rewrite negb_true_iff.
  split; intro H.
  - apply Qnot_le_lt. intro Hle. apply Qle_bool_iff in Hle. congruence.
  - destruct (Qle_bool y x) eqn:E; [|reflexivity].
    apply Qle_bool_iff in E. exfalso. apply (Qlt_not_le _ _ H E).
Qed.

Lemma Qlt_bool_false_iff (x y : Q) : Qlt_bool x y = false <-> y <= x.
Proof.
  unfold Qlt_bool. rewrite negb_false_iff. apply Qle_bool_iff.
Qed.

Lemma Qle_bool_false_iff (x y : Q) : Qle_bool x y = false <-> y < x.
Proof.
  rewrite <- Qlt_bool_iff. unfold Qlt_bool.
  destruct (Qle_bool x y); simpl; intuition congruence.
Qed.

(** C6: the selector follows the rule table (bit rate clamped to 1.0 first,
    first matching rule wins), its amount stays within [0.45, 0.75] and is
    printed with two decimals after the fixed unsharp prefix. *)
Theorem pick_model_and_sharpen_rule_table (width height : Z) (fps bitrate_mbps : Q) :
  let model := fst (selector_rule_table width height fps bitrate_mbps) in
  let amount := snd (selector_rule_table width height fps bitrate_mbps) in
  pick_model_and_amount width height fps bitrate_mbps = (model, amount)
  /\ pick_model_and_sharpen width height fps bitrate_mbps
     = (model, (unsharp_prefix ++ format_f 2 amount)%string)
  /\ (0.45 <= amount /\ amount <= 0.75)
  /\ In (pick_model_and_sharpen width height fps bitrate_mbps) sharpen_outcomes.
Proof.
  unfold pick_model_and_sharpen, pick_model_and_amount, selector_rule_table.
  unfold Qlt_bool.
  generalize (if Qle_bool bitrate_mbps 0 then 1.0 else bitrate_mbps).
  intro b.
  destruct (width <? 1280)%Z, (height <? 720)%Z, (Qle_bool 6 b),
    (3200 <=? width)%Z, (1800 <=? height)%Z, (Qle_bool 12 b),
    (1920 <=? width)%Z, (1080 <=? height)%Z, (Qle_bool fps 30);
    vm_compute; intuition (discriminate || auto 10).
Qed.

(** C8, as stated for 60.2: the normalizer does not return 60.0 there. *)
Lemma normalize_fps_60_2_is_not_60 :
  ~ (normalize_fps 29.7 == 29.97 /\ normalize_fps 60.2 == 60.0
     /\ normalize_fps 22.0 == 22.0).
Proof.
  intros (_ & H & _). vm_compute in H. discriminate H.
Qed.

(** C8: the normalizer returns 29.97 for 29.7, the fractional rate 59.94 for
    60.2, and passes 22.0 through (rounded to three decimals). *)
Theorem normalize_fps_examples :
  normalize_fps 29.7 == 29.97 /\ normalize_fps 60.2 == 59.94
  /\ normalize_fps 22.0 == 22.0.
Proof.
  repeat split; vm_compute; reflexivity.
Qed.

(** ** ChunkedUploader *)

Section UploadLoop.

Import Upload.

Variable put : string -> bytes -> response.
Variable content : bytes.
Variable p : Z.

Hypothesis put_ok : forall url data, ok (put url data) = true.
Hypothesis p_pos : (0 < p)%Z.

Local Abbreviation size := (Z.of_nat (length content)).
Local Abbreviation part_range := (part_range content p).
Local Abbreviation expected_sent := (expected_sent content p).
Local Abbreviation expected_etags := (expected_etags put content p).
Local Abbreviation starts_inside := (starts_inside content p).

Lemma starts_inside_tail idx url rest :
  (0 <= idx)%Z -> starts_inside idx (url :: rest) ->
  (idx * p <= size)%Z /\ starts_inside (idx + 1) rest.
Proof.
  unfold starts_inside. intros Hidx [H|H]; [discriminate|].
  cbn [length] in H. split.
  - nia.
  - destruct rest as [|u r]; [now left|right].
    cbn [length] in *. nia.
Qed.

Lemma upload_loop_runs urls : forall idx sent etags,
  (0 <= idx)%Z -> starts_inside idx urls ->
  upload_loop put content size p idx urls sent etags
  = (sent ++ expected_sent idx urls, Ok (etags ++ expected_etags idx urls)).
Proof.
  induction urls as [|url rest IH]; intros idx sent etags Hidx Hin.
  - cbn. now rewrite !app_nil_r.
  - destruct (starts_inside_tail _ _ _ Hidx Hin) as [Hlt Hrest].
    cbn [upload_loop expected_sent expected_etags].
    unfold seek_read.
    assert (Hsz : (0 <= Z.min ((idx + 1) * p) size - idx * p)%Z) by lia.
    destruct (Z.ltb_spec (Z.min ((idx + 1) * p) size - idx * p) (-1)); [lia|].
    destruct (Z.eqb_spec (Z.min ((idx + 1) * p) size - idx * p) (-1)); [lia|].
    fold (byte_range content (idx * p) (Z.min ((idx + 1) * p) size)).
    fold (part_range idx).
    rewrite put_ok. cbn [negb].
    rewrite IH by (assumption || lia).
    now rewrite <- !app_assoc.
Qed.

Lemma expected_sent_urls urls : forall idx,
  map fst (expected_sent idx urls) = urls.
Proof.
  induction urls as [|u r IH]; intro idx; cbn; [reflexivity|now rewrite IH].
Qed.

Lemma expected_sent_nth urls : forall idx i,
  (i < length urls)%nat ->
  nth i (map snd (expected_sent idx urls)) [] = part_range (idx + Z.of_nat i).
Proof.
  induction urls as [|u r IH]; intros idx i Hi; cbn [length] in Hi; [lia|].
  destruct i as [|i]; cbn [expected_sent map nth snd].
  - f_equal. lia.
  - rewrite IH by lia. f_equal. lia.
Qed.

Lemma expected_etags_length urls : forall idx,
  length (expected_etags idx urls) = length urls.
Proof.
  induction urls as [|u r IH]; intro idx; cbn; [reflexivity|now rewrite IH].
Qed.

Lemma expected_etags_partNum urls : forall idx,
  (0 <= idx)%Z ->
  map partNum (expected_etags idx urls)
  = map Z.of_nat (seq (S (Z.to_nat idx)) (length urls)).
Proof.
  induction urls as [|u r IH]; intros idx Hidx; cbn [expected_etags map length seq];
    [reflexivity|].
  rewrite IH by lia. cbn [partNum]. f_equal; [lia|].
  do 2 f_equal. lia.
Qed.

Lemma part_range_length idx :
  (0 <= idx)%Z -> (idx * p <= size)%Z ->
  Z.of_nat (length (part_range idx)) = (Z.min ((idx + 1) * p) size - idx * p)%Z.
Proof.
  intros Hidx Hlt. unfold part_range, byte_range.
  rewrite length_firstn, length_skipn. lia.
Qed.

Lemma part_range_concat urls : forall idx,
  (0 <= idx)%Z -> urls <> [] -> starts_inside idx urls ->
  (size <= (idx + Z.of_nat (length urls)) * p)%Z ->
  concat (map snd (expected_sent idx urls)) = skipn (Z.to_nat (idx * p)) content.
Proof.
  induction urls as [|u r IH]; intros idx Hidx Hne Hin Hcover; [congruence|].
  destruct (starts_inside_tail _ _ _ Hidx Hin) as [Hlt Hrest].
  cbn [expected_sent map concat snd length] in *.
  destruct r as [|u' r'].
  - cbn. rewrite app_nil_r. unfold part_range, byte_range.
    apply firstn_all2. rewrite length_skipn.
    cbn [length] in Hcover. lia.
  - assert (Hnext : ((idx + 1) * p <= size)%Z).
    { destruct Hrest as [H|H]; [discriminate|]. cbn [length] in H. nia. }
    rewrite IH; try (assumption || lia || discriminate).
    unfold part_range, byte_range.
    replace (Z.min ((idx + 1) * p) size - idx * p)%Z with p by lia.
    replace (Z.to_nat ((idx + 1) * p))
      with (Z.to_nat p + Z.to_nat (idx * p))%nat by nia.
    rewrite <- skipn_skipn. apply firstn_skipn.
Qed.

End UploadLoop.
(** [(s + n - 1) // n] is the ceiling of [s / n]. *)
Lemma ceil_div_bounds (s n : Z) :
  (1 <= s)%Z -> (1 <= n)%Z ->
  (1 <= Upload.ceil_div s n)%Z
  /\ (s <= n * Upload.ceil_div s n)%Z
  /\ (n * (Upload.ceil_div s n - 1) < s)%Z.
Proof.
  intros Hs Hn. unfold Upload.ceil_div.
  pose proof (Z.div_mod (s + n - 1) n ltac:(lia)) as Hdm.
  pose proof (Z.mod_pos_bound (s + n - 1) n ltac:(lia)) as Hmod.
  repeat split; nia.
Qed.

(** C7: when every request succeeds and the last of the N parts starts
    inside the file or at its end, the uploader sends the N consecutive
    ranges of ceil(S/N) bytes, which concatenate to the file, only the last
    one possibly shorter, and returns N results numbered 1..N in order. *)
Theorem upload_video_parts_ranges
    (put : string -> Upload.bytes -> Upload.response)
    (upload_urls : list string) (content : Upload.bytes) :
  (1 <= length content)%nat ->
  upload_urls <> [] ->
  (forall url data, Upload.ok (put url data) = true) ->
  ((Z.of_nat (length upload_urls) - 1)
   * Upload.ceil_div (Z.of_nat (length content)) (Z.of_nat (length upload_urls))
   <= Z.of_nat (length content))%Z ->
  Upload.uploads_in_parts put upload_urls content.
Proof.
  intros Hsize Hne Hput Hlast.
  assert (Hn : (1 <= length upload_urls)%nat)
    by (destruct upload_urls; [congruence|cbn; lia]).
  destruct (ceil_div_bounds (Z.of_nat (length content))
              (Z.of_nat (length upload_urls)) ltac:(lia) ltac:(lia))
    as (Hp & Hcover & _).
  set (p := Upload.ceil_div _ _) in *.
  assert (Hin : Upload.starts_inside content p 0 upload_urls)
    by (right; lia).
  unfold Upload.uploads_in_parts. cbv zeta. fold p.
  exists (Upload.expected_sent content p 0 upload_urls),
         (Upload.expected_etags put content p 0 upload_urls).
  repeat split.
  - unfold Upload.upload_video_parts.
    destruct (Z.eqb_spec (Z.of_nat (length upload_urls)) 0); [lia|].
    fold (Upload.ceil_div (Z.of_nat (length content))
            (Z.of_nat (length upload_urls))). fold p.
    now rewrite (upload_loop_runs put content p Hput ltac:(lia)) by (lia || assumption).
  - apply expected_sent_urls.
  - intros i Hi. now rewrite expected_sent_nth by assumption.
  - rewrite (part_range_concat content p ltac:(lia)); try (assumption || lia).
    reflexivity.
  - intros i Hi. rewrite expected_sent_nth by lia.
    rewrite part_range_length; nia.
  - rewrite expected_sent_nth by lia.
    rewrite part_range_length; nia.
  - apply expected_etags_length.
  - now rewrite expected_etags_partNum by lia.
Qed.

Lemma upload_video_parts_ranges_witness :
  Upload.uploads_in_parts put_accepts four_urls seven_bytes.
Proof.
  apply upload_video_parts_ranges.
  - cbn. lia.
  - discriminate.
  - reflexivity.
  - vm_compute. discriminate.
Defined.

(** At the boundary, four bytes over three URLs, the last part starts at the
    end of the file and is sent empty. *)
Lemma upload_four_bytes_three_urls :
  Upload.upload_video_parts put_accepts ["u1"; "u2"; "u3"]%string
    [Byte.x61; Byte.x62; Byte.x63; Byte.x64]
  = ([("u1", [Byte.x61; Byte.x62]); ("u2", [Byte.x63; Byte.x64]);
      ("u3", [])]%string,
     Ok [ {| Upload.partNum := 1; Upload.eTag := "tag" |};
          {| Upload.partNum := 2; Upload.eTag := "tag" |};
          {| Upload.partNum := 3; Upload.eTag := "tag" |} ]).
Proof. vm_compute. reflexivity. Qed.

(** C7, as stated for every size and URL count: five bytes over four URLs
    are sent as parts of 2, 2, 1 and 0 bytes, so a part before the last is
    shorter than the part size. *)
Lemma upload_five_bytes_four_urls :
  Upload.upload_video_parts put_accepts four_urls five_bytes
  = ([("u1", [Byte.x61; Byte.x62]); ("u2", [Byte.x63; Byte.x64]);
      ("u3", [Byte.x65]); ("u4", [])]%string,
     Ok [ {| Upload.partNum := 1; Upload.eTag := "tag" |};
          {| Upload.partNum := 2; Upload.eTag := "tag" |};
          {| Upload.partNum := 3; Upload.eTag := "tag" |};
          {| Upload.partNum := 4; Upload.eTag := "tag" |} ])
  /\ ~ Upload.uploads_in_parts put_accepts four_urls five_bytes.
Proof.
  split; [vm_compute; reflexivity|].
  intros (sent & etags & Hrun & _ & _ & _ & Hfull & _).
  vm_compute in Hrun. injection Hrun as <- <-.
  specialize (Hfull 2%nat ltac:(cbn; lia)).
  vm_compute in Hfull. discriminate Hfull.
Qed.

(** One byte over four URLs: the fourth read asks for -2 bytes and the
    uploader raises after three requests. *)
Lemma upload_one_byte_four_urls :
  Upload.upload_video_parts put_accepts four_urls [Byte.x61]
  = ([("u1", [Byte.x61]); ("u2", []); ("u3", [])]%string, Raise ValueError).
Proof. vm_compute. reflexivity. Qed.
(** ** Decimal printing and reading *)

Section Decimal.

Lemma digit_of_digit_char (d : Z) :
  (0 <= d < 10)%Z -> digit_of (digit_char d) = Some d.
Proof.
  intros Hd.
  assert (Hcases : (d = 0 \/ d = 1 \/ d = 2 \/ d = 3 \/ d = 4 \/ d = 5
                   \/ d = 6 \/ d = 7 \/ d = 8 \/ d = 9)%Z) by lia.
  repeat (destruct Hcases as [->|Hcases]; [reflexivity|]).
  now subst.
Qed.

Lemma digit_of_not_dot (c : ascii) (d : Z) :
  digit_of c = Some d -> Ascii.eqb c "." = false /\ Ascii.eqb c "-" = false.
Proof.
  intro H. split.
  - destruct (Ascii.eqb_spec c "."); [subst; discriminate H|reflexivity].
  - destruct (Ascii.eqb_spec c "-"); [subst; discriminate H|reflexivity].
Qed.

Lemma digits_acc_app (s1 s2 : string) : forall acc,
  digits_acc (s1 ++ s2) acc =
  match digits_acc s1 acc with
  | Some v => digits_acc s2 v
  | None => None
  end.
Proof.
  induction s1 as [|c s1 IH]; intro acc; cbn; [reflexivity|].
  destruct (digit_of c); [apply IH|reflexivity].
Qed.

Lemma string_length_app (s1 s2 : string) :
  String.length (s1 ++ s2) = (String.length s1 + String.length s2)%nat.
Proof.
  induction s1 as [|c s1 IH]; cbn; [reflexivity|now rewrite IH].
Qed.

Lemma fixed_digits_length (n : nat) : forall z,
  String.length (fixed_digits n z) = n.
Proof.
  induction n as [|n IH]; intro z; cbn; [reflexivity|].
  rewrite string_length_app, IH. cbn. lia.
Qed.

Lemma digits_acc_fixed_digits (n : nat) : forall z acc,
  (0 <= z)%Z ->
  digits_acc (fixed_digits n z) acc = Some (acc * pow10 n + z mod pow10 n)%Z.
Proof.
  unfold pow10.
  induction n as [|n IH]; intros z acc Hz.
  - cbn. rewrite Z.mod_1_r. f_equal. lia.
  - cbn [fixed_digits]. rewrite digits_acc_app, IH by (apply Z.div_pos; lia).
    cbn [digits_acc].
    rewrite digit_of_digit_char by (apply Z.mod_pos_bound; lia).
    f_equal.
    rewrite Nat2Z.inj_succ, Z.pow_succ_r by lia.
    assert (Hpow : (0 < 10 ^ Z.of_nat n)%Z) by (apply Z.pow_pos_nonneg; lia).
    rewrite (Z.rem_mul_r z 10 (10 ^ Z.of_nat n)) by lia.
    ring.
Qed.

Lemma digits_acc_strip_zeros (s : string) :
  digits_acc (strip_zeros s) 0 = digits_acc s 0.
Proof.
  induction s as [|c s IH]; [reflexivity|].
  cbn [strip_zeros]. destruct s as [|c' s']; [reflexivity|].
  destruct (Ascii.eqb_spec c "0") as [->|]; [|reflexivity].
  rewrite IH. reflexivity.
Qed.

Lemma digits_acc_Z_to_string (z : Z) :
  (0 <= z)%Z -> digits_acc (Z_to_string z) 0 = Some z.
Proof.
  intro Hz. unfold Z_to_string.
  rewrite digits_acc_strip_zeros, digits_acc_fixed_digits by assumption.
  f_equal. cbn [Z.mul]. rewrite Z.mod_small; [reflexivity|].
  split; [assumption|]. unfold pow10.
  rewrite Nat2Z.inj_succ, Z2Nat.id by apply Z.log2_nonneg.
  destruct (Z.eq_dec z 0) as [->|Hnz]; [reflexivity|].
  pose proof (Z.log2_spec z ltac:(lia)) as [_ Hlt].
  eapply Z.lt_le_trans; [exact Hlt|].
  apply Z.pow_le_mono_l. lia.
Qed.

Lemma split_dot_digits (s : string) : forall acc v,
  digits_acc s acc = Some v ->
  split_dot s = (s, None)
  /\ forall rest, split_dot (s ++ String "." rest) = (s, Some rest).
Proof.
  induction s as [|c s IH]; intros acc v H; cbn in *.
  - split; reflexivity.
  - destruct (digit_of c) as [d|] eqn:Hd; [|discriminate].
    destruct (digit_of_not_dot _ _ Hd) as [-> _].
    destruct (IH _ _ H) as [-> IH2]. split; [reflexivity|].
    intro rest. now rewrite IH2.
Qed.

Lemma strip_zeros_nonempty (s : string) :
  s <> EmptyString -> strip_zeros s <> EmptyString.
Proof.
  induction s as [|c s IH]; intro Hne; [congruence|].
  cbn [strip_zeros]. destruct s as [|c' s']; [discriminate|].
  destruct (Ascii.eqb c "0"); [apply IH|]; discriminate.
Qed.

Lemma Qmake_div_mod (m : Z) (p : positive) :
  inject_Z (m / Zpos p) + Qmake (m mod Zpos p) p == Qmake m p.
Proof.
  unfold Qeq, Qplus, inject_Z. cbn [Qnum Qden].
  pose proof (Z.div_mod m (Zpos p) ltac:(lia)) as Hdm.
  rewrite Pos2Z.inj_mul. nia.
Qed.

Lemma round_half_even_near (y : Q) :
  Qabs (inject_Z (round_half_even y) - y) <= 1 # 2.
Proof.
  pose proof (Qfloor_le y) as Hlo. pose proof (Qlt_floor y) as Hhi.
  rewrite inject_Z_plus in Hhi. change (inject_Z 1) with 1 in Hhi.
  apply Qabs_Qle_condition. unfold round_half_even.
  destruct (Qlt_bool (y - inject_Z (Qfloor y)) (1 # 2)) eqn:E1.
  - apply Qlt_bool_iff in E1. split; lra.
  - apply Qlt_bool_false_iff in E1.
    destruct (Qlt_bool (1 # 2) (y - inject_Z (Qfloor y))) eqn:E2.
    + rewrite inject_Z_plus. change (inject_Z 1) with 1. split; lra.
    + apply Qlt_bool_false_iff in E2.
      destruct (Z.even (Qfloor y));
        [|rewrite inject_Z_plus; change (inject_Z 1) with 1]; split; lra.
Qed.

Lemma round_half_even_ge (lo : Z) (y : Q) :
  inject_Z lo <= y -> (lo <= round_half_even y)%Z.
Proof.
  intro H. assert (Hfl : (lo <= Qfloor y)%Z).
  { rewrite <- (Qfloor_Z lo). now apply Qfloor_resp_le. }
  unfold round_half_even.
  destruct (Qlt_bool _ _); [assumption|].
  destruct (Qlt_bool _ _); [lia|].
  destruct (Z.even _); lia.
Qed.

Lemma round_half_even_le (hi : Z) (y : Q) :
  y <= inject_Z hi -> (round_half_even y <= hi)%Z.
Proof.
  intro H. pose proof (Qfloor_le y) as Hlo.
  assert (Hfl : (Qfloor y <= hi)%Z).
  { rewrite <- (Qfloor_Z hi). now apply Qfloor_resp_le. }
  destruct (Z.eq_dec (Qfloor y) hi) as [Heq|Hne].
  - unfold round_half_even. rewrite Heq in *.
    assert (Hrest : Qlt_bool (y - inject_Z hi) (1 # 2) = true)
      by (apply Qlt_bool_iff; lra).
    rewrite Hrest. lia.
  - unfold round_half_even.
    destruct (Qlt_bool _ _); [assumption|].
    destruct (Qlt_bool _ _); [lia|].
    destruct (Z.even _); lia.
Qed.

Lemma Qabs_nonneg_eq (x : Q) : 0 <= x -> Qabs x = x.
Proof.
  destruct x as [n d]. unfold Qle, Qabs. cbn [Qnum Qden].
  intro H. f_equal. apply Z.abs_eq. lia.
Qed.

Lemma pow10_pos (n : nat) : (0 < pow10 n)%Z.
Proof. unfold pow10. apply Z.pow_pos_nonneg; lia. Qed.

Lemma parse_decimal_digits_dot (ip f : string) (i fv : Z) :
  ip <> EmptyString ->
  digits_acc ip 0 = Some i -> digits_acc f 0 = Some fv ->
  parse_decimal (ip ++ String "." f)
  = Some (inject_Z i + Qmake fv (Z.to_pos (pow10 (String.length f)))).
Proof.
  intros Hne Hi Hf.
  assert (Hu : parse_unsigned (ip ++ String "." f)
               = Some (inject_Z i + Qmake fv (Z.to_pos (pow10 (String.length f))))).
  { unfold parse_unsigned.
    destruct (split_dot_digits _ _ _ Hi) as [_ Hsplit].
    now rewrite Hsplit, Hi, Hf. }
  destruct ip as [|c rest]; [congruence|].
  cbn [digits_acc] in Hi.
  destruct (digit_of c) as [d|] eqn:Hd; [|discriminate].
  destruct (digit_of_not_dot _ _ Hd) as [_ Hc].
  unfold parse_decimal. cbn [append]. rewrite Hc. exact Hu.
Qed.

Lemma Z_to_string_nonempty (z : Z) : Z_to_string z <> EmptyString.
Proof.
  apply strip_zeros_nonempty. cbn [fixed_digits].
  now destruct (fixed_digits _ _).
Qed.

(** Reading back what [format_f] printed gives the rounded value. *)
Lemma parse_decimal_format_f (n : nat) (x : Q) :
  (0 < n)%nat -> 0 <= x ->
  exists v, parse_decimal (format_f n x) = Some v /\ v == format_f_value n x.
Proof.
  intros Hn Hx. unfold format_f, format_f_value.
  assert (Hsign : Qlt_bool x 0 = false) by now apply Qlt_bool_false_iff.
  rewrite Hsign.
  pose proof (pow10_pos n) as Hs.
  set (s := pow10 n) in *.
  set (m := round_half_even (Qabs x * inject_Z s)).
  assert (Hm : (0 <= m)%Z).
  { apply round_half_even_ge. apply Qmult_le_0_compat; [apply Qabs_nonneg|].
    change 0 with (inject_Z 0). rewrite <- Zle_Qle. lia. }
  assert (Hq : (0 <= m / s)%Z) by (apply Z.div_pos; lia).
  destruct n as [|n']; [lia|]. set (n := S n') in *.
  change (EmptyString ++ ?t)%string with t.
  rewrite (parse_decimal_digits_dot _ _ (m / s) (m mod s)).
  - eexists. split; [reflexivity|].
    rewrite fixed_digits_length. fold s.
    rewrite <- (Qmake_div_mod m (Z.to_pos s)).
    rewrite Z2Pos.id by assumption. reflexivity.
  - apply Z_to_string_nonempty.
  - now apply digits_acc_Z_to_string.
  - rewrite digits_acc_fixed_digits by (apply Z.mod_pos_bound; lia).
    fold s. rewrite Z.mod_mod by lia. reflexivity.
Qed.

End Decimal.

(** ** The tempo chain *)

Section TempoLoops.

Import Transcode.

Lemma pow2_S (k : nat) : pow2 (S k) == 2 * pow2 k.
Proof.
  unfold pow2. rewrite Nat2Z.inj_succ, Z.pow_succ_r by lia.
  rewrite inject_Z_mult. reflexivity.
Qed.

Lemma pow2_pos (k : nat) : 0 < pow2 k.
Proof.
  unfold pow2. change 0 with (inject_Z 0). rewrite <- Zlt_Qlt.
  apply Z.pow_pos_nonneg; lia.
Qed.

Lemma pow2_0 : pow2 0 == 1.
Proof. reflexivity. Qed.

Lemma halve_loop_S (fuel : nat) (fs : list string) (a : Q) :
  halve_loop (S fuel) fs a =
  if Qlt_bool 2.0 a
  then halve_loop fuel (fs ++ ["atempo=2.0"%string]) (a / 2.0)
  else Some (fs, a).
Proof. reflexivity. Qed.

Lemma double_loop_S (fuel : nat) (fs : list string) (a : Q) :
  double_loop (S fuel) fs a =
  if Qlt_bool a 0.5
  then double_loop fuel (fs ++ ["atempo=0.5"%string]) (a / 0.5)
  else Some (fs, a).
Proof. reflexivity. Qed.

Lemma halve_loop_more_fuel (fuel : nat) : forall fs a r fuel',
  halve_loop fuel fs a = Some r -> (fuel <= fuel')%nat ->
  halve_loop fuel' fs a = Some r.
Proof.
  induction fuel as [|fuel IH]; intros fs a r fuel' H Hle; [discriminate|].
  destruct fuel' as [|fuel']; [lia|]. cbn in *.
  destruct (Qlt_bool 2.0 a); [|assumption].
  apply IH; [assumption|lia].
Qed.

Lemma double_loop_more_fuel (fuel : nat) : forall fs a r fuel',
  double_loop fuel fs a = Some r -> (fuel <= fuel')%nat ->
  double_loop fuel' fs a = Some r.
Proof.
  induction fuel as [|fuel IH]; intros fs a r fuel' H Hle; [discriminate|].
  destruct fuel' as [|fuel']; [lia|]. cbn in *.
  destruct (Qlt_bool a 0.5); [|assumption].
  apply IH; [assumption|lia].
Qed.

(** The halving loop ends within [n] iterations on a factor of at most
    [2^(n+1)], after [k] stages and on the factor [a / 2^k]. *)
Lemma halve_loop_ends (n : nat) : forall fs a,
  a <= pow2 (S n) ->
  exists k r,
    (k <= n)%nat
    /\ halve_loop (S n) fs a = Some (fs ++ repeat "atempo=2.0"%string k, r)
    /\ r * pow2 k == a
    /\ r <= 2
    /\ (a <= 2 -> k = 0%nat /\ r = a)
    /\ (2 < a -> 1 < r).
Proof.
  induction n as [|n IH]; intros fs a Ha.
  - exists 0%nat, a. rewrite pow2_S, pow2_0 in Ha.
    rewrite halve_loop_S. cbn [repeat].
    assert (Hc : Qlt_bool 2.0 a = false) by (apply Qlt_bool_false_iff; lra).
    rewrite Hc, app_nil_r. rewrite pow2_0.
    repeat apply conj; try lra; try lia; try reflexivity; try (intros; split; reflexivity).
  - rewrite halve_loop_S. destruct (Qlt_bool 2.0 a) eqn:Hc.
    + apply Qlt_bool_iff in Hc.
      destruct (IH (fs ++ ["atempo=2.0"%string]) (a / 2.0)) as (k & r & Hk & Hrun & Hr & Hle & Hsmall & Hbig).
      { rewrite pow2_S in Ha. apply Qle_shift_div_r; lra. }
      exists (S k), r. rewrite Hrun, <- app_assoc. cbn [repeat app].
      assert (Hhalf : a / 2.0 * 2 == a) by (field).
      split; [lia|]. split; [reflexivity|].
      split; [rewrite pow2_S, <- Hhalf, <- Hr; ring|].
      split; [assumption|].
      split; [intro; lra|].
      intros _. destruct (Qlt_le_dec 2 (a / 2.0)) as [Hgt|Hsm].
      * now apply Hbig.
      * destruct (Hsmall Hsm) as [_ ->]. apply Qlt_shift_div_l; lra.
    + apply Qlt_bool_false_iff in Hc.
      exists 0%nat, a. cbn [repeat]. rewrite app_nil_r, pow2_0.
      repeat apply conj; try lra; try lia; try reflexivity; try (intros; split; reflexivity).
Qed.

(** The doubling loop, on a positive factor of at least [1 / 2^(n+1)]. *)
Lemma double_loop_ends (n : nat) : forall fs a,
  1 <= a * pow2 (S n) ->
  exists k r,
    (k <= n)%nat
    /\ double_loop (S n) fs a = Some (fs ++ repeat "atempo=0.5"%string k, r)
    /\ r == a * pow2 k
    /\ 0.5 <= r
    /\ (0.5 <= a -> k = 0%nat /\ r = a)
    /\ (a < 0.5 -> r < 1).
Proof.
  induction n as [|n IH]; intros fs a Ha.
  - exists 0%nat, a. rewrite pow2_S, pow2_0 in Ha.
    rewrite double_loop_S. cbn [repeat].
    assert (Hc : Qlt_bool a 0.5 = false) by (apply Qlt_bool_false_iff; lra).
    rewrite Hc, app_nil_r. rewrite pow2_0.
    repeat apply conj; try lra; try lia; try reflexivity; try (intros; split; reflexivity).
  - rewrite double_loop_S. destruct (Qlt_bool a 0.5) eqn:Hc.
    + apply Qlt_bool_iff in Hc.
      assert (Hdbl : a / 0.5 == a * 2) by (field).
      destruct (IH (fs ++ ["atempo=0.5"%string]) (a / 0.5)) as (k & r & Hk & Hrun & Hr & Hge & Hsmall & Hbig).
      { rewrite pow2_S in Ha. rewrite Hdbl. lra. }
      exists (S k), r. rewrite Hrun, <- app_assoc. cbn [repeat app].
      split; [lia|]. split; [reflexivity|].
      split; [rewrite pow2_S, Hr, Hdbl; ring|].
      split; [assumption|].
      split; [intro; lra|].
      intros _. destruct (Qlt_le_dec (a / 0.5) 0.5) as [Hlt|Hsm].
      * now apply Hbig.
      * destruct (Hsmall Hsm) as [_ ->]. rewrite Hdbl. lra.
    + apply Qlt_bool_false_iff in Hc.
      exists 0%nat, a. cbn [repeat]. rewrite app_nil_r, pow2_0.
      repeat apply conj; try lra; try lia; try reflexivity; try (intros; split; reflexivity).
Qed.

Lemma pow2_ge_1 (k : nat) : 1 <= pow2 k.
Proof.
  unfold pow2. change 1 with (inject_Z 1). rewrite <- Zle_Qle.
  pose proof (Z.pow_pos_nonneg 2 (Z.of_nat k) ltac:(lia) ltac:(lia)). lia.
Qed.

Lemma loop_fuel_halve (a : Q) :
  0 < a -> a <= pow2 (S (Z.to_nat (Z.log2 (Qnum a)))).
Proof.
  destruct a as [n d]. unfold Qlt, Qle, pow2. cbn [Qnum Qden inject_Z].
  intro Hn. rewrite Nat2Z.inj_succ, Z2Nat.id by apply Z.log2_nonneg.
  pose proof (Z.log2_spec n ltac:(lia)) as [_ Hlt]. nia.
Qed.

Lemma loop_fuel_double (a : Q) :
  0 < a -> 1 <= a * pow2 (S (Z.to_nat (Z.log2 (Zpos (Qden a))))).
Proof.
  destruct a as [n d]. unfold Qlt, Qle, Qmult, pow2. cbn [Qnum Qden inject_Z].
  intro Hn. rewrite Nat2Z.inj_succ, Z2Nat.id by apply Z.log2_nonneg.
  pose proof (Z.log2_spec (Zpos d) ltac:(lia)) as [_ Hlt]. nia.
Qed.

(** Both loops end on a positive factor: after finitely many stages the
    factor left over lies in [0.5, 2.0], whatever fuel beyond [loop_fuel]
    is given. *)
Lemma tempo_loops_run (a : Q) :
  0 < a ->
  exists (halvings doublings : nat) (leftover : Q),
    (forall fuel, (loop_fuel a <= fuel)%nat ->
       tempo_loops fuel a
       = Some (repeat "atempo=2.0"%string halvings
               ++ repeat "atempo=0.5"%string doublings, leftover))
    /\ 0.5 <= leftover /\ leftover <= 2.0
    /\ leftover * pow2 halvings == a * pow2 doublings.
Proof.
  intro Ha.
  set (n1 := Z.to_nat (Z.log2 (Qnum a))).
  set (n2 := Z.to_nat (Z.log2 (Zpos (Qden a)))).
  destruct (halve_loop_ends n1 [] a (loop_fuel_halve a Ha))
    as (h & r1 & _ & Hrun1 & Hr1 & Hle1 & Hsmall1 & Hbig1).
  assert (Hpre : 1 <= r1 * pow2 (S n2)).
  { destruct (Qlt_le_dec 2 a) as [Hgt|Hsm].
    - specialize (Hbig1 Hgt). pose proof (pow2_ge_1 (S n2)). nra.
    - destruct (Hsmall1 Hsm) as [_ ->]. now apply loop_fuel_double. }
  destruct (double_loop_ends n2 (repeat "atempo=2.0"%string h) r1 Hpre)
    as (d & r & _ & Hrun2 & Hr & Hge & Hsmall2 & Hbig2).
  exists h, d, r. split; [|split; [|split]].
  - intros fuel Hfuel. unfold loop_fuel in Hfuel. fold n1 n2 in Hfuel.
    unfold tempo_loops.
    rewrite (halve_loop_more_fuel _ _ _ _ fuel Hrun1) by lia.
    cbn [app] in *.
    now rewrite (double_loop_more_fuel _ _ _ _ fuel Hrun2) by lia.
  - exact Hge.
  - destruct (Qlt_le_dec r1 0.5) as [Hlt|Hsm].
    + specialize (Hbig2 Hlt). lra.
    + destruct (Hsmall2 Hsm) as [_ ->]. lra.
  - rewrite Hr, <- Hr1. ring.
Qed.

End TempoLoops.

Section ChainProduct.

Import Transcode.

Lemma chain_product_app (l1 : list string) : forall l2 p1 p2,
  chain_product l1 = Some p1 -> chain_product l2 = Some p2 ->
  exists p, chain_product (l1 ++ l2) = Some p /\ p == p1 * p2.
Proof.
  induction l1 as [|st l1 IH]; intros l2 p1 p2 H1 H2.
  - injection H1 as <-. exists p2. split; [assumption|ring].
  - cbn [chain_product app] in *.
    destruct (stage_factor st) as [f|]; [|discriminate].
    destruct (chain_product l1) as [q|] eqn:Hq; [|discriminate].
    injection H1 as <-.
    destruct (IH l2 q p2 eq_refl H2) as (p & -> & Hp).
    eexists. split; [reflexivity|]. rewrite Hp. ring.
Qed.

Lemma stage_factor_two :
  exists f, stage_factor "atempo=2.0" = Some f /\ f == 2.
Proof. eexists. split; [vm_compute; reflexivity|reflexivity]. Qed.

Lemma stage_factor_half :
  exists f, stage_factor "atempo=0.5" = Some f /\ f == 1 # 2.
Proof. eexists. split; [vm_compute; reflexivity|reflexivity]. Qed.

Lemma chain_product_twos (k : nat) :
  exists p, chain_product (repeat "atempo=2.0"%string k) = Some p /\ p == pow2 k.
Proof.
  destruct stage_factor_two as (f & Hf & Hf2).
  induction k as [|k (p & Hp & Heq)].
  - exists 1. split; reflexivity.
  - cbn [repeat chain_product]. rewrite Hp, Hf.
    eexists. split; [reflexivity|]. rewrite pow2_S, Heq, Hf2. ring.
Qed.

Lemma chain_product_halves (k : nat) :
  exists p, chain_product (repeat "atempo=0.5"%string k) = Some p
            /\ p * pow2 k == 1 /\ 0 < p.
Proof.
  destruct stage_factor_half as (f & Hf & Hf2).
  induction k as [|k (p & Hp & Heq & Hpos)].
  - exists 1. repeat apply conj; reflexivity.
  - cbn [repeat chain_product]. rewrite Hp, Hf.
    eexists. split; [reflexivity|]. split.
    + rewrite pow2_S, Hf2.
      transitivity ((1 # 2) * 2 * (p * pow2 k)); [ring|].
      rewrite Heq. reflexivity.
    + rewrite Hf2. apply Qmult_lt_0_compat; [reflexivity|assumption].
Qed.

Lemma in_tempo_range_repeat (st : string) (k : nat) :
  in_tempo_range st -> Forall in_tempo_range (repeat st k).
Proof.
  intro H. induction k; cbn; constructor; assumption.
Qed.

Lemma two_in_tempo_range : in_tempo_range "atempo=2.0".
Proof.
  eexists. split; [reflexivity|]. split; vm_compute; discriminate.
Qed.

Lemma half_in_tempo_range : in_tempo_range "atempo=0.5".
Proof.
  eexists. split; [reflexivity|]. split; vm_compute; discriminate.
Qed.

(** The last stage prints the leftover with four decimals: the printed
    factor is within 0.00005 of it and still within [0.5, 2.0]. *)
Lemma leftover_stage (r : Q) :
  0.5 <= r -> r <= 2.0 ->
  exists v, stage_factor ("atempo=" ++ format_f 4 r) = Some v
            /\ 0.5 <= v /\ v <= 2.0 /\ Qabs (v - r) <= 1 # 20000.
Proof.
  intros Hlo Hhi.
  destruct (parse_decimal_format_f 4 r ltac:(lia) ltac:(lra)) as (v & Hv & Heq).
  exists v. split; [exact Hv|].
  unfold format_f_value in Heq.
  assert (Hsign : Qlt_bool r 0 = false) by (apply Qlt_bool_false_iff; lra).
  rewrite Hsign in Heq. rewrite Qabs_nonneg_eq in Heq by lra.
  change (pow10 4) with 10000%Z in Heq. cbn [Z.to_pos] in Heq.
  set (m := round_half_even (r * inject_Z 10000)) in *.
  assert (Hm_lo : (5000 <= m)%Z).
  { apply round_half_even_ge.
    change (inject_Z 5000) with 5000. change (inject_Z 10000) with 10000. lra. }
  assert (Hm_hi : (m <= 20000)%Z).
  { apply round_half_even_le.
    change (inject_Z 20000) with 20000. change (inject_Z 10000) with 10000. lra. }
  pose proof (round_half_even_near (r * inject_Z 10000)) as Hnear.
  fold m in Hnear. apply Qabs_Qle_condition in Hnear.
  assert (Hmq : m # 10000 == inject_Z m / 10000).
  { unfold Qeq, Qdiv, Qmult, Qinv, inject_Z. cbn. lia. }
  rewrite Hmq in Heq.
  assert (Hm_lo' : 5000 <= inject_Z m)
    by (change 5000 with (inject_Z 5000); now rewrite <- Zle_Qle).
  assert (Hm_hi' : inject_Z m <= 20000)
    by (change 20000 with (inject_Z 20000); now rewrite <- Zle_Qle).
  change (inject_Z 10000) with 10000 in Hnear.
  assert (Hv10 : inject_Z m == v * 10000) by (rewrite Heq; field).
  repeat apply conj; try lra.
  apply Qabs_Qle_condition. split; lra.
Qed.

End ChainProduct.

Section TempoChain.

Import Transcode.

(** C1: for every factor [a > 0] the emitted stages all lie in [0.5, 2.0]
    and their product is [a] up to a relative error of 1e-4, the last stage
    being printed with four decimals. *)
Theorem atempo_chain_product (a : Q) :
  0 < a -> tempo_chain_within (a * (1 # 10000)) a.
Proof.
  intro Ha.
  destruct (tempo_loops_run a Ha) as (h & d & r & Hrun & Hlo & Hhi & Hrel).
  destruct (chain_product_twos h) as (p2 & Hp2 & Hp2v).
  destruct (chain_product_halves d) as (ph & Hph & Hphv & Hphpos).
  destruct (chain_product_app _ _ _ _ Hp2 Hph) as (pl & Hpl & Hplv).
  assert (Hrange : Forall in_tempo_range
            (repeat "atempo=2.0"%string h ++ repeat "atempo=0.5"%string d)).
  { apply Forall_app. split; apply in_tempo_range_repeat;
      [apply two_in_tempo_range|apply half_in_tempo_range]. }
  pose proof (pow2_pos h) as Hh. pose proof (pow2_pos d) as Hd.
  assert (Hc : a == r * (p2 * ph)).
  { rewrite Hp2v.
    transitivity (a * pow2 d * ph); [|rewrite <- Hrel; ring].
    transitivity (a * (ph * pow2 d)); [rewrite Hphv; ring|ring]. }
  assert (Hcpos : 0 < p2 * ph).
  { apply Qmult_lt_0_compat; [rewrite Hp2v|]; assumption. }
  unfold tempo_chain_within.
  destruct (Qeq_bool r 1.0) eqn:Hone.
  - apply Qeq_bool_iff in Hone.
    exists (repeat "atempo=2.0"%string h ++ repeat "atempo=0.5"%string d), pl.
    repeat apply conj; try assumption.
    + intros fuel Hfuel. unfold atempo_chain. now rewrite (Hrun fuel Hfuel), Hone.
    + apply Qabs_Qle_condition. rewrite Hplv, Hc, Hone. split; nra.
  - destruct (leftover_stage r Hlo Hhi) as (v & Hv & Hvlo & Hvhi & Hvnear).
    assert (Hlast : chain_product [("atempo=" ++ format_f 4 r)%string] = Some (v * 1))
      by (cbn [chain_product]; now rewrite Hv).
    destruct (chain_product_app _ _ _ _ Hpl Hlast) as (p & Hp & Hpv).
    exists ((repeat "atempo=2.0"%string h ++ repeat "atempo=0.5"%string d)
            ++ [("atempo=" ++ format_f 4 r)%string]), p.
    repeat apply conj; try assumption.
    + intros fuel Hfuel. unfold atempo_chain. now rewrite (Hrun fuel Hfuel), Hone.
    + apply Forall_app. split; [assumption|].
      constructor; [|constructor]. exists v. auto.
    + apply Qabs_Qle_condition in Hvnear.
      apply Qabs_Qle_condition. rewrite Hpv, Hplv, Hc.
      set (c := p2 * ph) in *. split; nra.
Qed.

Lemma atempo_chain_product_witness :
  tempo_chain_within (9.00001 * (1 # 10000)) 9.00001.
Proof.
  apply (atempo_chain_product 9.00001). reflexivity.
Defined.

(** C1, with the tolerance 1e-6: the factor 32769/32768 (an audio of
    32.0009765625 s for a desired 32 s) yields the single stage
    [atempo=1.0000], whose product 1 is off by more than 3e-5. *)
Lemma atempo_chain_drift :
  atempo_chain (loop_fuel (32769 # 32768)) (32769 # 32768)
  = Some ["atempo=1.0000"%string]
  /\ ~ tempo_chain_within (1 # 1000000) (32769 # 32768).
Proof.
  split; [vm_compute; reflexivity|].
  intros (stages & product & Hrun & _ & Hprod & Hnear).
  specialize (Hrun _ (Nat.le_refl _)).
  vm_compute in Hrun. injection Hrun as <-.
  vm_compute in Hprod. injection Hprod as <-.
  vm_compute in Hnear. apply Hnear. reflexivity.
Qed.

(** C9: on every factor [a > 0] both loops stop after finitely many
    iterations, and the factor left over lies in [0.5, 2.0]. *)
Theorem tempo_loops_terminate (a : Q) :
  0 < a ->
  exists (halvings doublings : nat) (leftover : Q),
    (forall fuel, (loop_fuel a <= fuel)%nat ->
       tempo_loops fuel a
       = Some (repeat "atempo=2.0"%string halvings
               ++ repeat "atempo=0.5"%string doublings, leftover))
    /\ 0.5 <= leftover /\ leftover <= 2.0.
Proof.
  intro Ha.
  destruct (tempo_loops_run a Ha) as (h & d & r & Hrun & Hlo & Hhi & _).
  exists h, d, r. auto.
Qed.

Lemma tempo_loops_terminate_witness :
  exists (halvings doublings : nat) (leftover : Q),
    (forall fuel, (loop_fuel 0.1 <= fuel)%nat ->
       tempo_loops fuel 0.1
       = Some (repeat "atempo=2.0"%string halvings
               ++ repeat "atempo=0.5"%string doublings, leftover))
    /\ 0.5 <= leftover /\ leftover <= 2.0.
Proof.
  apply (tempo_loops_terminate 0.1). reflexivity.
Defined.



End TempoChain.

(** ** Division of floats *)

Section FloatDivision.

Import Float64.

Lemma exp2_pos (e : Z) : 0 < exp2 e.
Proof. apply Qpower_0_lt. reflexivity. Qed.

Lemma exp2_add (a b : Z) : exp2 (a + b) == exp2 a * exp2 b.
Proof. apply Qpower_plus. discriminate. Qed.

Lemma exp2_nat (e : Z) : (0 <= e)%Z -> exp2 e == inject_Z (2 ^ e).
Proof. intro H. unfold exp2. now rewrite Zpower_Qpower. Qed.

(** The exponent found is not above the number. *)
Lemma ilog2_le (q : Q) : ~ q == 0 -> exp2 (ilog2 q) <= Qabs q.
Proof.
  intro Hq. unfold ilog2.
  set (n := Z.abs (Qnum q)). set (d := Zpos (Qden q)).
  destruct (Qle_bool (exp2 (Z.log2 n - Z.log2 d)) (Qabs q)) eqn:E;
    [now apply Qle_bool_iff|].
  assert (Hn : (0 < n)%Z).
  { unfold n. destruct q as [[|p|p] dq]; cbn; try lia.
    exfalso. apply Hq. reflexivity. }
  assert (Hd : (0 < d)%Z) by (unfold d; lia).
  destruct (Z.log2_spec n Hn) as [Hn1 _].
  destruct (Z.log2_spec d Hd) as [_ Hd2].
  pose proof (Z.log2_nonneg n) as Hln. pose proof (Z.log2_nonneg d) as Hld.
  assert (Hsplit : exp2 (Z.log2 n - Z.log2 d - 1) * exp2 (Z.log2 d + 1)
                   == exp2 (Z.log2 n)).
  { rewrite <- exp2_add.
    replace (Z.log2 n - Z.log2 d - 1 + (Z.log2 d + 1))%Z with (Z.log2 n) by lia.
    reflexivity. }
  rewrite (exp2_nat (Z.log2 n)) in Hsplit by assumption.
  rewrite (exp2_nat (Z.log2 d + 1)) in Hsplit by lia.
  assert (Habs : Qabs q == inject_Z n / inject_Z d).
  { destruct q as [nq dq]. unfold n, d, Qabs. cbn [Qnum Qden].
    unfold Qeq, Qdiv, Qmult, Qinv, inject_Z. cbn [Qnum Qden].
    destruct (Z.abs nq); cbn; lia. }
  rewrite Habs. apply Qle_shift_div_l; [unfold Qlt; cbn; lia|].
  set (x := exp2 (Z.log2 n - Z.log2 d - 1)) in *.
  assert (Hx : 0 < x) by apply exp2_pos.
  assert (Hdq : inject_Z d <= inject_Z (2 ^ (Z.log2 d + 1)))
    by (rewrite <- Zle_Qle;
        replace (Z.succ (Z.log2 d)) with (Z.log2 d + 1)%Z in Hd2 by lia; lia).
  assert (Hnq : inject_Z (2 ^ Z.log2 n) <= inject_Z n)
    by (rewrite <- Zle_Qle; lia).
  nra.
Qed.

(** The spacing of the doubles around a number that is not subnormal is at
    most [2 ** -52] times the number. *)
Lemma ulp_le (q : Q) :
  exp2 (-1022) <= Qabs q -> exp2 (ulp_exponent q) <= Qabs q * exp2 (-52).
Proof.
  intro Hq. pose proof (exp2_pos (-1022)) as Hpos.
  pose proof (exp2_pos (-52)) as H52.
  assert (Hnz : ~ q == 0).
  { intro H. rewrite H in Hq. change (Qabs 0) with 0 in Hq. lra. }
  unfold ulp_exponent.
  destruct (Z.max_spec (ilog2 q - 52) (-1074)) as [[_ ->]|[_ ->]].
  - change (-1074)%Z with (-1022 + -52)%Z. rewrite exp2_add. nra.
  - replace (ilog2 q - 52)%Z with (ilog2 q + -52)%Z by lia.
    rewrite exp2_add. pose proof (ilog2_le q Hnz). nra.
Qed.

Lemma nearest_value (q : Q) :
  nearest q
  == inject_Z (round_half_even (q / exp2 (ulp_exponent q)))
     * exp2 (ulp_exponent q).
Proof. unfold nearest. apply Qred_correct. Qed.

(** Rounding moves a number by at most half the spacing. *)
Lemma nearest_half_ulp (q : Q) :
  Qabs (nearest q - q) <= exp2 (ulp_exponent q) * (1 # 2).
Proof.
  rewrite nearest_value.
  set (E := exp2 (ulp_exponent q)).
  assert (HE : 0 < E) by apply exp2_pos.
  pose proof (round_half_even_near (q / E)) as Hnear.
  set (x := inject_Z (round_half_even (q / E))) in *.
  assert (Hy : q == q / E * E) by (field; lra).
  set (y := q / E) in *.
  apply Qabs_Qle_condition in Hnear. apply Qabs_Qle_condition.
  destruct Hnear as [Hlo Hhi]. split; rewrite Hy; nra.
Qed.

(** The relative error of a rounding away from the subnormal numbers. *)
Lemma nearest_error (q : Q) :
  exp2 (-1022) <= Qabs q -> Qabs (nearest q - q) <= unit_roundoff * Qabs q.
Proof.
  intro Hq. pose proof (nearest_half_ulp q) as Hhalf.
  pose proof (ulp_le q Hq) as Hulp.
  assert (Hu : exp2 (-52) * (1 # 2) == unit_roundoff) by reflexivity.
  pose proof (Qabs_nonneg q). nra.
Qed.


Lemma Qeq_bool_nonzero (x : Q) : ~ x == 0 -> Qeq_bool x 0 = false.
Proof.
  intro H. destruct (Qeq_bool x 0) eqn:E; [|reflexivity].
  apply Qeq_bool_iff in E. contradiction.
Qed.

(** Away from overflow and from the subnormal numbers a positive real
    rounds to a finite double, with a relative error of at most
    [unit_roundoff]. *)
Lemma of_real_positive (q : Q) :
  exp2 (-1022) <= q -> q <= exp2 1022 ->
  of_real q = Fin (nearest q)
  /\ (1 - unit_roundoff) * q <= nearest q
  /\ nearest q <= (1 + unit_roundoff) * q.
Proof.
  intros Hlo Hhi. pose proof (exp2_pos (-1022)) as Hpos.
  assert (Hq : 0 < q) by lra.
  assert (Habs : Qabs q == q) by (apply Qabs_pos; lra).
  pose proof (nearest_error q) as Herr. rewrite Habs in Herr.
  specialize (Herr Hlo). apply Qabs_Qle_condition in Herr.
  destruct Herr as [H1 H2].
  assert (Hnum : (1 + unit_roundoff) * exp2 1022 <= largest)
    by (apply Qle_bool_iff; vm_compute; reflexivity).
  set (B := exp2 1022) in *. set (b := exp2 (-1022)) in *.
  unfold unit_roundoff in *.
  set (r := nearest q) in *.
  assert (Hr1 : (1 - (1 # 9007199254740992)) * q <= r) by lra.
  assert (Hr2 : r <= (1 + (1 # 9007199254740992)) * q) by lra.
  split; [|split; assumption].
  unfold of_real. fold r.
  assert (Hover : Qlt_bool largest (Qabs r) = false).
  { apply Qlt_bool_false_iff. rewrite Qabs_pos by lra. lra. }
  assert (Hsign : Qlt_bool q 0 = false) by (apply Qlt_bool_false_iff; lra).
  now rewrite Hover, Hsign, andb_false_r.
Qed.

Lemma round_half_even_integer (y : Q) (z : Z) :
  y == inject_Z z -> round_half_even y = z.
Proof.
  intro H. apply Z.le_antisymm.
  - apply round_half_even_le. rewrite H. apply Qle_refl.
  - apply round_half_even_ge. rewrite H. apply Qle_refl.
Qed.

(** A quotient equal to 1 rounds to 1.0. *)
Lemma nearest_one (q : Q) : q == 1 -> nearest q = 1.
Proof.
  intro Hq.
  assert (Hlog : ilog2 q = 0%Z).
  { unfold ilog2.
    assert (Hn : Qnum q = Zpos (Qden q)).
    { unfold Qeq in Hq. cbn in Hq. lia. }
    rewrite Hn. cbn [Z.abs]. rewrite Z.sub_diag.
    assert (Hle : Qle_bool (exp2 0) (Qabs q) = true).
    { apply Qle_bool_iff. rewrite Hq. apply Qle_refl. }
    now rewrite Hle. }
  unfold nearest, ulp_exponent. rewrite Hlog. cbn [Z.sub Z.max Z.opp Z.compare Z.add Pos.compare Pos.compare_cont].
  change (Z.max (0 - 52) (-1074)) with (-52)%Z.
  rewrite (round_half_even_integer _ (2 ^ 52)).
  - apply (Qred_complete _ 1). reflexivity.
  - rewrite Hq. reflexivity.
Qed.

Lemma of_real_one (q : Q) : q == 1 -> of_real q = Fin 1.
Proof.
  intro Hq. unfold of_real. rewrite (nearest_one q Hq).
  assert (Hsign : Qlt_bool q 0 = false)
    by (apply Qlt_bool_false_iff; rewrite Hq; discriminate).
  now rewrite Hsign.
Qed.




End FloatDivision.

(** ** The factor block of the transcoder *)

Section FactorBlock.

Import Transcode.

Variable probe : result VideoMetadata.
Variable original_has_audio mute : bool.
Variables original_duration desired_duration : Q.
Variable sharp_filter : option string.

Local Abbreviation body :=
  (factor_body probe original_has_audio mute original_duration
     desired_duration sharp_filter).
Local Abbreviation block :=
  (factor_block probe original_has_audio mute original_duration
     desired_duration sharp_filter).
Local Abbreviation fallback := (fallback_args original_has_audio mute sharp_filter).

Lemma fallback_invalid_duration_args (c : cmd) :
  fallback_invalid_duration original_has_audio mute sharp_filter c
  = (c ++ fallback, Done tt).
Proof.
  unfold fallback_invalid_duration, fallback_args, extend.
  destruct (video_has_audio original_has_audio mute), (truthy sharp_filter);
    reflexivity.
Qed.

Lemma fallback_on_exception_args (e : exn) (c : cmd) :
  fallback_on_exception original_has_audio mute sharp_filter e c
  = (c ++ fallback, Done tt).
Proof.
  unfold fallback_on_exception, fallback_args, extend.
  destruct (video_has_audio original_has_audio mute), (truthy sharp_filter);
    reflexivity.
Qed.

(** Nothing is appended to [cmd] before an exception leaves the body. *)
Lemma factor_body_raises_early (c c' : cmd) (e : exn) :
  body c = (c', Raised e) -> c' = c.
Proof.
  unfold factor_body, bind, lift, ends, extend.
  destruct probe as [meta|e0]; [|now intros [= <- _]].
  destruct (Qlt_bool 0 (duration meta) && Qlt_bool 0 original_duration).
  - destruct (video_factors desired_duration (duration meta)) as [[vs vp]|e1];
      [|now intros [= <- _]].
    destruct (video_has_audio original_has_audio mute); [|discriminate].
    destruct (truediv (Float64.Fin original_duration)
                (Float64.Fin desired_duration)) as [a|e2];
      [|now intros [= <- _]].
    destruct (atempo_filters_of a); discriminate.
  - rewrite fallback_invalid_duration_args. discriminate.
Qed.

Lemma factor_body_invalid_duration (meta : VideoMetadata) (c : cmd) :
  probe = Ok meta ->
  ~ (0 < duration meta /\ 0 < original_duration) ->
  body c = (c ++ fallback, Done tt).
Proof.
  intros Hprobe Hinvalid. unfold factor_body, bind, lift. rewrite Hprobe.
  destruct (Qlt_bool 0 (duration meta)) eqn:E1;
    [destruct (Qlt_bool 0 original_duration) eqn:E2|].
  - exfalso. apply Hinvalid. split; now apply Qlt_bool_iff.
  - apply fallback_invalid_duration_args.
  - apply fallback_invalid_duration_args.
Qed.

End FactorBlock.

(** X26: the [try] block by itself degrades and does not raise: when a
    duration is not positive, or when the body of the [try] raises, the
    block appends the stream-copy fallback and ends normally; no exception
    leaves the block; the handler and the invalid-duration branch append the
    same arguments. *)
Theorem factor_block_degrades
    (probe : result Transcode.VideoMetadata) (original_has_audio mute : bool)
    (original_duration desired_duration : Q) (sharp_filter : option string)
    (c : Transcode.cmd) :
  let body := Transcode.factor_body probe original_has_audio mute
                original_duration desired_duration sharp_filter in
  let block := Transcode.factor_block probe original_has_audio mute
                 original_duration desired_duration sharp_filter in
  let fallback := Transcode.fallback_args original_has_audio mute sharp_filter in
  ((exists meta, probe = Ok meta
                 /\ ~ (0 < Transcode.duration meta /\ 0 < original_duration))
   \/ (exists c' e, body c = (c', Transcode.Raised e)) ->
   block c = (c ++ fallback, Transcode.Done tt))
  /\ (forall c' e, block c <> (c', Transcode.Raised e))
  /\ (forall e c0,
        Transcode.fallback_on_exception original_has_audio mute sharp_filter e c0
        = Transcode.fallback_invalid_duration original_has_audio mute sharp_filter c0).
Proof.
  cbv zeta. split; [|split].
  - intros [(meta & Hprobe & Hinvalid)|(c' & e & Hraise)];
      unfold Transcode.factor_block, Transcode.try_except.
    + now rewrite (factor_body_invalid_duration _ _ _ _ _ _ meta c Hprobe Hinvalid).
    + rewrite Hraise.
      rewrite (factor_body_raises_early _ _ _ _ _ _ _ _ _ Hraise).
      apply fallback_on_exception_args.
  - intros c' e. unfold Transcode.factor_block, Transcode.try_except.
    destruct (Transcode.factor_body _ _ _ _ _ _ c) as [c1 [[]|e1|]];
      try discriminate.
    rewrite fallback_on_exception_args. discriminate.
  - intros e c0.
    now rewrite fallback_on_exception_args, fallback_invalid_duration_args.
Qed.

Lemma factor_block_degrades_witness :
  Transcode.factor_block (Ok (probed 10.5)) true false 45 0 sample_sharpen sample_cmd
  = (sample_cmd ++ Transcode.fallback_args true false sample_sharpen,
     Transcode.Done tt)
  /\ Transcode.factor_block (Ok (probed 0)) true false 45 45 sample_sharpen sample_cmd
     = (sample_cmd ++ Transcode.fallback_args true false sample_sharpen,
        Transcode.Done tt).
Proof.
  split.
  - apply (proj1 (factor_block_degrades (Ok (probed 10.5)) true false 45 0
                    sample_sharpen sample_cmd)).
    right. exists sample_cmd, ZeroDivisionError. vm_compute. reflexivity.
  - apply (proj1 (factor_block_degrades (Ok (probed 0)) true false 45 45
                    sample_sharpen sample_cmd)).
    left. exists (probed 0). split; [reflexivity|].
    intros [H _]. vm_compute in H. discriminate H.
Defined.

(** C2, with the PTS factor equal to desired / produced: for a produced
    duration of 49 and a desired one of 10 the factor computed,
    1.0 / (49 / 10), is 0.2040816326530612, which is neither 10 / 49 nor the
    double nearest to it, 0.20408163265306123. *)
Lemma video_pts_factor_rounds_twice :
  exists speed pts,
    Transcode.video_factors 10 49 = Ok (Float64.Fin speed, Float64.Fin pts)
    /\ pts == 7352815718155911 # 36028797018963968
    /\ ~ pts == 10 / 49
    /\ ~ pts == Float64.nearest (10 / 49).
Proof.
  do 2 eexists. split; [vm_compute; reflexivity|].
  split; [reflexivity|].
  split; intro H; vm_compute in H; discriminate H.
Qed.

(** The two factors as the two divisions compute them. *)
Lemma video_factors_rounded (produced desired : Q) :
  0 < produced -> 0 < desired ->
  Float64.exp2 (-1021) <= produced / desired ->
  produced / desired <= Float64.exp2 1021 ->
  exists speed pts,
    Transcode.video_factors desired produced
    = Ok (Float64.Fin speed, Float64.Fin pts)
    /\ speed = Float64.nearest (produced / desired)
    /\ pts = Float64.nearest (1.0 / speed)
    /\ Qabs (speed - produced / desired)
       <= Float64.unit_roundoff * (produced / desired)
    /\ Qabs (pts - desired / produced)
       <= 4 * Float64.unit_roundoff * (desired / produced)
    /\ (produced == desired -> speed = 1 /\ pts = 1).
Proof.
  intros Hp Hd Hlo Hhi.
  set (a := produced / desired) in *.
  assert (Ha : a * desired == produced) by (unfold a; field; lra).
  assert (Hr : desired / produced * a == 1) by (unfold a; field; split; lra).
  set (r := desired / produced) in *.
  assert (N1 : Float64.exp2 (-1022) * 2 == Float64.exp2 (-1021)) by reflexivity.
  assert (N2 : Float64.exp2 1021 * 2 == Float64.exp2 1022) by reflexivity.
  assert (N3 : Float64.exp2 (-1022) * Float64.exp2 1022 == 1) by reflexivity.
  pose proof (exp2_pos (-1022)) as Hb. pose proof (exp2_pos 1022) as HB.
  set (b := Float64.exp2 (-1022)) in *. set (B := Float64.exp2 1022) in *.
  set (b' := Float64.exp2 (-1021)) in *. set (B' := Float64.exp2 1021) in *.
  assert (Hapos : 0 < a) by lra.
  assert (Hrpos : 0 < r) by nra.
  destruct (of_real_positive a ltac:(fold b; lra) ltac:(fold B; lra))
    as (Hs & Hs1 & Hs2).
  set (s := Float64.nearest a) in *.
  unfold Float64.unit_roundoff in *.
  assert (Hspos : 0 < s) by nra.
  assert (Ht : 1.0 / s * s == 1) by (field; lra).
  set (t := 1.0 / s) in *.
  assert (Htpos : 0 < t) by nra.
  assert (Htlo : b <= t).
  { unfold t. apply Qle_shift_div_l; [assumption|]. nra. }
  assert (Hthi : t <= B).
  { unfold t. apply Qle_shift_div_r; [assumption|]. nra. }
  destruct (of_real_positive t Htlo Hthi) as (Hpts & Hp1 & Hp2).
  unfold Float64.unit_roundoff in *.
  set (pts := Float64.nearest t) in *.
  exists s, pts.
  assert (Hrun : Transcode.video_factors desired produced
                 = Ok (Float64.Fin s, Float64.Fin pts)).
  { unfold Transcode.video_factors, Transcode.truediv, Float64.truediv.
    cbn [Float64.is_zero].
    rewrite (Qeq_bool_nonzero desired) by lra.
    rewrite (Qeq_bool_nonzero produced) by lra.
    fold a. rewrite Hs. cbn [Float64.is_zero].
    rewrite (Qeq_bool_nonzero s) by lra.
    change (Qeq_bool 1.0 0) with false. cbv iota. fold t. now rewrite Hpts. }
  split; [exact Hrun|]. split; [reflexivity|]. split; [reflexivity|].
  assert (Hts : t * ((1 - (1 # 9007199254740992)) * a) <= 1) by nra.
  assert (Hts' : 1 <= t * ((1 + (1 # 9007199254740992)) * a)) by nra.
  assert (Htr1 : (1 - (1 # 9007199254740992)) * t <= r).
  { apply (Qmult_lt_0_le_reg_r _ _ a Hapos). nra. }
  assert (Htr2 : r <= (1 + (1 # 9007199254740992)) * t).
  { apply (Qmult_lt_0_le_reg_r _ _ a Hapos). nra. }
  split; [apply Qabs_Qle_condition; split; lra|].
  split; [apply Qabs_Qle_condition; split; lra|].
  intro Heq.
  assert (Hone : a == 1).
  { unfold a. rewrite Heq. field. lra. }
  assert (Hs_one : s = 1) by (unfold s; now apply nearest_one).
  split; [exact Hs_one|].
  unfold pts, t. rewrite Hs_one. apply nearest_one. reflexivity.
Qed.


(** C2: for positive durations whose quotient is neither huge nor tiny, the
    speed factor is the double nearest to produced / desired and the PTS
    factor the double nearest to 1 / speed; the PTS factor is
    desired / produced up to a relative error of [2 ** -51]; and when the
    produced duration equals the desired one both factors are exactly 1. *)
Theorem video_pts_factor_reciprocal (produced desired : Q) :
  0 < produced -> 0 < desired ->
  Float64.exp2 (-1021) <= produced / desired ->
  produced / desired <= Float64.exp2 1021 ->
  exists speed pts,
    Transcode.video_factors desired produced
    = Ok (Float64.Fin speed, Float64.Fin pts)
    /\ speed = Float64.nearest (produced / desired)
    /\ pts = Float64.nearest (1.0 / speed)
    /\ Qabs (speed - produced / desired)
       <= Float64.unit_roundoff * (produced / desired)
    /\ Qabs (pts - desired / produced)
       <= 4 * Float64.unit_roundoff * (desired / produced)
    /\ (produced == desired -> speed = 1 /\ pts = 1).
Proof. exact (video_factors_rounded produced desired). Qed.

Lemma video_pts_factor_reciprocal_witness :
  exists speed pts,
    Transcode.video_factors 10 10.5 = Ok (Float64.Fin speed, Float64.Fin pts)
    /\ Qabs (pts - 10 / 10.5) <= 4 * Float64.unit_roundoff * (10 / 10.5).
Proof.
  assert (Hp : 0 < 10.5) by reflexivity.
  assert (Hd : 0 < 10) by reflexivity.
  assert (Hlo : Float64.exp2 (-1021) <= 10.5 / 10)
    by (apply Qle_bool_iff; vm_compute; reflexivity).
  assert (Hhi : 10.5 / 10 <= Float64.exp2 1021)
    by (apply Qle_bool_iff; vm_compute; reflexivity).
  destruct (video_pts_factor_reciprocal 10.5 10 Hp Hd Hlo Hhi)
    as (speed & pts & Hrun & _ & _ & _ & Hnear & _).
  exists speed, pts. split; [exact Hrun|exact Hnear].
Defined.

(** ** StatusPoller *)

(** C4, with success read off the state or the download descriptor alone:
    a response at 100% whose state is not yet complete is waited on even
    when it carries a download descriptor. *)
Lemma poll_step_early_download :
  Poll.poll_step status_early_download = Poll.WaitForFinal
  /\ ~ (Poll.resolves status_early_download <->
        Poll.state_complete status_early_download
        \/ Poll.carries_download status_early_download).
Proof.
  split; [reflexivity|].
  intros [_ H].
  destruct (H (or_intror eq_refl)) as [url Hurl]. discriminate Hurl.
Qed.

Lemma carries_url_download (status : Poll.dict) :
  Poll.carries_url status -> Poll.carries_download status.
Proof.
  intros (download & url & Hd & Hu). unfold Poll.carries_download, Poll.get,
    Poll.get_default. rewrite Hd.
  destruct download; [discriminate Hu|reflexivity].
Qed.

Lemma subscript_url (status : Poll.dict) (url : Poll.pyval) :
  match Poll.subscript (Poll.PDict status) "download" with
  | Ok download => Poll.subscript download "url"
  | Raise e => Raise e
  end = Ok url
  <-> exists download,
        Poll.lookup status "download" = Some (Poll.PDict download)
        /\ Poll.lookup download "url" = Some url.
Proof.
  cbn [Poll.subscript].
  destruct (Poll.lookup status "download") as [download|]; cbn [Poll.subscript].
  - destruct download as [| | | | | |entries]; cbn [Poll.subscript];
      try (split; [discriminate|intros (d & Hd & _); discriminate Hd]).
    destruct (Poll.lookup entries "url") as [u|] eqn:Hu.
    + split.
      * intros [= <-]. now exists entries.
      * intros (d & [= <-] & Hd). congruence.
    + split; [discriminate|].
      intros (d & [= <-] & Hd). congruence.
  - split; [discriminate|intros (d & Hd & _); discriminate Hd].
Qed.

(** C4: a response whose progress is at least 100 while its state is not
    [complete] is not terminal, the loop goes on to the next response; and
    a response resolves the job as successful exactly when it carries a
    download descriptor holding a URL and its state is [complete] or its
    progress is below 100.  On the completion branch without such a
    descriptor the lookup of the URL raises. *)
Theorem poll_step_resolution (status : Poll.dict) :
  (100 <= Poll.progress_val status -> ~ Poll.state_complete status ->
   Poll.poll_step status = Poll.WaitForFinal
   /\ forall rest, Poll.poll_loop (status :: rest) = Poll.poll_loop rest)
  /\ (Poll.resolves status <->
      Poll.carries_url status
      /\ (Poll.state_complete status \/ Poll.progress_val status < 100))
  /\ (Poll.state_complete status -> ~ Poll.carries_url status ->
      exists e, Poll.poll_step status = Poll.Finish (Raise e)).
Proof.
  split; [|split].
  - intros Hp Hn. unfold Poll.state_complete in Hn.
    assert (Hstep : Poll.poll_step status = Poll.WaitForFinal).
    { unfold Poll.poll_step. apply Qle_bool_iff in Hp. rewrite Hp.
      destruct (String.eqb_spec (Poll.state_lower status) "complete");
        [contradiction|reflexivity]. }
    split; [exact Hstep|]. intro rest. cbn [Poll.poll_loop]. now rewrite Hstep.
  - unfold Poll.resolves, Poll.state_complete, Poll.poll_step. split.
    + intros [url Hurl].
      destruct (String.eqb_spec (Poll.state_lower status) "complete") as [Hc|Hc];
        destruct (Qle_bool 100 (Poll.progress_val status)) eqn:Hp;
        cbn [negb andb orb] in Hurl; try discriminate Hurl.
      * injection Hurl as Hurl. apply subscript_url in Hurl.
        destruct Hurl as (d & Hd & Hu). split; [now exists d, url|now left].
      * injection Hurl as Hurl. apply subscript_url in Hurl.
        destruct Hurl as (d & Hd & Hu). split; [now exists d, url|now left].
      * apply Qle_bool_false_iff in Hp.
        destruct (Poll.truth (Poll.get status "download")).
        -- injection Hurl as Hurl. apply subscript_url in Hurl.
           destruct Hurl as (d & Hd & Hu). split; [now exists d, url|now right].
        -- destruct (_ || _) in Hurl; discriminate Hurl.
    + intros [Hcarries Hwhen].
      pose proof (carries_url_download _ Hcarries) as Htruth.
      unfold Poll.carries_download in Htruth.
      destruct Hcarries as (d & url & Hd & Hu). exists url.
      assert (Hsub : match Poll.subscript (Poll.PDict status) "download" with
                     | Ok download => Poll.subscript download "url"
                     | Raise e => Raise e
                     end = Ok url)
        by (apply subscript_url; now exists d).
      rewrite Hsub, Htruth.
      destruct (String.eqb_spec (Poll.state_lower status) "complete") as [Hc|Hc];
        cbn [negb andb orb].
      * now rewrite andb_false_r.
      * destruct Hwhen as [Hwhen|Hwhen]; [contradiction|].
        apply Qle_bool_false_iff in Hwhen. now rewrite Hwhen.
  - unfold Poll.state_complete, Poll.poll_step. intros Hc Hnot.
    rewrite Hc. cbn [String.eqb negb andb orb]. rewrite andb_false_r.
    change (("complete" =? "complete")%string) with true. cbn [orb].
    destruct (match Poll.subscript (Poll.PDict status) "download" with
              | Ok download => Poll.subscript download "url"
              | Raise e => Raise e
              end) as [url|e] eqn:Hsub; [|now exists e].
    exfalso. apply Hnot. apply subscript_url in Hsub.
    destruct Hsub as (d & Hd & Hu). now exists d, url.
Qed.

Lemma poll_step_resolution_witness :
  Poll.poll_step status_finalizing = Poll.WaitForFinal
  /\ forall rest,
       Poll.poll_loop (status_finalizing :: rest) = Poll.poll_loop rest.
Proof.
  apply (proj1 (poll_step_resolution status_finalizing)).
  - vm_compute. discriminate.
  - vm_compute. discriminate.
Defined.

(** ** The key file *)

Section KeyFile.

Import Keys.

Lemma prefix_app (key line : string) :
  String.prefix key line = true <-> exists rest, line = (key ++ rest)%string.
Proof.
  revert line. induction key as [|a key IH]; intro line.
  - cbn. split; [intros _; now exists line|].
    intros _. now destruct line.
  - destruct line as [|b line]; cbn.
    + split; [discriminate|]. intros [rest H]. discriminate H.
    + destruct (ascii_dec a b) as [->|Hne].
      * rewrite IH. split; intros [rest H]; exists rest; [now rewrite H|].
        now injection H.
      * split; [discriminate|]. intros [rest H]. injection H as H1 _.
        congruence.
Qed.

Lemma contains_cons (key : string) (c : ascii) (line : string) :
  contains key (String c line)
  = String.prefix key (String c line) || contains key line.
Proof. reflexivity. Qed.

(** [contains] decides the substring relation. *)
Lemma contains_is_substring (key line : string) :
  contains key line = true <-> is_substring key line.
Proof.
  unfold is_substring. induction line as [|c line IH].
  - cbn [contains]. rewrite orb_false_r, prefix_app. split.
    + intros [rest H]. now exists EmptyString, rest.
    + intros (before & after & H). destruct before; [|discriminate H].
      now exists after.
  - rewrite contains_cons, orb_true_iff, prefix_app, IH. split.
    + intros [[rest H]|(before & after & H)].
      * now exists EmptyString, rest.
      * exists (String c before), after. cbn. now rewrite H.
    + intros (before & after & H). destruct before as [|b before].
      * left. now exists after.
      * right. injection H as _ H. now exists before, after.
Qed.

Lemma append_assoc (s1 s2 s3 : string) :
  ((s1 ++ s2) ++ s3 = s1 ++ (s2 ++ s3))%string.
Proof. induction s1 as [|c s1 IH]; cbn; [reflexivity|now rewrite IH]. Qed.

Lemma append_empty_r (s : string) : (s ++ EmptyString)%string = s.
Proof. induction s as [|c s IH]; cbn; [reflexivity|now rewrite IH]. Qed.

Lemma write_kept_filter (key : string) (lines : list string) : forall written,
  write_kept key lines written
  = (written ++ String.concat EmptyString (filter (kept key) lines))%string.
Proof.
  induction lines as [|line rest IH]; intro written; cbn [write_kept filter].
  - cbn. now rewrite append_empty_r.
  - unfold kept at 1. destruct (negb (contains key line)).
    + rewrite IH, append_assoc. f_equal.
      cbn [String.concat]. destruct (filter (kept key) rest); cbn.
      * now rewrite append_empty_r.
      * reflexivity.
    + apply IH.
Qed.

Lemma full_line_cons (c : ascii) (line : string) :
  Ascii.eqb c newline = false -> full_line line -> full_line (String c line).
Proof.
  intros Hc (body & -> & Hbody). exists (String c body).
  split; [reflexivity|]. cbn. now rewrite Hc.
Qed.

Lemma last_line_cons (c : ascii) (line : string) :
  Ascii.eqb c newline = false -> last_line line -> last_line (String c line).
Proof.
  intros Hc [Hfull|[_ Hno]].
  - left. now apply full_line_cons.
  - right. split; [discriminate|]. cbn. now rewrite Hc.
Qed.

Lemma full_line_newline : full_line (String newline EmptyString).
Proof. now exists EmptyString. Qed.

Lemma split_lines_ok (content : string) : lines_ok (split_lines content).
Proof.
  induction content as [|c rest IH]; [exact I|].
  cbn [split_lines]. destruct (Ascii.eqb c newline) eqn:Hc.
  - apply Ascii.eqb_eq in Hc. subst c. cbn [lines_ok].
    destruct (split_lines rest).
    + left. apply full_line_newline.
    + split; [apply full_line_newline|assumption].
  - destruct (split_lines rest) as [|line lines].
    + right. split; [discriminate|]. cbn. now rewrite Hc.
    + cbn [lines_ok] in *. destruct lines.
      * now apply last_line_cons.
      * destruct IH. split; [now apply full_line_cons|assumption].
Qed.

Lemma lines_ok_filter (p : string -> bool) (lines : list string) :
  lines_ok lines -> lines_ok (filter p lines).
Proof.
  induction lines as [|line rest IH]; intro Hok; [exact I|].
  assert (Hrest : lines_ok rest /\ last_line line /\ (rest <> [] -> full_line line)).
  { cbn [lines_ok] in Hok. destruct rest.
    - split; [exact I|]. split; [assumption|congruence].
    - destruct Hok. split; [assumption|]. split; [now left|auto]. }
  destruct Hrest as (Hok' & Hlast & Hfull).
  cbn [filter]. destruct (p line); [|now apply IH].
  cbn [lines_ok]. destruct (filter p rest) eqn:E; [assumption|].
  split; [|now apply IH].
  apply Hfull. intros ->. discriminate E.
Qed.

Lemma split_lines_full (body rest : string) :
  no_newline body = true ->
  split_lines (body ++ String newline rest)
  = (body ++ String newline EmptyString)%string :: split_lines rest.
Proof.
  induction body as [|c body IH]; intro Hno; cbn [append split_lines].
  - now rewrite Ascii.eqb_refl.
  - cbn [no_newline] in Hno. apply andb_true_iff in Hno as [Hc Hno].
    apply negb_true_iff in Hc. rewrite Hc, (IH Hno). reflexivity.
Qed.

Lemma split_lines_partial (line : string) :
  line <> EmptyString -> no_newline line = true -> split_lines line = [line].
Proof.
  induction line as [|c line IH]; intros Hne Hno; [congruence|].
  cbn [no_newline] in Hno. apply andb_true_iff in Hno as [Hc Hno].
  apply negb_true_iff in Hc. cbn [split_lines]. rewrite Hc.
  destruct line as [|c' line']; [reflexivity|].
  rewrite IH by (assumption || discriminate). reflexivity.
Qed.

Lemma split_lines_last (line : string) : last_line line -> split_lines line = [line].
Proof.
  intros [(body & -> & Hno)|[Hne Hno]].
  - now rewrite split_lines_full.
  - now apply split_lines_partial.
Qed.

(** Reading back lines of that shape written one after the other. *)
Lemma split_lines_concat (lines : list string) :
  lines_ok lines -> split_lines (String.concat EmptyString lines) = lines.
Proof.
  induction lines as [|line rest IH]; intro Hok; [reflexivity|].
  cbn [lines_ok] in Hok. destruct rest as [|line' rest'].
  - cbn [String.concat]. now apply split_lines_last.
  - destruct Hok as [(body & -> & Hno) Hok].
    change (String.concat EmptyString
              ((body ++ String newline EmptyString)%string :: line' :: rest'))
      with ((body ++ String newline EmptyString)
            ++ String.concat EmptyString (line' :: rest'))%string.
    rewrite append_assoc. cbn [append].
    rewrite split_lines_full by assumption. now rewrite IH.
Qed.

Lemma split_lines_joined (text : string) :
  String.concat EmptyString (split_lines text) = text.
Proof.
  induction text as [|c rest IH]; [reflexivity|].
  cbn [split_lines]. destruct (split_lines rest) as [|line lines].
  - cbn [String.concat] in IH. subst rest.
    destruct (Ascii.eqb c newline); reflexivity.
  - destruct (Ascii.eqb c newline).
    + change (String.concat EmptyString (String c EmptyString :: line :: lines))
        with (String c (String.concat EmptyString (line :: lines))).
      now rewrite IH.
    + rewrite <- IH. cbn [String.concat]. destruct lines; reflexivity.
Qed.

Lemma no_carriage_return_app (s t : string) :
  no_carriage_return (s ++ t) = no_carriage_return s && no_carriage_return t.
Proof.
  induction s as [|c s IH]; [reflexivity|].
  cbn [append no_carriage_return]. rewrite IH. now rewrite andb_assoc.
Qed.

Lemma translate_newlines_clean (content : string) : forall after_cr,
  no_carriage_return (translate_newlines after_cr content) = true.
Proof.
  induction content as [|c rest IH]; intro after_cr; [reflexivity|].
  cbn [translate_newlines].
  destruct (Ascii.eqb c carriage_return) eqn:Hc.
  - cbn [no_carriage_return]. now rewrite IH.
  - destruct (Ascii.eqb c newline && after_cr); [apply IH|].
    cbn [no_carriage_return]. now rewrite Hc, IH.
Qed.

(** A text without [\r] is read as it is. *)
Lemma universal_newlines_plain (text : string) :
  no_carriage_return text = true -> universal_newlines text = text.
Proof.
  unfold universal_newlines. induction text as [|c rest IH]; [reflexivity|].
  cbn [no_carriage_return translate_newlines]. intro H.
  apply andb_true_iff in H as [Hc Hrest]. apply negb_true_iff in Hc.
  rewrite Hc, andb_false_r. now rewrite IH.
Qed.

Lemma no_carriage_return_concat (lines : list string) :
  no_carriage_return (String.concat EmptyString lines)
  = forallb no_carriage_return lines.
Proof.
  induction lines as [|line rest IH]; [reflexivity|].
  cbn [forallb]. rewrite <- IH. destruct rest as [|line' rest'].
  - cbn. now rewrite andb_true_r.
  - change (String.concat EmptyString (line :: line' :: rest'))
      with (line ++ String.concat EmptyString (line' :: rest'))%string.
    apply no_carriage_return_app.
Qed.

(** No line of a file holds a [\r]. *)
Lemma readlines_clean (content : string) :
  forallb no_carriage_return (readlines content) = true.
Proof.
  unfold readlines. rewrite <- no_carriage_return_concat, split_lines_joined.
  apply translate_newlines_clean.
Qed.

Lemma readlines_ok (content : string) : lines_ok (readlines content).
Proof. apply split_lines_ok. Qed.

(** The lines of a file are its text, as it is read, cut after each line
    end. *)
Lemma readlines_joined (content : string) :
  String.concat EmptyString (readlines content) = universal_newlines content.
Proof. apply split_lines_joined. Qed.

Lemma forallb_filter {A} (p q : A -> bool) (l : list A) :
  forallb p l = true -> forallb p (filter q l) = true.
Proof.
  rewrite !forallb_forall. intros H x Hx. apply filter_In in Hx as [Hx _].
  now apply H.
Qed.

(** The rewritten file read back: the lines that were kept. *)
Lemma rewritten_lines (key content : string) :
  readlines (write_kept key (readlines content) EmptyString)
  = filter (kept key) (readlines content).
Proof.
  rewrite write_kept_filter. cbn [append]. unfold readlines at 1.
  rewrite universal_newlines_plain.
  - apply split_lines_concat, lines_ok_filter, readlines_ok.
  - rewrite no_carriage_return_concat. apply forallb_filter, readlines_clean.
Qed.

End KeyFile.

(** C10, with the lines taken as they stand in the file: in a file with
    [\r\n] line ends the line of [KEY2] does not hold [KEY1], and yet the
    rewritten file does not hold that line: it comes back with a bare
    [\n]. *)
Lemma remove_key_changes_line_ends :
  Keys._remove_key_from_file "KEY1" (Some crlf_keys_file)
  = Some ("KEY2" ++ nl)%string
  /\ Keys.is_substring ("KEY2" ++ crlf) crlf_keys_file
  /\ ~ Keys.is_substring "KEY1" ("KEY2" ++ crlf)
  /\ ~ Keys.is_substring ("KEY2" ++ crlf) ("KEY2" ++ nl).
Proof.
  split; [vm_compute; reflexivity|]. split; [|split].
  - apply contains_is_substring. vm_compute. reflexivity.
  - intro H. apply contains_is_substring in H. vm_compute in H. discriminate H.
  - intro H. apply contains_is_substring in H. vm_compute in H. discriminate H.
Qed.

(** C10: removing a key rewrites the key file to exactly the lines that do
    not contain the key as a substring, in their order, the lines being
    those text-mode reading yields: the text of the file with every line
    end turned into [\n], cut after each [\n].  A line without the key
    stays, with [\n] as its line end; a line with the key in it goes,
    whatever else the line holds. *)
Theorem remove_key_from_file_lines (key content : string) :
  let lines := Keys.readlines content in
  let rewritten := String.concat EmptyString (filter (Keys.kept key) lines) in
  Keys._remove_key_from_file key (Some content) = Some rewritten
  /\ String.concat EmptyString lines = Keys.universal_newlines content
  /\ Keys.lines_ok lines
  /\ Keys.no_carriage_return (Keys.universal_newlines content) = true
  /\ (Keys.no_carriage_return content = true ->
      Keys.universal_newlines content = content)
  /\ Keys.readlines rewritten = filter (Keys.kept key) lines
  /\ (forall line, Keys.kept key line = true <-> ~ Keys.is_substring key line).
Proof.
  intros lines rewritten. subst lines rewritten.
  assert (Hwritten : Keys._remove_key_from_file key (Some content)
                     = Some (String.concat EmptyString
                               (filter (Keys.kept key) (Keys.readlines content)))).
  { cbn [Keys._remove_key_from_file]. now rewrite write_kept_filter. }
  split; [exact Hwritten|].
  split; [apply readlines_joined|].
  split; [apply readlines_ok|].
  split; [apply translate_newlines_clean|].
  split; [apply universal_newlines_plain|].
  split.
  - pose proof (rewritten_lines key content) as Hlines.
    rewrite write_kept_filter in Hlines. exact Hlines.
  - intro line. unfold Keys.kept. rewrite negb_true_iff.
    rewrite <- contains_is_substring.
    destruct (Keys.contains key line); split; congruence.
Qed.

(** A key inside another key: removing [abc] also removes the line of the
    key [xabcd]. *)
Lemma remove_key_from_file_nested :
  Keys._remove_key_from_file "abc" nested_keys_file
  = Some ("# spare" ++ nl ++ "zzz")%string
  /\ Keys.read_api_keys_from_file nested_keys_file = ["abc"; "xabcd"; "zzz"]%string
  /\ Keys.read_api_keys_from_file
       (Keys._remove_key_from_file "abc" nested_keys_file) = ["zzz"%string].
Proof. repeat split; vm_compute; reflexivity. Qed.

(** ** The credential pool *)

Section Pool.

Import Keys.

Lemma mem_In (key : string) (keys : list string) :
  mem key keys = true <-> In key keys.
Proof.
  unfold mem. rewrite existsb_exists. split.
  - intros (x & Hin & Heq). apply String.eqb_eq in Heq. now subst.
  - intro Hin. exists key. split; [assumption|apply String.eqb_refl].
Qed.

Lemma remove_first_count (key x : string) (keys : list string) :
  (count_occ string_dec keys x
   <= count_occ string_dec (remove_first key keys) x
      + (if string_dec key x then 1 else 0))%nat.
Proof.
  induction keys as [|k rest IH]; cbn [remove_first count_occ]; [lia|].
  destruct (String.eqb_spec key k) as [->|Hne].
  - destruct (string_dec k x); lia.
  - cbn [count_occ]. destruct (string_dec k x); lia.
Qed.

Lemma remove_first_absent (key : string) (keys : list string) :
  (count_occ string_dec keys key <= 1)%nat -> ~ In key (remove_first key keys).
Proof.
  induction keys as [|k rest IH]; cbn [remove_first count_occ]; [auto|].
  destruct (String.eqb_spec key k) as [->|Hne].
  - destruct (string_dec k k); [|congruence]. intros Hc Hin.
    apply (count_occ_In string_dec) in Hin. lia.
  - destruct (string_dec k key); [congruence|].
    intros Hc [Heq|Hin]; [congruence|]. now apply IH.
Qed.

Lemma covered_head (api_key : string) (rest pool : list string) :
  covered (api_key :: rest) pool -> mem api_key pool = true.
Proof.
  intro H. apply mem_In. apply (count_occ_In string_dec).
  specialize (H api_key). cbn [count_occ] in H.
  destruct (string_dec api_key api_key); [lia|congruence].
Qed.

Lemma covered_skip (api_key : string) (rest pool : list string) :
  covered (api_key :: rest) pool -> covered rest pool.
Proof.
  intros H x. specialize (H x). cbn [count_occ] in H.
  destruct (string_dec api_key x); lia.
Qed.

Lemma covered_after_error (e : exn) (api_key : string) (rest : list string)
    (self : app) :
  covered (api_key :: rest) (api_keys self) ->
  covered rest (api_keys (_handle_api_error e api_key self)).
Proof.
  intro H.
  assert (Hevict : covered rest
            (if mem api_key (api_keys self)
             then remove_first api_key (api_keys self) else api_keys self)).
  { rewrite (covered_head _ _ _ H). intro x. specialize (H x).
    pose proof (remove_first_count api_key x (api_keys self)) as Hc.
    cbn [count_occ] in H. destruct (string_dec api_key x); lia. }
  unfold _handle_api_error.
  destruct e as [| | | | |code [details|]|]; try (now apply covered_skip in H).
  destruct (_ && _); [exact Hevict|now apply covered_skip in H].
Qed.

Lemma rotate_tail (api_key : string) (self : app) :
  mem api_key (api_keys self) = true ->
  api_keys (rotate api_key self)
  = remove_first api_key (api_keys self) ++ [api_key].
Proof. intro H. unfold rotate. now rewrite H. Qed.

(** A key that succeeds ends up last in the pool. *)
Lemma failover_success_tail (outcomes : list attempt) :
  forall key_candidates self api_key self',
    covered key_candidates (api_keys self) ->
    failover outcomes key_candidates self = (Some api_key, self') ->
    exists front, api_keys self' = front ++ [api_key].
Proof.
  induction outcomes as [|outcome outcomes IH];
    intros key_candidates self api_key self' Hcov Hrun.
  - destruct key_candidates; discriminate Hrun.
  - destruct key_candidates as [|k rest]; [discriminate Hrun|].
    cbn [failover] in Hrun. destruct outcome as [|e|].
    + injection Hrun as <- <-. eexists.
      apply rotate_tail. now apply covered_head in Hcov.
    + eapply IH; [|exact Hrun]. now apply covered_after_error.
    + eapply IH; [|exact Hrun]. now apply covered_skip in Hcov.
Qed.

Lemma process_video_success_tail (outcomes : list attempt) (self self' : app)
    (api_key : string) :
  process_video outcomes self = (Some api_key, self') ->
  last (api_keys self') EmptyString = api_key.
Proof.
  intro Hrun. unfold process_video in Hrun.
  destruct (failover_success_tail outcomes _ _ _ _ (fun x => Nat.le_refl _) Hrun)
    as [front ->].
  apply last_last.
Qed.

(** An eviction empties the pool of a key that was there at most once. *)
Lemma eviction_pool_single (e : exn) (key : string) (self : app) :
  insufficient_credit e = true ->
  (count_occ string_dec (api_keys self) key <= 1)%nat ->
  ~ In key (api_keys (_handle_api_error e key self)).
Proof.
  intros He Hc. unfold _handle_api_error, insufficient_credit in *.
  destruct e as [| | | | |code [details|]|]; try discriminate He.
  rewrite He. cbn [api_keys].
  destruct (mem key (api_keys self)) eqn:Hm.
  - now apply remove_first_absent.
  - intro Hin. apply mem_In in Hin. congruence.
Qed.

Lemma lstrip_suffix (s : string) : exists before, s = (before ++ lstrip s)%string.
Proof.
  induction s as [|c s (before & IH)]; [now exists EmptyString|].
  cbn [lstrip]. destruct (is_space c).
  - exists (String c before). cbn. now rewrite <- IH.
  - now exists EmptyString.
Qed.

Lemma rstrip_prefix (s : string) : exists after, s = (rstrip s ++ after)%string.
Proof.
  induction s as [|c s (after & IH)]; [now exists EmptyString|].
  cbn [rstrip]. destruct (rstrip s) as [|c' kept'].
  - destruct (is_space c).
    + now exists (String c s).
    + exists s. reflexivity.
  - exists after. cbn [append] in *. now rewrite <- IH.
Qed.

Lemma strip_is_substring (line : string) : is_substring (strip line) line.
Proof.
  destruct (lstrip_suffix line) as [before Hb].
  destruct (rstrip_prefix (lstrip line)) as [after Ha].
  exists before, after. unfold strip. now rewrite <- Ha.
Qed.

Lemma read_keys_from_lines (key : string) (lines : list string) : forall keys,
  In key (read_keys lines keys) ->
  In key keys \/ exists line, In line lines /\ is_substring key line.
Proof.
  induction lines as [|line rest IH]; intros keys Hin; [now left|].
  cbn [read_keys] in Hin.
  destruct (negb (String.eqb (strip line) EmptyString)
            && negb (String.prefix "#" (strip line))).
  - destruct (IH _ Hin) as [Hk|(l & Hl & Hsub)].
    + apply in_app_or in Hk as [Hk|[<-|[]]]; [now left|].
      right. exists line. split; [now left|apply strip_is_substring].
    + right. exists l. split; [now right|assumption].
  - destruct (IH _ Hin) as [Hk|(l & Hl & Hsub)]; [now left|].
    right. exists l. split; [now right|assumption].
Qed.

(** An eviction leaves no line with the key in the key file, so the key is
    not read back from it. *)
Lemma eviction_file (e : exn) (key : string) (self : app) :
  insufficient_credit e = true ->
  ~ In key (read_api_keys_from_file (api_file (_handle_api_error e key self))).
Proof.
  intros He. unfold _handle_api_error, insufficient_credit in *.
  destruct e as [| | | | |code [details|]|]; try discriminate He.
  rewrite He. cbn [api_file].
  destruct (api_file self) as [content|]; [|auto].
  cbn [_remove_key_from_file read_api_keys_from_file]. intro Hin.
  apply read_keys_from_lines in Hin as [[]|(line & Hl & Hsub)].
  rewrite rewritten_lines in Hl. apply filter_In in Hl as [_ Hkept].
  apply contains_is_substring in Hsub. unfold kept in Hkept.
  rewrite Hsub in Hkept. discriminate Hkept.
Qed.

End Pool.

(** C3: with a key that is twice in the pool, an insufficient-credit
    eviction takes one of the two out of memory: the key is gone from the
    key file and still in the pool. *)
Theorem eviction_keeps_duplicate_key :
  Keys.insufficient_credit no_credit = true
  /\ Keys.api_keys (Keys._handle_api_error no_credit "KEY1" doubled_pool)
     = ["KEY1"; "KEY2"]%string
  /\ In "KEY1"%string
       (Keys.api_keys (Keys._handle_api_error no_credit "KEY1" doubled_pool))
  /\ Keys.read_api_keys_from_file
       (Keys.api_file (Keys._handle_api_error no_credit "KEY1" doubled_pool))
     = ["KEY2"%string].
Proof.
  repeat apply conj; try (vm_compute; reflexivity).
  left. reflexivity.
Qed.

(** * Further properties of the pipeline *)

(** ** StatusPoller: normalization and terminal states *)

Section PollMore.

Import Poll.




End PollMore.



(** X2: an iteration reports a server failure exactly when the case-folded
    state is [failed] or [cancelled], the progress is below 100 and no
    download descriptor is carried: a failed job that reports 100% progress
    is waited on, and one that carries a download descriptor is taken as
    finished. *)
Theorem poll_step_server_failed (status : Poll.dict) :
  (exists state, Poll.poll_step status = Poll.ServerFailed state)
  <-> (Poll.state_lower status = "failed"%string
       \/ Poll.state_lower status = "cancelled"%string)
      /\ Poll.progress_val status < 100
      /\ Poll.truth (Poll.get status "download") = false.
Proof.
  unfold Poll.poll_step.
  destruct (Qle_bool 100 (Poll.progress_val status)) eqn:Hp;
    [apply Qle_bool_iff in Hp|apply Qle_bool_false_iff in Hp];
    destruct (String.eqb_spec (Poll.state_lower status) "complete") as [Hc|Hc];
    cbn [negb andb orb].
  - split; [intros [s Hs]; discriminate|].
    intros ([H|H] & _ & _); rewrite Hc in H; discriminate.
  - split; [intros [s Hs]; discriminate|]. intros (_ & Hlt & _). lra.
  - split; [intros [s Hs]; discriminate|].
    intros ([H|H] & _ & _); rewrite Hc in H; discriminate.
  - destruct (Poll.truth (Poll.get status "download")) eqn:Hd.
    + split; [intros [s Hs]; discriminate|]. intros (_ & _ & H). discriminate.
    + destruct (String.eqb_spec (Poll.state_lower status) "failed") as [Hf|Hf];
        destruct (String.eqb_spec (Poll.state_lower status) "cancelled") as [Hx|Hx];
        cbn [orb]; split; eauto; try (intros [s Hs]; discriminate).
      intros ([H|H] & _); contradiction.
Qed.

(** X3: as long as every response reports a progress of at least 100 with a
    state other than [complete], the loop neither resolves nor fails: it
    polls until the stop signal, also when the state is [failed]. *)
Theorem poll_loop_waits_at_full_progress (responses : list Poll.dict) :
  (forall status, In status responses ->
     100 <= Poll.progress_val status
     /\ Poll.state_lower status <> "complete"%string) ->
  Poll.poll_loop responses = Poll.Stopped.
Proof.
  induction responses as [|status rest IH]; intro Hall; [reflexivity|].
  destruct (Hall status (or_introl eq_refl)) as [Hp Hc].
  cbn [Poll.poll_loop]. unfold Poll.poll_step.
  apply Qle_bool_iff in Hp. rewrite Hp.
  destruct (String.eqb_spec (Poll.state_lower status) "complete"); [contradiction|].
  cbn [negb andb]. apply IH. intros s Hs. apply Hall. now right.
Qed.

Lemma poll_loop_waits_at_full_progress_witness :
  Poll.poll_loop [status_failed_at_100; status_finalizing; status_failed_at_100]
  = Poll.Stopped.
Proof.
  apply poll_loop_waits_at_full_progress.
  intros status [<-|[<-|[<-|[]]]]; split; vm_compute; discriminate.
Defined.

(** X4: when the completion branch is taken, the download URL is found
    exactly when the response has a [download] entry that is an object with
    a [url] entry; a missing [download] entry, as on a bare [complete]
    state, raises KeyError, and one that is not an object raises
    TypeError. *)
Theorem poll_step_download_url (status : Poll.dict) (found : result Poll.pyval) :
  Poll.poll_step status = Poll.Finish found ->
  (forall url, found = Ok url <->
     exists download,
       Poll.lookup status "download" = Some (Poll.PDict download)
       /\ Poll.lookup download "url" = Some url)
  /\ (Poll.lookup status "download" = None -> found = Raise KeyError)
  /\ (forall v, Poll.lookup status "download" = Some v ->
        (forall d, v <> Poll.PDict d) -> found = Raise TypeError).
Proof.
  unfold Poll.poll_step.
  destruct (_ && _); [discriminate|].
  destruct (_ || _); [|destruct (_ || _); discriminate].
  intros [= <-]. cbn [Poll.subscript].
  destruct (Poll.lookup status "download") as [v|] eqn:Hv.
  - split; [|split].
    + intro url. split.
      * intro H. destruct v; cbn in H; try discriminate.
        destruct (Poll.lookup entries "url") eqn:Hu; [|discriminate].
        injection H as <-. eauto.
      * intros (download & [= ->] & Hu). cbn. now rewrite Hu.
    + discriminate.
    + intros v' [= <-] Hnd. destruct v; try reflexivity.
      exfalso. now apply (Hnd entries).
  - split; [|split].
    + intro url. split; [discriminate|]. intros (d & H & _). discriminate.
    + reflexivity.
    + discriminate.
Qed.

Lemma poll_step_download_url_witness :
  exists download,
    Poll.lookup status_complete "download" = Some (Poll.PDict download)
    /\ Poll.lookup download "url" = Some (Poll.PStr "https://cdn.example/out.mp4").
Proof.
  apply (proj1 (proj1 (poll_step_download_url status_complete
                         (Ok (Poll.PStr "https://cdn.example/out.mp4")) eq_refl)
                  (Poll.PStr "https://cdn.example/out.mp4"))).
  reflexivity.
Defined.

(** ** ChunkedUploader: what is sent and how a run ends *)

Section UploadMore.

Import Upload.

Variable put : string -> bytes -> response.
Variable content : bytes.
Variable p : Z.
Hypothesis p_nonneg : (0 <= p)%Z.

Local Abbreviation size := (Z.of_nat (length content)).
Local Abbreviation part_end idx := (Z.min ((idx + 1) * p) size).

Lemma file_slice_empty (lo : Z) : file_slice content lo lo = [].
Proof.
  unfold file_slice. apply skipn_all2. rewrite length_firstn. lia.
Qed.

Lemma file_slice_app (a b c : Z) :
  (0 <= a <= b)%Z -> (b <= c)%Z ->
  file_slice content a b ++ file_slice content b c = file_slice content a c.
Proof.
  intros Hab Hbc. unfold file_slice.
  set (a' := Z.to_nat (Z.min a size)).
  set (b' := Z.to_nat (Z.min b size)).
  set (c' := Z.to_nat (Z.min c size)).
  assert (Hle : (a' <= b' <= c')%nat /\ (c' <= length content)%nat)
    by (subst a' b' c'; lia).
  replace (firstn b' content) with (firstn b' (firstn c' content))
    by (rewrite firstn_firstn; f_equal; lia).
  rewrite <- (firstn_skipn b' (firstn c' content)) at 3.
  rewrite skipn_app, length_firstn, length_firstn.
  replace (a' - Nat.min b' (Nat.min c' (length content)))%nat with 0%nat by lia.
  reflexivity.
Qed.

(** A read that succeeds returns the part of the file between the two
    offsets, which is empty once the part starts past the end. *)
Lemma seek_read_slice (idx : Z) (data : bytes) :
  (0 <= idx)%Z ->
  seek_read content (idx * p) (part_end idx - idx * p) = Ok data ->
  data = file_slice content (idx * p) ((idx + 1) * p).
Proof.
  intros Hidx. unfold seek_read, file_slice.
  destruct (Z.ltb_spec (part_end idx - idx * p) (-1)); [discriminate|].
  destruct (Z.eqb_spec (part_end idx - idx * p) (-1)) as [Heq|Hne];
    intros [= <-].
  - assert (Hpast : (size < idx * p)%Z) by nia.
    rewrite skipn_all2 by lia.
    symmetry. apply skipn_all2. rewrite length_firstn. lia.
  - assert (Hin : (idx * p <= part_end idx)%Z) by lia.
    rewrite skipn_firstn_comm. f_equal; [lia|f_equal; lia].
Qed.

Lemma upload_loop_returns (urls : list string) :
  forall idx sent etags sent' etags',
    (0 <= idx)%Z ->
    upload_loop put content size p idx urls sent etags = (sent', Ok etags') ->
    exists new,
      sent' = sent ++ new
      /\ map fst new = urls
      /\ concat (map snd new)
         = file_slice content (idx * p) ((idx + Z.of_nat (length urls)) * p)
      /\ all_accepted put new
      /\ map partNum etags'
         = map partNum etags
           ++ map Z.of_nat (seq (S (Z.to_nat idx)) (length urls)).
Proof.
  induction urls as [|url rest IH]; intros idx sent etags sent' etags' Hidx Hrun.
  - cbn in Hrun. injection Hrun as <- <-. exists [].
    rewrite !app_nil_r. cbn [length Z.of_nat]. rewrite Z.add_0_r.
    repeat split; [symmetry; apply file_slice_empty|constructor].
  - cbn [upload_loop] in Hrun.
    destruct (seek_read content (idx * p) (part_end idx - idx * p))
      as [data|e] eqn:Hread; [|discriminate].
    apply seek_read_slice in Hread; [|assumption].
    destruct (ok (put url data)) eqn:Hok; cbn [negb] in Hrun; [|discriminate].
    assert (Hnext : (0 <= idx + 1)%Z) by lia.
    destruct (IH _ _ _ _ _ Hnext Hrun) as (new & -> & Hurls & Hcat & Hacc & Hnum).
    exists ((url, data) :: new). repeat apply conj.
    + now rewrite <- app_assoc.
    + cbn. now rewrite Hurls.
    + cbn [map concat snd]. rewrite Hcat, Hread.
      rewrite file_slice_app by nia.
      f_equal. cbn [length]. lia.
    + constructor; assumption.
    + rewrite Hnum, map_app, <- app_assoc. cbn [map partNum app length seq].
      do 2 f_equal; [lia|]. do 2 f_equal. lia.
Qed.

Lemma upload_loop_rejected (urls : list string) :
  forall idx sent etags sent' code body,
    upload_loop put content size p idx urls sent etags
    = (sent', Raise (HTTPError code body)) ->
    exists front url data,
      sent' = sent ++ front ++ [(url, data)]
      /\ all_accepted put front
      /\ ok (put url data) = false
      /\ code = status (put url data)
      /\ body = json_body (put url data)
      /\ (length front < length urls)%nat.
Proof.
  induction urls as [|url rest IH]; intros idx sent etags sent' code body Hrun;
    [discriminate|].
  cbn [upload_loop] in Hrun.
  destruct (seek_read content (idx * p) (part_end idx - idx * p))
    as [data|e] eqn:Hread.
  - destruct (ok (put url data)) eqn:Hok; cbn [negb] in Hrun.
    + destruct (IH _ _ _ _ _ _ Hrun) as (front & u & d & -> & Hacc & Hrej & Hc & Hb & Hlen).
      exists ((url, data) :: front), u, d. repeat apply conj; try assumption.
      * now rewrite <- app_assoc.
      * constructor; assumption.
      * cbn [length]. lia.
    + injection Hrun as <- <- <-. exists [], url, data.
      repeat apply conj; try reflexivity; try assumption; [constructor|cbn; lia].
  - unfold seek_read in Hread.
    destruct (_ <? _)%Z; [|destruct (_ =? _)%Z; discriminate].
    injection Hread as <-. discriminate Hrun.
Qed.

Hypothesis put_ok : forall url data, ok (put url data) = true.

Lemma upload_loop_completes (urls : list string) :
  forall idx sent etags,
    (0 <= idx)%Z ->
    (urls = [] \/ (-1 <= size - (idx + Z.of_nat (length urls) - 1) * p)%Z) ->
    exists sent' etags',
      upload_loop put content size p idx urls sent etags = (sent', Ok etags').
Proof.
  induction urls as [|url rest IH]; intros idx sent etags Hidx Hlast;
    [cbn; eauto|].
  destruct Hlast as [Hnil|Hlast]; [discriminate|]. cbn [length] in Hlast.
  cbn [upload_loop]. unfold seek_read.
  destruct (Z.ltb_spec (part_end idx - idx * p) (-1)); [nia|].
  destruct (_ =? _)%Z; rewrite put_ok; cbn [negb]; apply IH; try lia;
    (destruct rest; [now left|right; cbn [length] in *; lia]).
Qed.

Lemma upload_loop_refused (urls : list string) :
  forall idx sent etags,
    (0 <= idx)%Z -> urls <> [] ->
    (size - (idx + Z.of_nat (length urls) - 1) * p < -1)%Z ->
    exists new,
      upload_loop put content size p idx urls sent etags
      = (sent ++ new, Raise ValueError)
      /\ (length new < length urls)%nat.
Proof.
  induction urls as [|url rest IH]; intros idx sent etags Hidx Hne Hlast;
    [congruence|].
  cbn [length] in Hlast. cbn [upload_loop]. unfold seek_read.
  destruct (Z.ltb_spec (part_end idx - idx * p) (-1)) as [Hlt|Hge].
  - exists []. rewrite app_nil_r. split; [reflexivity|cbn; lia].
  - assert (Hrest : rest <> []).
    { intros ->. cbn [length] in Hlast. lia. }
    destruct (_ =? _)%Z; rewrite put_ok; cbn [negb];
      (edestruct (IH (idx + 1)%Z) as (new & -> & Hlen);
       [lia|exact Hrest|lia|];
       eexists (_ :: new); rewrite <- app_assoc; split;
       [reflexivity|cbn [length]; lia]).
Qed.

End UploadMore.

Lemma ceil_div_nonneg (s n : Z) :
  (0 <= s)%Z -> (1 <= n)%Z ->
  (0 <= Upload.ceil_div s n)%Z /\ (s <= n * Upload.ceil_div s n)%Z.
Proof.
  intros Hs Hn. unfold Upload.ceil_div.
  pose proof (Z.div_mod (s + n - 1) n ltac:(lia)) as Hdm.
  pose proof (Z.mod_pos_bound (s + n - 1) n ltac:(lia)) as Hmod.
  split; nia.
Qed.

(** X5: whenever the uploader returns, whatever the file size and the
    number of URLs, it has sent one accepted request to each URL in order,
    the bodies sent concatenate to the file, and the results are numbered
    1..N. *)
Theorem upload_video_parts_returns
    (put : string -> Upload.bytes -> Upload.response)
    (upload_urls : list string) (content : Upload.bytes)
    (sent : list (string * Upload.bytes)) (etags : list Upload.part) :
  Upload.upload_video_parts put upload_urls content = (sent, Ok etags) ->
  map fst sent = upload_urls
  /\ concat (map snd sent) = content
  /\ all_accepted put sent
  /\ map Upload.partNum etags = map Z.of_nat (seq 1 (length upload_urls)).
Proof.
  unfold Upload.upload_video_parts.
  destruct (Z.eqb_spec (Z.of_nat (length upload_urls)) 0); [discriminate|].
  fold (Upload.ceil_div (Z.of_nat (length content))
          (Z.of_nat (length upload_urls))).
  destruct (ceil_div_nonneg (Z.of_nat (length content))
              (Z.of_nat (length upload_urls)) ltac:(lia) ltac:(lia))
    as [Hp Hcover].
  set (p := Upload.ceil_div _ _) in *.
  intro Hrun.
  destruct (upload_loop_returns put content p Hp _ _ _ _ _ _ (Z.le_refl 0) Hrun)
    as (new & -> & Hurls & Hcat & Hacc & Hnum).
  cbn [app]. repeat apply conj; try assumption.
  rewrite Hcat. unfold file_slice. cbn [Z.mul].
  rewrite Z.min_l by lia. cbn [Z.to_nat skipn].
  apply firstn_all2. lia.
Qed.

Lemma upload_video_parts_returns_witness :
  concat (map snd (fst (Upload.upload_video_parts put_accepts four_urls five_bytes)))
  = five_bytes.
Proof.
  apply (upload_video_parts_returns put_accepts four_urls five_bytes _
           (map (fun n => {| Upload.partNum := n; Upload.eTag := "tag" |})
                [1; 2; 3; 4]%Z)).
  vm_compute. reflexivity.
Defined.

(** X6: the uploader stops at the first rejected part: when it raises
    HTTPError, the last request sent is the rejected one, the error carries
    the status and body of its response, every request before it was
    accepted, and no result is returned. *)
Theorem upload_video_parts_rejected
    (put : string -> Upload.bytes -> Upload.response)
    (upload_urls : list string) (content : Upload.bytes)
    (sent : list (string * Upload.bytes)) (code : Z) (body : option string) :
  Upload.upload_video_parts put upload_urls content
  = (sent, Raise (HTTPError code body)) ->
  exists front url data,
    sent = front ++ [(url, data)]
    /\ all_accepted put front
    /\ Upload.ok (put url data) = false
    /\ code = Upload.status (put url data)
    /\ body = Upload.json_body (put url data)
    /\ (length sent <= length upload_urls)%nat.
Proof.
  unfold Upload.upload_video_parts.
  destruct (Z.eqb_spec (Z.of_nat (length upload_urls)) 0); [discriminate|].
  intro Hrun.
  destruct (upload_loop_rejected put content _ _ _ _ _ _ _ _ Hrun)
    as (front & url & data & -> & Hacc & Hrej & Hc & Hb & Hlen).
  exists front, url, data. cbn [app].
  repeat apply conj; try assumption; try reflexivity.
  rewrite length_app. cbn [length]. lia.
Qed.

Lemma upload_video_parts_rejected_witness :
  exists front url data,
    [("u1"%string, [Byte.x61; Byte.x62]); ("u2"%string, [Byte.x63; Byte.x64])]
    = front ++ [(url, data)]
    /\ all_accepted put_rejects_second front
    /\ Upload.ok (put_rejects_second url data) = false
    /\ 403%Z = Upload.status (put_rejects_second url data)
    /\ Some "{'message': 'Forbidden'}"%string
       = Upload.json_body (put_rejects_second url data)
    /\ (2 <= length four_urls)%nat.
Proof.
  apply (upload_video_parts_rejected put_rejects_second four_urls seven_bytes).
  vm_compute. reflexivity.
Defined.

(** X7: when every part is accepted, the way the uploader ends is fixed by
    the sizes alone.  With no URL it raises ZeroDivisionError before
    sending anything; with N URLs and part size p = ceil(S/N) it returns
    when (N-1)*p <= S+1, and otherwise raises ValueError on a read of
    negative length after fewer than N requests. *)
Theorem upload_video_parts_outcome
    (put : string -> Upload.bytes -> Upload.response)
    (upload_urls : list string) (content : Upload.bytes) :
  (forall url data, Upload.ok (put url data) = true) ->
  let size := Z.of_nat (length content) in
  let n := Z.of_nat (length upload_urls) in
  let p := Upload.ceil_div size n in
  (upload_urls = [] ->
   Upload.upload_video_parts put upload_urls content = ([], Raise ZeroDivisionError))
  /\ (upload_urls <> [] -> ((n - 1) * p <= size + 1)%Z ->
      exists sent etags,
        Upload.upload_video_parts put upload_urls content = (sent, Ok etags))
  /\ (upload_urls <> [] -> (size + 1 < (n - 1) * p)%Z ->
      exists sent,
        Upload.upload_video_parts put upload_urls content = (sent, Raise ValueError)
        /\ (length sent < length upload_urls)%nat).
Proof.
  intros Hput size n p. split; [|split].
  - intros ->. reflexivity.
  - intros Hne Hfit. unfold Upload.upload_video_parts.
    assert (Hn : (1 <= n)%Z) by (subst n; destruct upload_urls; [congruence|cbn; lia]).
    destruct (Z.eqb_spec (Z.of_nat (length upload_urls)) 0); [lia|].
    fold size n. fold (Upload.ceil_div size n). fold p.
    destruct (ceil_div_nonneg size n ltac:(lia) Hn) as [Hp _]. fold p in Hp.
    apply (upload_loop_completes put content p Hp Hput); [lia|].
    right. fold n. lia.
  - intros Hne Hover. unfold Upload.upload_video_parts.
    assert (Hn : (1 <= n)%Z) by (subst n; destruct upload_urls; [congruence|cbn; lia]).
    destruct (Z.eqb_spec (Z.of_nat (length upload_urls)) 0); [lia|].
    fold size n. fold (Upload.ceil_div size n). fold p.
    destruct (ceil_div_nonneg size n ltac:(lia) Hn) as [Hp _]. fold p in Hp.
    destruct (upload_loop_refused put content p Hp Hput upload_urls 0 [] []
                (Z.le_refl 0) Hne) as (new & Hrun & Hlen).
    + fold n. lia.
    + exists new. split; assumption.
Qed.

Lemma upload_video_parts_outcome_witness :
  exists sent,
    Upload.upload_video_parts put_accepts four_urls [Byte.x61]
    = (sent, Raise ValueError)
    /\ (length sent < length four_urls)%nat.
Proof.
  apply (proj2 (proj2 (upload_video_parts_outcome put_accepts four_urls [Byte.x61]
                         (fun _ _ => eq_refl)))).
  - discriminate.
  - vm_compute. reflexivity.
Defined.

(** ** The credential pool over a whole video *)

Section PoolMore.

Import Keys.

Lemma remove_first_count_le (key x : string) (keys : list string) :
  (count_occ string_dec (remove_first key keys) x
   <= count_occ string_dec keys x)%nat.
Proof.
  induction keys as [|k rest IH]; cbn [remove_first count_occ]; [lia|].
  destruct (String.eqb_spec key k) as [->|Hne].
  - destruct (string_dec k x); lia.
  - cbn [count_occ]. destruct (string_dec k x); lia.
Qed.

Lemma rotate_count (key x : string) (keys : list string) :
  In key keys ->
  count_occ string_dec (remove_first key keys ++ [key]) x
  = count_occ string_dec keys x.
Proof.
  intro Hin. rewrite count_occ_app. cbn [count_occ].
  induction keys as [|k rest IH]; [destruct Hin|].
  cbn [remove_first count_occ].
  destruct (String.eqb_spec key k) as [->|Hne].
  - destruct (string_dec k x); lia.
  - cbn [count_occ]. destruct Hin as [Heq|Hin]; [congruence|].
    specialize (IH Hin). destruct (string_dec k x); lia.
Qed.

Lemma remove_first_keeps (key other : string) (keys : list string) :
  other <> key -> In other keys -> In other (remove_first key keys).
Proof.
  intros Hne. induction keys as [|k rest IH]; [auto|].
  cbn [remove_first]. destruct (String.eqb_spec key k) as [->|Hk].
  - intros [Heq|Hin]; [congruence|assumption].
  - intros [Heq|Hin]; [now left|right; auto].
Qed.

Lemma handle_api_error_other (e : exn) (key : string) (self : app) :
  insufficient_credit e = false -> _handle_api_error e key self = self.
Proof.
  unfold insufficient_credit, _handle_api_error.
  destruct e as [| | | | |code [details|]|]; try reflexivity.
  now intros ->.
Qed.

Lemma handle_api_error_count (e : exn) (key x : string) (self : app) :
  (count_occ string_dec (api_keys (_handle_api_error e key self)) x
   <= count_occ string_dec (api_keys self) x)%nat.
Proof.
  unfold _handle_api_error.
  destruct e as [| | | | |code [details|]|]; try lia.
  destruct (_ && _); [|lia]. cbn [api_keys].
  destruct (mem key (api_keys self)); [apply remove_first_count_le|lia].
Qed.

Lemma failover_counts (outcomes : list attempt) :
  forall key_candidates self found self' x,
    failover outcomes key_candidates self = (found, self') ->
    (count_occ string_dec (api_keys self') x
     <= count_occ string_dec (api_keys self) x)%nat.
Proof.
  induction outcomes as [|outcome outcomes IH];
    intros key_candidates self found self' x Hrun.
  - destruct key_candidates; injection Hrun as <- <-; lia.
  - destruct key_candidates as [|k rest]; [injection Hrun as <- <-; lia|].
    cbn [failover] in Hrun. destruct outcome as [|e|].
    + injection Hrun as <- <-. unfold rotate.
      destruct (mem k (api_keys self)) eqn:Hm; [|lia].
      cbn [api_keys]. rewrite rotate_count; [lia|now apply mem_In].
    + specialize (IH _ _ _ _ x Hrun).
      pose proof (handle_api_error_count e k x self). lia.
    + now apply (IH _ _ _ _ x Hrun).
Qed.

Lemma failover_quiet (outcomes : list attempt) :
  forall key_candidates self found self',
    no_eviction outcomes ->
    covered key_candidates (api_keys self) ->
    failover outcomes key_candidates self = (found, self') ->
    api_file self' = api_file self
    /\ match found with
       | Some key => In key key_candidates
                     /\ api_keys self' = remove_first key (api_keys self) ++ [key]
       | None => api_keys self' = api_keys self
       end.
Proof.
  induction outcomes as [|outcome outcomes IH];
    intros key_candidates self found self' Hquiet Hcov Hrun.
  - destruct key_candidates; injection Hrun as <- <-; auto.
  - destruct key_candidates as [|k rest]; [injection Hrun as <- <-; auto|].
    assert (Hquiet' : no_eviction outcomes)
      by (intros e He; apply Hquiet; now right).
    cbn [failover] in Hrun. destruct outcome as [|e|].
    + injection Hrun as <- <-.
      rewrite rotate_tail by now apply covered_head in Hcov.
      unfold rotate. rewrite (covered_head _ _ _ Hcov). cbn [api_file].
      split; [reflexivity|]. split; [now left|reflexivity].
    + rewrite handle_api_error_other in Hrun
        by (apply Hquiet; now left).
      destruct (IH _ _ _ _ Hquiet' (covered_skip _ _ _ Hcov) Hrun) as [Hf Hk].
      split; [assumption|]. destruct found; [|assumption].
      destruct Hk. split; [now right|assumption].
    + destruct (IH _ _ _ _ Hquiet' (covered_skip _ _ _ Hcov) Hrun) as [Hf Hk].
      split; [assumption|]. destruct found; [|assumption].
      destruct Hk. split; [now right|assumption].
Qed.

Lemma failover_key_candidate (outcomes : list attempt) :
  forall key_candidates self key self',
    failover outcomes key_candidates self = (Some key, self') ->
    In key key_candidates.
Proof.
  induction outcomes as [|outcome outcomes IH];
    intros key_candidates self key self' Hrun.
  - destruct key_candidates; discriminate Hrun.
  - destruct key_candidates as [|k rest]; [discriminate Hrun|].
    cbn [failover] in Hrun. destruct outcome as [|e|].
    + injection Hrun as <- _. now left.
    + right. eapply IH, Hrun.
    + right. eapply IH, Hrun.
Qed.

End PoolMore.

(** X8: a video whose attempts meet no insufficient-credit response leaves
    the key file as it was, and the pool too, up to the rotation of the key
    that succeeded: without a success the pool is unchanged, with one the
    first occurrence of that key has moved to the end. *)
Theorem process_video_without_eviction
    (outcomes : list Keys.attempt) (self self' : Keys.app)
    (found : option string) :
  no_eviction outcomes ->
  Keys.process_video outcomes self = (found, self') ->
  Keys.api_file self' = Keys.api_file self
  /\ match found with
     | Some key =>
         In key (Keys.api_keys self)
         /\ Keys.api_keys self'
            = Keys.remove_first key (Keys.api_keys self) ++ [key]
     | None => Keys.api_keys self' = Keys.api_keys self
     end.
Proof.
  intros Hquiet Hrun. unfold Keys.process_video in Hrun.
  apply (failover_quiet outcomes _ _ _ _ Hquiet (fun x => Nat.le_refl _) Hrun).
Qed.

Lemma process_video_without_eviction_witness :
  let run := Keys.process_video
               [Keys.Errored server_error; Keys.Abandoned; Keys.Succeeded]
               plain_pool in
  Keys.api_file (snd run) = Keys.api_file plain_pool
  /\ In "KEY3"%string (Keys.api_keys plain_pool)
  /\ Keys.api_keys (snd run)
     = Keys.remove_first "KEY3" (Keys.api_keys plain_pool) ++ ["KEY3"%string].
Proof.
  intro run.
  apply (process_video_without_eviction
           [Keys.Errored server_error; Keys.Abandoned; Keys.Succeeded]
           plain_pool (snd run) (Some "KEY3"%string)).
  - intros e [[= <-]|[H|[H|[]]]]; try discriminate. reflexivity.
  - vm_compute. reflexivity.
Defined.

(** X9: processing a video never adds a key to the pool: whatever the
    attempts do, every key is in the pool afterwards at most as often as
    before, and a key that succeeded was in the pool and is now last. *)
Theorem process_video_pool_shrinks
    (outcomes : list Keys.attempt) (self self' : Keys.app)
    (found : option string) :
  Keys.process_video outcomes self = (found, self') ->
  (forall key, (count_occ string_dec (Keys.api_keys self') key
                <= count_occ string_dec (Keys.api_keys self) key)%nat)
  /\ (length (Keys.api_keys self') <= length (Keys.api_keys self))%nat
  /\ (forall key, found = Some key ->
        In key (Keys.api_keys self)
        /\ exists front, Keys.api_keys self' = front ++ [key]).
Proof.
  intro Hrun.
  assert (Hcount : forall key,
            (count_occ string_dec (Keys.api_keys self') key
             <= count_occ string_dec (Keys.api_keys self) key)%nat)
    by (intro key; apply (failover_counts _ _ _ _ _ key Hrun)).
  split; [exact Hcount|]. split.
  - clear Hrun. revert Hcount.
    generalize (Keys.api_keys self) as before, (Keys.api_keys self') as after.
    intros before after. revert before.
    induction after as [|k rest IH]; intros before Hcount; [cbn; lia|].
    assert (Hin : In k before).
    { apply (count_occ_In string_dec). specialize (Hcount k).
      cbn [count_occ] in Hcount. destruct (string_dec k k); [lia|congruence]. }
    apply in_split in Hin as (l1 & l2 & ->).
    rewrite length_app. cbn [length].
    specialize (IH (l1 ++ l2)). rewrite length_app in IH.
    enough (length rest <= length l1 + length l2)%nat by lia.
    apply IH. intro x. specialize (Hcount x).
    rewrite count_occ_app in *. cbn [count_occ] in Hcount.
    destruct (string_dec k x); lia.
  - intros key ->. unfold Keys.process_video in Hrun. split.
    + apply (failover_key_candidate _ _ _ _ _ Hrun).
    + apply (failover_success_tail _ _ _ _ _ (fun x => Nat.le_refl _) Hrun).
Qed.

Lemma process_video_pool_shrinks_witness :
  In "KEY1"%string (Keys.api_keys doubled_pool)
  /\ exists front, ["KEY2"; "KEY1"]%string = front ++ ["KEY1"%string].
Proof.
  apply (proj2 (proj2 (process_video_pool_shrinks
                         [Keys.Errored no_credit; Keys.Succeeded] doubled_pool
                         _ (Some "KEY1"%string) eq_refl)) "KEY1"%string eq_refl).
Defined.

(** ** Evictions and the key file *)

Section KeyFileMore.

Import Keys.

Lemma is_substring_trans (a b c : string) :
  is_substring a b -> is_substring b c -> is_substring a c.
Proof.
  intros (p1 & q1 & ->) (p2 & q2 & ->).
  exists (p2 ++ p1)%string, (q1 ++ q2)%string.
  now rewrite !append_assoc.
Qed.

Lemma rstrip_newline (s : string) :
  rstrip (s ++ String newline EmptyString) = rstrip s.
Proof.
  induction s as [|c s IH]; [reflexivity|].
  cbn [append rstrip]. now rewrite IH.
Qed.

Lemma lstrip_newline (s : string) :
  lstrip (s ++ String newline EmptyString)
  = match lstrip s with
    | EmptyString => EmptyString
    | kept => (kept ++ String newline EmptyString)%string
    end.
Proof.
  induction s as [|c s IH]; [reflexivity|].
  cbn [append lstrip]. destruct (is_space c); [exact IH|reflexivity].
Qed.

(** The line end does not count: a full line gives the key its body gives. *)
Lemma strip_newline (s : string) :
  strip (s ++ String newline EmptyString) = strip s.
Proof.
  unfold strip. rewrite lstrip_newline.
  destruct (lstrip s) as [|c kept]; [reflexivity|apply rstrip_newline].
Qed.

Lemma no_newline_app (s t : string) :
  no_newline (s ++ t) = no_newline s && no_newline t.
Proof.
  induction s as [|c s IH]; [reflexivity|].
  cbn [append no_newline]. rewrite IH. now rewrite andb_assoc.
Qed.

Lemma no_newline_substring (key line : string) :
  is_substring key line -> no_newline line = true -> no_newline key = true.
Proof.
  intros (before & after & ->). rewrite !no_newline_app, !andb_true_iff. tauto.
Qed.

Lemma no_carriage_return_substring (key line : string) :
  is_substring key line -> no_carriage_return line = true ->
  no_carriage_return key = true.
Proof.
  intros (before & after & ->).
  rewrite !no_carriage_return_app, !andb_true_iff. tauto.
Qed.

Lemma lstrip_head (s : string) :
  match lstrip s with
  | EmptyString => True
  | String c _ => is_space c = false
  end.
Proof.
  induction s as [|c s IH]; [exact I|].
  cbn [lstrip]. destruct (is_space c) eqn:Hc; [exact IH|exact Hc].
Qed.

Lemma lstrip_fixed (s : string) :
  match s with
  | EmptyString => True
  | String c _ => is_space c = false
  end -> lstrip s = s.
Proof.
  destruct s as [|c s]; [reflexivity|]. cbn [lstrip]. now intros ->.
Qed.

Lemma rstrip_head (s : string) :
  match s with
  | EmptyString => True
  | String c _ => is_space c = false
  end ->
  match rstrip s with
  | EmptyString => s = EmptyString
  | String c _ => is_space c = false
  end.
Proof.
  destruct s as [|c s]; [reflexivity|]. cbn [rstrip]. intro Hc.
  destruct (rstrip s); [rewrite Hc|]; assumption.
Qed.

Lemma rstrip_rstrip (s : string) : rstrip (rstrip s) = rstrip s.
Proof.
  induction s as [|c s IH]; [reflexivity|].
  cbn [rstrip]. destruct (rstrip s) as [|c' kept] eqn:E.
  - destruct (is_space c) eqn:Hc; [reflexivity|]. cbn [rstrip]. now rewrite Hc.
  - cbn [rstrip]. cbn [rstrip] in IH. rewrite IH. reflexivity.
Qed.

Lemma strip_strip (s : string) : strip (strip s) = strip s.
Proof.
  unfold strip.
  pose proof (rstrip_head (lstrip s) (lstrip_head s)) as Hhead.
  rewrite lstrip_fixed; [apply rstrip_rstrip|].
  destruct (rstrip (lstrip s)); [exact I|exact Hhead].
Qed.

Lemma full_or_last_body (line : string) :
  last_line line ->
  exists body, no_newline body = true /\ strip line = strip body.
Proof.
  intros [(body & -> & Hno)|[_ Hno]].
  - exists body. split; [assumption|apply strip_newline].
  - now exists line.
Qed.

Lemma lines_ok_each (lines : list string) :
  lines_ok lines -> forall line, In line lines -> last_line line.
Proof.
  induction lines as [|l rest IH]; intros Hok line Hin; [destruct Hin|].
  cbn [lines_ok] in Hok. destruct rest as [|l' rest'].
  - destruct Hin as [<-|[]]. assumption.
  - destruct Hok as [Hfull Hok]. destruct Hin as [<-|Hin]; [now left|].
    now apply IH.
Qed.

Lemma read_keys_sound (lines : list string) : forall keys key,
  In key (read_keys lines keys) ->
  In key keys
  \/ exists line, In line lines /\ key = strip line
                  /\ key <> EmptyString /\ String.prefix "#" key = false.
Proof.
  induction lines as [|line rest IH]; intros keys key Hin; [now left|].
  cbn [read_keys] in Hin.
  destruct (String.eqb_spec (strip line) EmptyString) as [He|He];
    cbn [negb andb] in Hin.
  - destruct (IH _ _ Hin) as [Hk|(l & Hl & Hrest)]; [now left|].
    right. exists l. split; [now right|assumption].
  - destruct (String.prefix "#" (strip line)) eqn:Hp; cbn [negb] in Hin.
    + destruct (IH _ _ Hin) as [Hk|(l & Hl & Hrest)]; [now left|].
      right. exists l. split; [now right|assumption].
    + destruct (IH _ _ Hin) as [Hk|(l & Hl & Hrest)].
      * apply in_app_or in Hk as [Hk|[<-|[]]]; [now left|].
        right. exists line. repeat split; try assumption. now left.
      * right. exists l. split; [now right|assumption].
Qed.

Lemma read_keys_app (lines : list string) : forall keys,
  read_keys lines keys = keys ++ read_keys lines [].
Proof.
  induction lines as [|line rest IH]; intro keys; cbn [read_keys].
  - now rewrite app_nil_r.
  - destruct (_ && _); [|apply IH].
    rewrite IH, (IH ([] ++ _)). now rewrite <- app_assoc.
Qed.

End KeyFileMore.

(** X10: every key read from a key file is well formed: it is not empty,
    has no white space around it (U+0085 and U+00A0 count as white space),
    does not start with [#] and holds no line end, neither a line feed nor a
    carriage return. *)
Theorem read_api_keys_well_formed (file : Keys.key_file) (key : string) :
  In key (Keys.read_api_keys_from_file file) -> well_formed_key key.
Proof.
  destruct file as [content|]; [|intros []].
  cbn [Keys.read_api_keys_from_file]. intro Hin.
  apply read_keys_sound in Hin as [[]|(line & Hl & -> & Hne & Hhash)].
  pose proof (lines_ok_each _ (readlines_ok content) _ Hl) as Hlast.
  destruct (full_or_last_body _ Hlast) as (body & Hno & Hstrip).
  pose proof (readlines_clean content) as Hclean.
  rewrite forallb_forall in Hclean. specialize (Hclean _ Hl).
  split; [assumption|]. split; [apply strip_strip|].
  split; [assumption|]. split.
  - rewrite Hstrip.
    apply (no_newline_substring _ body); [apply strip_is_substring|assumption].
  - apply (no_carriage_return_substring _ line);
      [apply strip_is_substring|assumption].
Qed.

Lemma read_api_keys_well_formed_witness : well_formed_key "xabcd".
Proof.
  apply (read_api_keys_well_formed nested_keys_file).
  vm_compute. auto.
Defined.

Section KeyRoundTrip.

Import Keys.

Lemma split_lines_key_lines (keys : list string) :
  Forall well_formed_key keys ->
  split_lines (key_lines keys)
  = map (fun key => (key ++ String newline EmptyString)%string) keys.
Proof.
  induction 1 as [|key rest (_ & _ & _ & Hno & _) _ IH]; [reflexivity|].
  cbn [key_lines map]. now rewrite split_lines_full, IH.
Qed.

Lemma key_lines_clean (keys : list string) :
  Forall well_formed_key keys -> no_carriage_return (key_lines keys) = true.
Proof.
  induction 1 as [|key rest (_ & _ & _ & _ & Hcr) _ IH]; [reflexivity|].
  cbn [key_lines]. rewrite no_carriage_return_app, Hcr.
  cbn [no_carriage_return andb]. exact IH.
Qed.

Lemma readlines_key_lines (keys : list string) :
  Forall well_formed_key keys ->
  readlines (key_lines keys)
  = map (fun key => (key ++ String newline EmptyString)%string) keys.
Proof.
  intro Hwf. unfold readlines.
  rewrite universal_newlines_plain by now apply key_lines_clean.
  now apply split_lines_key_lines.
Qed.

Lemma read_keys_key_lines (keys : list string) :
  Forall well_formed_key keys ->
  read_keys (map (fun key => (key ++ String newline EmptyString)%string) keys) []
  = keys.
Proof.
  induction 1 as [|key rest (Hne & Hstrip & Hhash & _ & _) _ IH]; [reflexivity|].
  cbn [map read_keys]. rewrite strip_newline, Hstrip, Hhash.
  destruct (String.eqb_spec key EmptyString); [contradiction|].
  cbn [negb andb List.app]. rewrite read_keys_app, IH. reflexivity.
Qed.

Lemma strip_fixed_parts (key : string) :
  strip key = key -> lstrip key = key /\ rstrip key = key.
Proof.
  intro Hfix.
  destruct (lstrip_suffix key) as [before Hb].
  destruct (rstrip_prefix (lstrip key)) as [after Ha].
  unfold strip in Hfix. rewrite Hfix in Ha.
  pose proof (f_equal String.length Hb) as Hlb.
  pose proof (f_equal String.length Ha) as Hla.
  rewrite string_length_app in Hlb, Hla.
  destruct before; [|cbn [String.length] in Hlb; lia]. cbn [append] in Hb.
  split; [now symmetry|]. now rewrite <- Hb in Hfix.
Qed.

(** A key with no white space at its start that occurs in a text also
    occurs in the text stripped on the left. *)
Lemma substring_lstrip (key s : string) :
  key <> EmptyString -> lstrip key = key ->
  is_substring key s -> is_substring key (lstrip s).
Proof.
  intros Hne Hfix. induction s as [|c s IH]; [auto|].
  cbn [lstrip]. destruct (is_space c) eqn:Hc; [|auto].
  intros (before & after & Heq). destruct before as [|b before].
  - destruct key as [|k key']; [congruence|].
    cbn [append] in Heq. injection Heq as -> _.
    cbn [lstrip] in Hfix. rewrite Hc in Hfix.
    pose proof (lstrip_suffix key') as [pre Hpre].
    assert (Hlen : String.length (lstrip key') = S (String.length key'))
      by now rewrite Hfix.
    rewrite Hpre in Hlen at 2. rewrite string_length_app in Hlen. lia.
  - cbn [append] in Heq. injection Heq as _ ->. apply IH. now exists before, after.
Qed.

Lemma rstrip_keeps_prefix (key : string) : forall after,
  key <> EmptyString -> rstrip key = key ->
  exists after', rstrip (key ++ after) = (key ++ after')%string.
Proof.
  induction key as [|c key IH]; intros after Hne Hfix; [congruence|].
  cbn [append rstrip]. cbn [rstrip] in Hfix.
  destruct key as [|c' key'].
  - cbn [rstrip] in Hfix. destruct (is_space c) eqn:Hc; [discriminate|].
    cbn [append]. destruct (rstrip after) as [|a kept].
    + now exists EmptyString.
    + now exists (String a kept).
  - destruct (rstrip (String c' key')) as [|r kept] eqn:Hr.
    + destruct (is_space c); discriminate.
    + injection Hfix as -> ->.
      assert (Hne' : String c' key' <> EmptyString) by discriminate.
      destruct (IH after Hne' eq_refl) as [after' ->].
      exists after'. reflexivity.
Qed.

Lemma substring_rstrip (key s : string) :
  key <> EmptyString -> rstrip key = key ->
  is_substring key s -> is_substring key (rstrip s).
Proof.
  intros Hne Hfix. induction s as [|c s IH]; [auto|].
  intros (before & after & Heq). destruct before as [|b before].
  - cbn [append] in Heq. rewrite Heq.
    destruct (rstrip_keeps_prefix key after Hne Hfix) as [after' ->].
    now exists EmptyString, after'.
  - cbn [append] in Heq. injection Heq as _ ->.
    destruct (IH (ex_intro _ before (ex_intro _ after eq_refl)))
      as (before' & after' & Hkept).
    cbn [rstrip]. rewrite Hkept.
    destruct (before' ++ key ++ after')%string eqn:E.
    + destruct before'; [destruct key; [congruence|discriminate]|discriminate].
    + rewrite <- E. now exists (String c before'), after'.
Qed.

(** Such a key is in a line exactly when it is in the stripped line. *)
Lemma contains_strip (key line : string) :
  key <> EmptyString -> strip key = key ->
  contains key (strip line) = contains key line.
Proof.
  intros Hne Hfix. destruct (strip_fixed_parts key Hfix) as [Hl Hr].
  apply eq_true_iff_eq. rewrite !contains_is_substring. split.
  - intro H. apply (is_substring_trans _ _ _ H), strip_is_substring.
  - intro H. unfold strip.
    now apply substring_rstrip, substring_lstrip.
Qed.

Lemma read_keys_filter (key : string) (lines : list string) :
  key <> EmptyString -> strip key = key ->
  read_keys (filter (kept key) lines) []
  = filter (kept key) (read_keys lines []).
Proof.
  intros Hne Hfix.
  assert (Hstrip : forall line, kept key (strip line) = kept key line)
    by (intro line; unfold kept; now rewrite contains_strip).
  induction lines as [|line rest IH]; [reflexivity|].
  cbn [filter]. destruct (kept key line) eqn:Hk.
  - cbn [read_keys]. destruct (_ && _); [|exact IH].
    rewrite (read_keys_app (filter _ _)), (read_keys_app rest), filter_app.
    cbn [List.app filter]. rewrite Hstrip, Hk. cbn [List.app]. now rewrite IH.
  - cbn [read_keys]. destruct (_ && _); [|exact IH].
    rewrite (read_keys_app rest), filter_app.
    cbn [List.app filter]. rewrite Hstrip, Hk. exact IH.
Qed.

End KeyRoundTrip.

(** X11: keys that are well formed (not empty, no white space around them,
    not starting with [#], without line feed or carriage return) and written
    one per line are read back unchanged, in their order; so the keys read
    from any file, written back one per line, read back as themselves. *)
Theorem read_api_keys_round_trip (keys : list string) :
  Forall well_formed_key keys ->
  Keys.read_api_keys_from_file (Some (key_lines keys)) = keys.
Proof.
  intro Hwf. cbn [Keys.read_api_keys_from_file].
  rewrite readlines_key_lines by assumption.
  now apply read_keys_key_lines.
Qed.

Lemma read_api_keys_round_trip_witness :
  Keys.read_api_keys_from_file
    (Some (key_lines (Keys.read_api_keys_from_file nested_keys_file)))
  = Keys.read_api_keys_from_file nested_keys_file.
Proof.
  apply read_api_keys_round_trip.
  apply Forall_forall. intros key Hin.
  repeat destruct Hin as [<-|Hin]; try destruct Hin;
    (split; [discriminate|repeat split; reflexivity]).
Defined.

(** X12: removing from the key file a key that is not empty and has no
    white space around it removes from the keys the file yields exactly
    those that contain it, itself included, and keeps the others in their
    order. *)
Theorem remove_key_from_file_keys (key : string) (file : Keys.key_file) :
  key <> EmptyString -> Keys.strip key = key ->
  Keys.read_api_keys_from_file (Keys._remove_key_from_file key file)
  = filter (fun other => negb (Keys.contains key other))
      (Keys.read_api_keys_from_file file).
Proof.
  intros Hne Hfix. destruct file as [content|]; [|reflexivity].
  cbn [Keys._remove_key_from_file Keys.read_api_keys_from_file].
  rewrite rewritten_lines. now apply read_keys_filter.
Qed.

Lemma remove_key_from_file_keys_witness :
  Keys.read_api_keys_from_file (Keys._remove_key_from_file "abc" nested_keys_file)
  = filter (fun other => negb (Keys.contains "abc" other))
      (Keys.read_api_keys_from_file nested_keys_file).
Proof.
  apply remove_key_from_file_keys; [discriminate|reflexivity].
Defined.

(** X13: an insufficient-credit eviction of a key that is in the pool at
    most once leaves it neither in the pool nor among the keys of the key
    file, and leaves every other key in the pool as often as before. *)
Theorem eviction_of_single_key (e : exn) (key : string) (self : Keys.app) :
  Keys.insufficient_credit e = true ->
  (count_occ string_dec (Keys.api_keys self) key <= 1)%nat ->
  let after := Keys._handle_api_error e key self in
  ~ In key (Keys.api_keys after)
  /\ ~ In key (Keys.read_api_keys_from_file (Keys.api_file after))
  /\ (forall other, other <> key ->
        count_occ string_dec (Keys.api_keys after) other
        = count_occ string_dec (Keys.api_keys self) other).
Proof.
  intros He Hc after. split; [|split].
  - now apply eviction_pool_single.
  - now apply eviction_file.
  - intros other Hne. subst after.
    unfold Keys._handle_api_error, Keys.insufficient_credit in *.
    destruct e as [| | | | |code [details|]|]; try discriminate He.
    rewrite He. cbn [Keys.api_keys].
    destruct (Keys.mem key (Keys.api_keys self)); [|reflexivity].
    pose proof (remove_first_count key other (Keys.api_keys self)) as H1.
    pose proof (remove_first_count_le key other (Keys.api_keys self)) as H2.
    destruct (string_dec key other); [congruence|lia].
Qed.

Lemma eviction_of_single_key_witness :
  ~ In "KEY2"%string
      (Keys.api_keys (Keys._handle_api_error no_credit "KEY2" plain_pool))
  /\ ~ In "KEY2"%string
        (Keys.read_api_keys_from_file
           (Keys.api_file (Keys._handle_api_error no_credit "KEY2" plain_pool)))
  /\ (forall other, other <> "KEY2"%string ->
        count_occ string_dec
          (Keys.api_keys (Keys._handle_api_error no_credit "KEY2" plain_pool)) other
        = count_occ string_dec (Keys.api_keys plain_pool) other).
Proof.
  apply (eviction_of_single_key no_credit "KEY2" plain_pool).
  - reflexivity.
  - vm_compute. lia.
Defined.

(** X14: pool and key file disagree after the eviction of a key that is
    part of another one: the other key stays in the pool, the exact key
    alone being taken out of it, but its line goes from the key file, which
    loses every line holding the evicted text. *)
Theorem eviction_drops_containing_key
    (e : exn) (key other : string) (self : Keys.app) :
  Keys.insufficient_credit e = true ->
  other <> key -> Keys.is_substring key other ->
  In other (Keys.api_keys self) ->
  let after := Keys._handle_api_error e key self in
  In other (Keys.api_keys after)
  /\ ~ In other (Keys.read_api_keys_from_file (Keys.api_file after)).
Proof.
  intros He Hne Hsub Hin after. subst after.
  unfold Keys._handle_api_error, Keys.insufficient_credit in *.
  destruct e as [| | | | |code [details|]|]; try discriminate He.
  rewrite He. cbn [Keys.api_keys Keys.api_file]. split.
  - destruct (Keys.mem key (Keys.api_keys self)); [|assumption].
    now apply remove_first_keeps.
  - destruct (Keys.api_file self) as [content|]; [|auto].
    cbn [Keys._remove_key_from_file Keys.read_api_keys_from_file]. intro Hread.
    apply read_keys_from_lines in Hread as [[]|(line & Hl & Hline)].
    rewrite rewritten_lines in Hl. apply filter_In in Hl as [_ Hkept].
    pose proof (is_substring_trans _ _ _ Hsub Hline) as Hkey.
    apply contains_is_substring in Hkey. unfold Keys.kept in Hkept.
    rewrite Hkey in Hkept. discriminate Hkept.
Qed.

Lemma eviction_drops_containing_key_witness :
  In "xabcd"%string
    (Keys.api_keys (Keys._handle_api_error no_credit "abc" nested_pool))
  /\ ~ In "xabcd"%string
        (Keys.read_api_keys_from_file
           (Keys.api_file (Keys._handle_api_error no_credit "abc" nested_pool))).
Proof.
  apply (eviction_drops_containing_key no_credit "abc" "xabcd" nested_pool).
  - reflexivity.
  - discriminate.
  - now exists "x"%string, "d"%string.
  - vm_compute. auto.
Defined.

(** ** The tempo chain: shape, and the transcoder as the pipeline calls it *)

Section TempoMore.

Import Transcode.

Lemma Qdiv_nonzero (x y : Q) : ~ x == 0 -> ~ y == 0 -> ~ x / y == 0.
Proof.
  intros Hx Hy H. apply Hx.
  assert (Hm : x == x / y * y) by (field; assumption).
  rewrite H in Hm. rewrite Hm. ring.
Qed.

Lemma tempo_loops_shape (a : Q) :
  0 < a ->
  exists (halvings doublings : nat) (leftover : Q),
    (forall fuel, (loop_fuel a <= fuel)%nat ->
       tempo_loops fuel a
       = Some (repeat "atempo=2.0"%string halvings
               ++ repeat "atempo=0.5"%string doublings, leftover))
    /\ (halvings = 0 \/ doublings = 0)%nat
    /\ leftover * pow2 halvings == a * pow2 doublings
    /\ (2 < a -> 1 < leftover /\ leftover <= 2)
    /\ (a < 0.5 -> 0.5 <= leftover /\ leftover < 1)
    /\ (0.5 <= a -> a <= 2 ->
        halvings = 0%nat /\ doublings = 0%nat /\ leftover = a).
Proof.
  intro Ha.
  set (n1 := Z.to_nat (Z.log2 (Qnum a))).
  set (n2 := Z.to_nat (Z.log2 (Zpos (Qden a)))).
  destruct (halve_loop_ends n1 [] a (loop_fuel_halve a Ha))
    as (h & r1 & _ & Hrun1 & Hr1 & Hle1 & Hsmall1 & Hbig1).
  assert (Hpre : 1 <= r1 * pow2 (S n2)).
  { destruct (Qlt_le_dec 2 a) as [Hgt|Hsm].
    - specialize (Hbig1 Hgt). pose proof (pow2_ge_1 (S n2)). nra.
    - destruct (Hsmall1 Hsm) as [_ ->]. now apply loop_fuel_double. }
  destruct (double_loop_ends n2 (repeat "atempo=2.0"%string h) r1 Hpre)
    as (d & r & _ & Hrun2 & Hr & Hge & Hsmall2 & Hbig2).
  exists h, d, r. repeat apply conj.
  - intros fuel Hfuel. unfold loop_fuel in Hfuel. fold n1 n2 in Hfuel.
    unfold tempo_loops.
    rewrite (halve_loop_more_fuel _ _ _ _ fuel Hrun1) by lia.
    cbn [List.app] in *.
    now rewrite (double_loop_more_fuel _ _ _ _ fuel Hrun2) by lia.
  - destruct (Qlt_le_dec 2 a) as [Hgt|Hsm].
    + right. apply Hsmall2. specialize (Hbig1 Hgt). lra.
    + left. apply (Hsmall1 Hsm).
  - rewrite Hr, <- Hr1. ring.
  - intro Hgt. specialize (Hbig1 Hgt).
    destruct (Hsmall2 ltac:(lra)) as [_ ->]. split; assumption.
  - intro Hlt. destruct (Hsmall1 ltac:(lra)) as [_ ->].
    split; [assumption|now apply Hbig2].
  - intros Hlo Hhi. destruct (Hsmall1 Hhi) as [-> ->].
    destruct (Hsmall2 Hlo) as [-> ->]. auto.
Qed.

Lemma atempo_chain_unit (a : Q) (fuel : nat) :
  a == 1 -> atempo_chain (S fuel) a = Some [].
Proof.
  intro Ha. unfold atempo_chain, tempo_loops.
  rewrite halve_loop_S.
  assert (H2 : Qlt_bool 2.0 a = false) by (apply Qlt_bool_false_iff; lra).
  rewrite H2, double_loop_S.
  assert (H5 : Qlt_bool a 0.5 = false) by (apply Qlt_bool_false_iff; lra).
  rewrite H5.
  assert (H1 : Qeq_bool a 1.0 = true) by (apply Qeq_bool_iff; lra).
  now rewrite H1.
Qed.

End TempoMore.

(** X15: on a factor [a > 0] the chain never mixes the two fixed stages:
    above 2 it is made of [atempo=2.0] stages and a leftover in (1, 2],
    below 0.5 of [atempo=0.5] stages and a leftover in [0.5, 1), and from
    0.5 to 2 the factor itself is the leftover; the leftover times 2 to the
    number of halvings equals [a] times 2 to the number of doublings. *)
Theorem tempo_chain_shape (a : Q) :
  0 < a ->
  exists (halvings doublings : nat) (leftover : Q),
    (forall fuel, (Transcode.loop_fuel a <= fuel)%nat ->
       Transcode.tempo_loops fuel a
       = Some (repeat "atempo=2.0"%string halvings
               ++ repeat "atempo=0.5"%string doublings, leftover))
    /\ (halvings = 0 \/ doublings = 0)%nat
    /\ leftover * Transcode.pow2 halvings == a * Transcode.pow2 doublings
    /\ (2 < a -> 1 < leftover /\ leftover <= 2)
    /\ (a < 0.5 -> 0.5 <= leftover /\ leftover < 1)
    /\ (0.5 <= a -> a <= 2 ->
        halvings = 0%nat /\ doublings = 0%nat /\ leftover = a).
Proof. exact (tempo_loops_shape a). Qed.

Lemma tempo_chain_shape_witness :
  exists (halvings doublings : nat) (leftover : Q),
    (forall fuel, (Transcode.loop_fuel 9 <= fuel)%nat ->
       Transcode.tempo_loops fuel 9
       = Some (repeat "atempo=2.0"%string halvings
               ++ repeat "atempo=0.5"%string doublings, leftover))
    /\ (halvings = 0 \/ doublings = 0)%nat
    /\ leftover * Transcode.pow2 halvings == 9 * Transcode.pow2 doublings
    /\ (2 < 9 -> 1 < leftover /\ leftover <= 2)
    /\ (9 < 0.5 -> 0.5 <= leftover /\ leftover < 1)
    /\ (0.5 <= 9 -> 9 <= 2 ->
        halvings = 0%nat /\ doublings = 0%nat /\ leftover = 9).
Proof.
  apply (tempo_chain_shape 9). reflexivity.
Defined.

(** X16: for a factor [a > 0] the chain is empty, and the audio filter is
    the pass-through [anull], exactly when [a] equals 1. *)
Theorem atempo_chain_empty_iff (a : Q) :
  0 < a ->
  (Transcode.atempo_chain (Transcode.loop_fuel a) a = Some [] <-> a == 1).
Proof.
  intro Ha. split.
  - destruct (tempo_loops_shape a Ha)
      as (h & d & r & Hrun & _ & Hrel & _ & _ & _).
    unfold Transcode.atempo_chain. rewrite (Hrun _ (Nat.le_refl _)).
    destruct (Qeq_bool r 1.0) eqn:Hone; cbn [negb].
    + intros [= Hnil]. apply app_eq_nil in Hnil as [Hh Hd].
      destruct h; [|discriminate Hh]. destruct d; [|discriminate Hd].
      apply Qeq_bool_iff in Hone.
      rewrite pow2_0 in Hrel. lra.
    + intros [= Hnil]. apply app_eq_nil in Hnil as [_ Hnil]. discriminate Hnil.
  - intro Hone. unfold Transcode.loop_fuel. now apply atempo_chain_unit.
Qed.

Lemma atempo_chain_empty_iff_witness :
  Transcode.atempo_chain (Transcode.loop_fuel (30 / 30)) (30 / 30) = Some [].
Proof.
  apply (proj2 (atempo_chain_empty_iff (30 / 30) eq_refl)). reflexivity.
Defined.

Lemma truediv_finite (x y : Q) :
  ~ x == 0 -> ~ y == 0 ->
  Transcode.truediv (Float64.Fin x) (Float64.Fin y)
  = Ok (Float64.of_real (x / y)).
Proof.
  intros Hx Hy. unfold Transcode.truediv, Float64.truediv.
  cbn [Float64.is_zero].
  now rewrite (Qeq_bool_nonzero y Hy), (Qeq_bool_nonzero x Hx).
Qed.


Lemma truediv_by_nonzero (x y : Float64.float) :
  Float64.is_zero y = false -> exists z, Transcode.truediv x y = Ok z.
Proof.
  intro Hz. unfold Transcode.truediv, Float64.truediv. rewrite Hz. eauto.
Qed.

(** X17: as [_process_videos] calls the transcoder, with the desired
    duration equal to the original one, a video with usable audio and valid
    durations whose quotient is neither huge nor tiny gets the combined
    filter graph in which the audio passes through [anull] untouched and
    the video is rescaled by the double nearest to 1 / (produced /
    original), which is original / produced up to a relative error of
    [2 ** -51]. *)
Theorem factor_block_as_called
    (meta : Transcode.VideoMetadata) (original_duration : Q)
    (sharp_filter : option string) (c : Transcode.cmd) :
  0 < Transcode.duration meta -> 0 < original_duration ->
  Float64.exp2 (-1021) <= Transcode.duration meta / original_duration ->
  Transcode.duration meta / original_duration <= Float64.exp2 1021 ->
  exists pts,
    pts = Float64.nearest
            (1.0 / Float64.nearest
                     (Transcode.duration meta
                      / desired_final_duration original_duration))
    /\ Qabs (pts - original_duration / Transcode.duration meta)
       <= 4 * Float64.unit_roundoff
          * (original_duration / Transcode.duration meta)
    /\ Transcode.factor_block (Ok meta) true false original_duration
         (desired_final_duration original_duration) sharp_filter c
       = (c ++ ["-filter_complex";
                "[0:v]" ++ Transcode.compose_video_filter sharp_filter
                             (Transcode.setpts (Float64.Fin pts))
                ++ "[v];[1:a]anull[a]";
                "-map"; "[v]"; "-map"; "[a]"]%string,
          Transcode.Done tt).
Proof.
  intros Htemp Horig Hlo Hhi.
  set (desired := desired_final_duration original_duration).
  assert (Hd : desired == original_duration)
    by (unfold desired, desired_final_duration, slow_motion_factor; ring).
  assert (Hdpos : 0 < desired) by (rewrite Hd; assumption).
  assert (Hq : Transcode.duration meta / desired
               == Transcode.duration meta / original_duration)
    by (rewrite Hd; reflexivity).
  assert (Hr : desired / Transcode.duration meta
               == original_duration / Transcode.duration meta)
    by (rewrite Hd; reflexivity).
  rewrite <- Hq in Hlo, Hhi.
  destruct (video_factors_rounded (Transcode.duration meta) desired
              Htemp Hdpos Hlo Hhi)
    as (speed & pts & Hrun & -> & Hpts & _ & Hnear & _).
  exists pts. split; [exact Hpts|]. split.
  - rewrite <- Hr. exact Hnear.
  - assert (Haudio : Transcode.truediv (Float64.Fin original_duration)
                       (Float64.Fin desired)
                     = Ok (Float64.Fin 1)).
    { rewrite truediv_finite by lra.
      rewrite of_real_one; [reflexivity|]. rewrite Hd. field. lra. }
    unfold Transcode.factor_block, Transcode.try_except, Transcode.factor_body,
      Transcode.bind, Transcode.lift, Transcode.ends, Transcode.extend,
      Transcode.video_has_audio.
    apply Qlt_bool_iff in Htemp, Horig. rewrite Htemp, Horig.
    cbn [andb negb]. rewrite Hrun, Haudio. reflexivity.
Qed.

Lemma factor_block_as_called_witness :
  exists pts,
    pts = Float64.nearest
            (1.0 / Float64.nearest (10.5 / desired_final_duration 10))
    /\ Qabs (pts - 10 / 10.5) <= 4 * Float64.unit_roundoff * (10 / 10.5)
    /\ Transcode.factor_block (Ok (probed 10.5)) true false 10
         (desired_final_duration 10) sample_sharpen sample_cmd
       = (sample_cmd
          ++ ["-filter_complex";
              "[0:v]" ++ Transcode.compose_video_filter sample_sharpen
                           (Transcode.setpts (Float64.Fin pts))
              ++ "[v];[1:a]anull[a]";
              "-map"; "[v]"; "-map"; "[a]"]%string,
          Transcode.Done tt).
Proof.
  assert (Htemp : 0 < Transcode.duration (probed 10.5)) by reflexivity.
  assert (Horig : 0 < 10) by reflexivity.
  assert (Hlo : Float64.exp2 (-1021) <= Transcode.duration (probed 10.5) / 10)
    by (apply Qle_bool_iff; vm_compute; reflexivity).
  assert (Hhi : Transcode.duration (probed 10.5) / 10 <= Float64.exp2 1021)
    by (apply Qle_bool_iff; vm_compute; reflexivity).
  exact (factor_block_as_called (probed 10.5) 10 sample_sharpen sample_cmd
           Htemp Horig Hlo Hhi).
Defined.




Section Overflow.

Import Float64.

(** The number is below the next power of two. *)
Lemma ilog2_lt (q : Q) : Qabs q < exp2 (ilog2 q + 1).
Proof.
  unfold ilog2.
  set (n := Z.abs (Qnum q)). set (d := Zpos (Qden q)).
  destruct (Qle_bool (exp2 (Z.log2 n - Z.log2 d)) (Qabs q)) eqn:E.
  - assert (Hd : (0 < d)%Z) by (unfold d; lia).
    destruct (Z.log2_spec d Hd) as [Hd1 _].
    pose proof (Z.log2_nonneg n) as Hln. pose proof (Z.log2_nonneg d) as Hld.
    assert (Hn2 : (n < 2 ^ (Z.log2 n + 1))%Z).
    { destruct (Z.eq_dec n 0) as [->|Hnz]; [reflexivity|].
      assert (Hn : (0 < n)%Z) by (unfold n in *; lia).
      destruct (Z.log2_spec n Hn) as [_ H].
      now replace (Z.succ (Z.log2 n)) with (Z.log2 n + 1)%Z in H by lia. }
    assert (Hsplit : exp2 (Z.log2 n - Z.log2 d + 1) * exp2 (Z.log2 d)
                     == exp2 (Z.log2 n + 1)).
    { rewrite <- exp2_add.
      replace (Z.log2 n - Z.log2 d + 1 + Z.log2 d)%Z with (Z.log2 n + 1)%Z
        by lia.
      reflexivity. }
    rewrite (exp2_nat (Z.log2 n + 1)) in Hsplit by lia.
    rewrite (exp2_nat (Z.log2 d)) in Hsplit by assumption.
    assert (Habs : Qabs q == inject_Z n / inject_Z d).
    { destruct q as [nq dq]. unfold n, d, Qabs. cbn [Qnum Qden].
      unfold Qeq, Qdiv, Qmult, Qinv, inject_Z. cbn [Qnum Qden].
      destruct (Z.abs nq); cbn; lia. }
    rewrite Habs. apply Qlt_shift_div_r; [unfold Qlt; cbn; lia|].
    set (x := exp2 (Z.log2 n - Z.log2 d + 1)) in *.
    assert (Hx : 0 < x) by apply exp2_pos.
    assert (Hdq : inject_Z (2 ^ Z.log2 d) <= inject_Z d)
      by (rewrite <- Zle_Qle; lia).
    assert (Hnq : inject_Z n < inject_Z (2 ^ (Z.log2 n + 1)))
      by (rewrite <- Zlt_Qlt; lia).
    nra.
  - apply Qle_bool_false_iff in E.
    now replace (Z.log2 n - Z.log2 d - 1 + 1)%Z with (Z.log2 n - Z.log2 d)%Z
      by lia.
Qed.

(** A quotient of [2 ** 1024] or more overflows to [inf]. *)
Lemma of_real_overflow (q : Q) : exp2 1024 <= q -> of_real q = Inf false.
Proof.
  intro Hq. pose proof (exp2_pos 1024) as Hpos.
  assert (Hqpos : 0 < q) by lra.
  assert (Habs : Qabs q == q) by (apply Qabs_pos; lra).
  assert (Hlog : (1024 <= ilog2 q)%Z).
  { destruct (Z.le_gt_cases 1024 (ilog2 q)) as [H|H]; [exact H|exfalso].
    pose proof (ilog2_lt q) as Hlt. rewrite Habs in Hlt.
    assert (Hmono : exp2 (ilog2 q + 1) <= exp2 1024)
      by (apply Qpower_le_compat_l; [lia|discriminate]).
    lra. }
  assert (Hulp : ulp_exponent q = (ilog2 q - 52)%Z)
    by (unfold ulp_exponent; lia).
  assert (Hnz : ~ q == 0) by lra.
  pose proof (ilog2_le q Hnz) as Hle. rewrite Habs in Hle.
  assert (Hsplit : exp2 (ilog2 q) == inject_Z (2 ^ 52) * exp2 (ilog2 q - 52)).
  { rewrite <- (exp2_nat 52) by lia. rewrite <- exp2_add.
    now replace (52 + (ilog2 q - 52))%Z with (ilog2 q) by lia. }
  assert (Hm : (2 ^ 52 <= round_half_even (q / exp2 (ilog2 q - 52)))%Z).
  { apply round_half_even_ge. apply Qle_shift_div_l; [apply exp2_pos|].
    now rewrite <- Hsplit. }
  assert (Hbig : exp2 1024 <= nearest q).
  { rewrite nearest_value, Hulp.
    assert (Hmono : exp2 1024 <= exp2 (ilog2 q))
      by (apply Qpower_le_compat_l; [lia|discriminate]).
    rewrite Zle_Qle in Hm.
    pose proof (exp2_pos (ilog2 q - 52)) as HE.
    set (x := inject_Z (round_half_even _)) in *.
    set (E := exp2 (ilog2 q - 52)) in *.
    set (c := inject_Z (2 ^ 52)) in *. nra. }
  assert (Hlargest : largest < exp2 1024)
    by (apply Qlt_bool_iff; vm_compute; reflexivity).
  unfold of_real.
  assert (Hover : Qlt_bool largest (Qabs (nearest q)) = true).
  { apply Qlt_bool_iff. rewrite Qabs_pos by lra. lra. }
  assert (Hsign : Qlt_bool q 0 = false) by (apply Qlt_bool_false_iff; lra).
  now rewrite Hover, Hsign.
Qed.

(** A positive real of at least [2 ** -1074] does not round to zero. *)
Lemma of_real_positive_nonzero (q : Q) :
  exp2 (-1074) <= q -> is_zero (of_real q) = false.
Proof.
  intro Hq. pose proof (exp2_pos (-1074)) as Hpos.
  assert (Hqpos : 0 < q) by lra.
  assert (Hm : (1 <= round_half_even (q / exp2 (ulp_exponent q)))%Z).
  { apply round_half_even_ge. change (inject_Z 1) with 1.
    set (E := exp2 (ulp_exponent q)).
    assert (HE : 0 < E) by apply exp2_pos.
    assert (Hulp : E <= q).
    { unfold E, ulp_exponent.
      destruct (Z.max_spec (ilog2 q - 52) (-1074)) as [[_ ->]|[_ ->]]; [lra|].
      replace (ilog2 q - 52)%Z with (ilog2 q + -52)%Z by lia.
      rewrite exp2_add.
      assert (Hnz : ~ q == 0) by lra.
      pose proof (ilog2_le q Hnz) as Hle.
      rewrite Qabs_pos in Hle by lra.
      assert (H52 : exp2 (-52) <= 1)
        by (apply Qle_bool_iff; vm_compute; reflexivity).
      pose proof (exp2_pos (ilog2 q)). pose proof (exp2_pos (-52)). nra. }
    apply Qle_shift_div_l; [assumption|]. lra. }
  assert (Hr : 0 < nearest q).
  { rewrite nearest_value. rewrite Zle_Qle in Hm.
    change (inject_Z 1) with 1 in Hm.
    pose proof (exp2_pos (ulp_exponent q)).
    set (x := inject_Z _) in *. set (E := exp2 _) in *. nra. }
  unfold of_real.
  assert (Hsign : Qlt_bool q 0 = false) by (apply Qlt_bool_false_iff; lra).
  rewrite Hsign, andb_false_r.
  destruct (Qlt_bool largest (Qabs (nearest q))); [reflexivity|].
  cbn [is_zero]. apply Qeq_bool_nonzero. lra.
Qed.

End Overflow.

(** X27: with usable audio and positive durations, a desired duration so
    small that original / desired reaches [2 ** 1024] makes the transcoder
    hang: the audio factor overflows to [inf], which stays above 2.0
    however often it is halved, and the block neither returns nor raises. *)
Theorem factor_block_hangs_on_overflow
    (meta : Transcode.VideoMetadata) (original_duration desired_duration : Q)
    (sharp_filter : option string) (c : Transcode.cmd) :
  0 < Transcode.duration meta -> 0 < original_duration ->
  0 < desired_duration ->
  Float64.exp2 (-1074) <= Transcode.duration meta / desired_duration ->
  Float64.exp2 1024 <= original_duration / desired_duration ->
  Transcode.factor_block (Ok meta) true false original_duration
    desired_duration sharp_filter c
  = (c, Transcode.Hangs).
Proof.
  intros Htemp Horig Hdes Hspeed Haudio.
  unfold Transcode.factor_block, Transcode.try_except, Transcode.factor_body,
    Transcode.bind, Transcode.lift, Transcode.ends, Transcode.extend,
    Transcode.video_factors, Transcode.video_has_audio.
  pose proof Htemp as Htemp_b. pose proof Horig as Horig_b.
  apply Qlt_bool_iff in Htemp_b, Horig_b. rewrite Htemp_b, Horig_b.
  cbn [andb negb].
  rewrite (truediv_finite (Transcode.duration meta) desired_duration) by lra.
  rewrite (truediv_finite original_duration desired_duration) by lra.
  destruct (truediv_by_nonzero (Float64.Fin 1.0) _
              (of_real_positive_nonzero _ Hspeed)) as [pts ->].
  now rewrite (of_real_overflow _ Haudio).
Qed.

Lemma factor_block_hangs_on_overflow_witness :
  Transcode.factor_block (Ok (probed 10.5)) true false
    (inject_Z (2 ^ 1023)) 0.25 None sample_cmd
  = (sample_cmd, Transcode.Hangs).
Proof.
  assert (Htemp : 0 < Transcode.duration (probed 10.5)) by reflexivity.
  assert (Horig : 0 < inject_Z (2 ^ 1023)) by reflexivity.
  assert (Hdes : 0 < 0.25) by reflexivity.
  assert (Hspeed : Float64.exp2 (-1074)
                   <= Transcode.duration (probed 10.5) / 0.25)
    by (apply Qle_bool_iff; vm_compute; reflexivity).
  assert (Haudio : Float64.exp2 1024 <= inject_Z (2 ^ 1023) / 0.25)
    by (apply Qle_bool_iff; vm_compute; reflexivity).
  exact (factor_block_hangs_on_overflow (probed 10.5) (inject_Z (2 ^ 1023))
           0.25 None sample_cmd Htemp Horig Hdes Hspeed Haudio).
Defined.

(** ** Source metadata: bit rate, smart pick and validation *)





(** X20: a probed video is accepted for the queue exactly when its duration
    lies in [5, 60] seconds and its resolution is 1280x720 or at least
    1920 wide and 1080 high; the message is then [OK]; a failed probe is a
    rejection carrying the text of the exception. *)
Theorem validate_video_accepts
    (exn_text : exn -> string) (probe : result Transcode.VideoMetadata) :
  (fst (_validate_video_for_adobe exn_text probe) = true <->
   exists metadata,
     probe = Ok metadata
     /\ 5 <= Transcode.duration metadata /\ Transcode.duration metadata <= 60
     /\ ((Transcode.width metadata = 1280 /\ Transcode.height metadata = 720)%Z
         \/ (1920 <= Transcode.width metadata
             /\ 1080 <= Transcode.height metadata)%Z))
  /\ (fst (_validate_video_for_adobe exn_text probe) = true ->
      snd (_validate_video_for_adobe exn_text probe) = "OK"%string)
  /\ (forall e, probe = Raise e ->
        _validate_video_for_adobe exn_text probe = (false, exn_text e)).
Proof.
  destruct probe as [metadata|e]; cbn [_validate_video_for_adobe].
  2:{ split; [|split].
      - split; [discriminate|]. intros (m & H & _). discriminate.
      - discriminate.
      - now intros e' [= <-]. }
  set (w := Transcode.width metadata). set (h := Transcode.height metadata).
  set (d := Transcode.duration metadata).
  change (inject_Z ADOBE_MIN_DURATION) with 5.
  change (inject_Z ADOBE_MAX_DURATION) with 60.
  assert (Hres : negb (resolution_listed w h)
                 && ((w <? 1920)%Z || (h <? 1080)%Z) = false
                 <-> (w = 1280 /\ h = 720)%Z \/ (1920 <= w /\ 1080 <= h)%Z).
  { unfold resolution_listed, valid_resolutions. cbn [existsb fst snd].
    destruct (Z.eqb_spec 1920 w), (Z.eqb_spec 1080 h), (Z.eqb_spec 3840 w),
      (Z.eqb_spec 2160 h), (Z.eqb_spec 1280 w), (Z.eqb_spec 720 h),
      (Z.ltb_spec w 1920), (Z.ltb_spec h 1080); cbn; split; intro;
      try discriminate; try lia; try reflexivity. }
  assert (Hshape :
    fst (_validate_video_for_adobe exn_text (Ok metadata)) = true
    <-> (Qlt_bool d 5 = false /\ Qlt_bool 60 d = false)
        /\ negb (resolution_listed w h)
           && ((w <? 1920)%Z || (h <? 1080)%Z) = false).
  { cbn [_validate_video_for_adobe]. fold w h d.
    change (inject_Z ADOBE_MIN_DURATION) with 5.
    change (inject_Z ADOBE_MAX_DURATION) with 60.
    destruct (Qlt_bool d 5), (Qlt_bool 60 d), (negb (resolution_listed w h)),
      ((w <? 1920)%Z || (h <? 1080)%Z); cbn; intuition discriminate. }
  cbn [_validate_video_for_adobe] in Hshape. fold w h d in Hshape.
  change (inject_Z ADOBE_MIN_DURATION) with 5 in Hshape.
  change (inject_Z ADOBE_MAX_DURATION) with 60 in Hshape.
  split; [|split].
  - rewrite Hshape, Hres, !Qlt_bool_false_iff. split.
    + intros [[H5 H60] Hr]. exists metadata. auto.
    + intros (m & [= <-] & H5 & H60 & Hr). auto.
  - destruct (Qlt_bool d 5), (Qlt_bool 60 d), (negb (resolution_listed w h)),
      ((w <? 1920)%Z || (h <? 1080)%Z); cbn; try discriminate; reflexivity.
  - discriminate.
Qed.

Lemma validate_video_accepts_witness :
  fst (_validate_video_for_adobe exn_name (Ok hd_clip)) = true.
Proof.
  apply (proj2 (proj1 (validate_video_accepts exn_name (Ok hd_clip)))).
  exists hd_clip. repeat split; try (left; split; reflexivity); discriminate.
Defined.

(** ** The queue and the log history *)

Section QueueMore.

Import Queue.

Variable accepts : string -> bool.

Lemma choose_videos_added (files : list string) : forall input_files,
  exists added,
    _choose_videos accepts files input_files = input_files ++ added
    /\ (forall file, In file added <->
          In file files /\ ~ In file input_files /\ accepts file = true)
    /\ (NoDup input_files -> NoDup (input_files ++ added)).
Proof.
  induction files as [|file rest IH]; intro input_files.
  - exists []. rewrite app_nil_r. split; [reflexivity|]. split; [|auto].
    intro f. split; [intros []|intros [[] _]].
  - cbn [_choose_videos].
    destruct (Keys.mem file input_files) eqn:Hm; cbn [negb].
    + apply mem_In in Hm.
      destruct (IH input_files) as (added & -> & Hadd & Hnd).
      exists added. split; [reflexivity|]. split; [|assumption].
      intro f. rewrite Hadd. split.
      * intros (Hf & Hnot & Hacc). auto with datatypes.
      * intros ([<-|Hf] & Hnot & Hacc); [contradiction|auto].
    + assert (Hnot : ~ In file input_files)
        by (intro H; apply mem_In in H; congruence).
      destruct (accepts file) eqn:Hacc.
      * destruct (IH (input_files ++ [file])) as (added & -> & Hadd & Hnd).
        exists (file :: added). rewrite <- app_assoc. split; [reflexivity|]. split.
        -- intro f. cbn [In]. rewrite Hadd, in_app_iff. cbn [In]. split.
           ++ intros [<-|(Hf & Hn & Ha)]; [auto|]. repeat split; auto.
           ++ intros ([<-|Hf] & Hn & Ha); [now left|].
              destruct (string_dec file f) as [->|Hne]; [now left|].
              right. repeat split; auto. intros [H|[H|[]]]; auto.
        -- intro Hq. rewrite <- app_assoc in Hnd. apply Hnd.
           apply NoDup_app; [assumption|repeat constructor; auto| ].
           intros x Hx [<-|[]]. contradiction.
      * destruct (IH input_files) as (added & -> & Hadd & Hnd).
        exists added. split; [reflexivity|]. split; [|assumption].
        intro f. rewrite Hadd. split.
        -- intros (Hf & Hn & Ha). auto with datatypes.
        -- intros ([<-|Hf] & Hn & Ha); [congruence|auto].
Qed.

End QueueMore.

Lemma choose_videos_added_once (accepts : string -> bool) (files : list string) :
  forall input_files added,
    Queue._choose_videos accepts files input_files = input_files ++ added ->
    NoDup added.
Proof.
  induction files as [|file rest IH]; intros input_files added Hrun.
  - cbn in Hrun. rewrite <- (app_nil_r input_files) in Hrun at 1.
    apply app_inv_head in Hrun. subst. constructor.
  - cbn [Queue._choose_videos] in Hrun.
    destruct (Keys.mem file input_files) eqn:Hm; cbn [negb] in Hrun;
      [now apply (IH input_files added)|].
    destruct (accepts file) eqn:Hacc; [|now apply (IH input_files added)].
    destruct (choose_videos_added accepts rest (input_files ++ [file]))
      as (added' & Hrun' & Hadd' & _).
    pose proof (IH _ _ Hrun') as Hnd_added.
    rewrite Hrun', <- app_assoc in Hrun. apply app_inv_head in Hrun.
    subst added. cbn [List.app]. constructor; [|assumption].
    intro Hin. apply Hadd' in Hin as (_ & Hnot & _).
    apply Hnot, in_or_app. right. now left.
Qed.

Section FirstOccurrences.

Lemma nodup_last (x : string) (l : list string) :
  nodup string_dec (l ++ [x]) = nodup string_dec (remove string_dec x l) ++ [x].
Proof.
  induction l as [|a l IH]; [reflexivity|].
  cbn [List.app nodup remove].
  destruct (string_dec x a) as [<-|Hne].
  - destruct (in_dec string_dec x (l ++ [x])) as [_|Hnot]; [exact IH|].
    exfalso. apply Hnot, in_or_app. right. now left.
  - cbn [nodup]. rewrite IH.
    destruct (in_dec string_dec a (l ++ [x])) as [Hin|Hnot];
      destruct (in_dec string_dec a (remove string_dec x l)) as [Hin'|Hnot'];
      try reflexivity.
    + exfalso. apply Hnot'. apply in_in_remove; [congruence|].
      apply in_app_or in Hin as [Hin|[Heq|[]]]; [assumption|congruence].
    + exfalso. apply Hnot, in_or_app. left.
      now apply in_remove in Hin' as [Hin' _].
Qed.

Lemma remove_rev (x : string) (l : list string) :
  remove string_dec x (rev l) = rev (remove string_dec x l).
Proof.
  induction l as [|a l IH]; [reflexivity|].
  cbn [rev remove]. rewrite remove_app, IH. cbn [remove].
  destruct (string_dec x a); cbn [rev]; [now rewrite app_nil_r|reflexivity].
Qed.

Lemma first_occurrences_cons (x : string) (l : list string) :
  first_occurrences (x :: l) = x :: first_occurrences (remove string_dec x l).
Proof.
  unfold first_occurrences. cbn [rev].
  rewrite nodup_last, rev_app_distr, remove_rev. reflexivity.
Qed.

Lemma remove_filter (x : string) (p : string -> bool) (l : list string) :
  remove string_dec x (filter p l)
  = filter (fun y => p y && negb (String.eqb y x)) l.
Proof.
  induction l as [|a l IH]; [reflexivity|].
  cbn [filter]. destruct (p a); cbn [andb remove].
  - destruct (string_dec x a) as [<-|Hne].
    + rewrite String.eqb_refl. exact IH.
    + destruct (String.eqb_spec a x); [congruence|]. cbn [negb].
      now rewrite IH.
  - exact IH.
Qed.

Lemma mem_app_last (x y : string) (queue : list string) :
  Keys.mem x (queue ++ [y]) = Keys.mem x queue || String.eqb x y.
Proof.
  unfold Keys.mem. rewrite existsb_app. cbn [existsb]. now rewrite orb_false_r.
Qed.

(** The queue after the files picked: the new ones, in the order of their
    first pick. *)
Lemma choose_videos_in_order (accepts : string -> bool) (files : list string) :
  forall input_files,
    Queue._choose_videos accepts files input_files
    = input_files
      ++ first_occurrences
           (filter (fun file => negb (Keys.mem file input_files) && accepts file)
              files).
Proof.
  induction files as [|file rest IH]; intro input_files.
  - cbn. now rewrite app_nil_r.
  - cbn [Queue._choose_videos filter].
    destruct (Keys.mem file input_files) eqn:Hm; cbn [negb andb]; [apply IH|].
    destruct (accepts file) eqn:Hacc; [|apply IH].
    rewrite IH, first_occurrences_cons, remove_filter, <- app_assoc.
    cbn [List.app]. do 3 f_equal. apply filter_ext. intro y.
    rewrite mem_app_last, negb_orb.
    destruct (Keys.mem y input_files), (accepts y), (String.eqb y file);
      reflexivity.
Qed.

End FirstOccurrences.

(** X21: choosing videos appends to the queue exactly the picked files that
    were not queued yet and that the validation accepts, each once, in the
    order in which they were first picked; a queue without duplicates stays
    without. *)
Theorem choose_videos_appends
    (accepts : string -> bool) (files input_files : list string) :
  exists added,
    Queue._choose_videos accepts files input_files = input_files ++ added
    /\ added
       = first_occurrences
           (filter (fun file => negb (Keys.mem file input_files) && accepts file)
              files)
    /\ (forall file, In file added <->
          In file files /\ ~ In file input_files /\ accepts file = true)
    /\ NoDup added
    /\ (NoDup input_files ->
        NoDup (Queue._choose_videos accepts files input_files)).
Proof.
  destruct (choose_videos_added accepts files input_files)
    as (added & Hrun & Hadd & Hnd).
  exists added. split; [exact Hrun|]. split.
  - rewrite choose_videos_in_order in Hrun. apply app_inv_head in Hrun.
    now symmetry.
  - split; [exact Hadd|]. split.
    + apply (choose_videos_added_once accepts files input_files added Hrun).
    + rewrite Hrun. exact Hnd.
Qed.

Section LogHistory.

Import Queue.

Lemma lastn_short {A} (n : nat) (l : list A) :
  (length l <= n)%nat -> lastn n l = l.
Proof.
  intro H. unfold lastn. replace (length l - n)%nat with 0%nat by lia. reflexivity.
Qed.

Lemma lastn_length {A} (n : nat) (l : list A) :
  (length (lastn n l) <= n)%nat.
Proof. unfold lastn. rewrite length_skipn. lia. Qed.

Lemma update_ui_lastn (log_queue : list string) : forall log_history,
  (length log_history <= log_cap)%nat ->
  _update_ui log_queue log_history = lastn log_cap (log_history ++ log_queue).
Proof.
  induction log_queue as [|msg rest IH]; intros log_history Hlen.
  - cbn [_update_ui]. rewrite app_nil_r. symmetry. now apply lastn_short.
  - cbn [_update_ui].
    assert (Hl1 : length (log_history ++ [msg]) = S (length log_history))
      by (rewrite length_app; cbn [length]; lia).
    destruct (Nat.ltb_spec log_cap (length (log_history ++ [msg]))) as [Hover|Hfit].
    + assert (Hfull : length log_history = log_cap) by lia.
      destruct log_history as [|old history].
      { exfalso. unfold log_cap in Hfull. discriminate Hfull. }
      cbn [List.app tl]. cbn [length] in Hfull.
      rewrite IH by (rewrite length_app; cbn [length]; lia).
      unfold lastn. rewrite <- !app_assoc. cbn [List.app length].
      set (kept := history ++ msg :: rest).
      assert (Hkept : (log_cap <= length kept)%nat)
        by (subst kept; rewrite length_app; cbn [length]; lia).
      replace (S (length kept) - log_cap)%nat
        with (S (length kept - log_cap))%nat by lia.
      reflexivity.
    + rewrite IH by lia. now rewrite <- app_assoc.
Qed.

End LogHistory.

(** X22: draining the log queue into a history of at most 1000 entries
    leaves the last 1000 messages of the history followed by the queue, in
    order: the history never grows past 1000 and loses only its oldest
    entries. *)
Theorem update_ui_keeps_newest (log_queue log_history : list string) :
  (length log_history <= Queue.log_cap)%nat ->
  Queue._update_ui log_queue log_history
  = Queue.lastn Queue.log_cap (log_history ++ log_queue)
  /\ (length (Queue._update_ui log_queue log_history) <= Queue.log_cap)%nat
  /\ exists dropped,
       log_history ++ log_queue
       = dropped ++ Queue._update_ui log_queue log_history.
Proof.
  intro Hlen. rewrite update_ui_lastn by assumption.
  split; [reflexivity|]. split; [apply lastn_length|].
  exists (firstn (length (log_history ++ log_queue) - Queue.log_cap)
            (log_history ++ log_queue)).
  unfold Queue.lastn. symmetry. apply firstn_skipn.
Qed.

Lemma update_ui_keeps_newest_witness :
  Queue._update_ui ["c"; "d"]%string ["a"; "b"]%string
  = Queue.lastn Queue.log_cap (["a"; "b"]%string ++ ["c"; "d"]%string).
Proof.
  apply (update_ui_keeps_newest ["c"; "d"]%string ["a"; "b"]%string).
  unfold Queue.log_cap. cbn [length]. lia.
Defined.

Lemma choose_videos_appends_witness :
  NoDup (Queue._choose_videos accepts_mp4 ["ok1"; "bad"; "ok1"; "ok2"]%string
           ["ok0"%string]).
Proof.
  destruct (choose_videos_appends accepts_mp4 ["ok1"; "bad"; "ok1"; "ok2"]%string
              ["ok0"%string]) as (added & _ & _ & _ & _ & Hnd).
  apply Hnd. repeat constructor. intros [].
Defined.

Section ProcessLoop.

Import Queue.

Lemma filter_other_absent (video : string) (queue : list string) :
  ~ In video queue ->
  filter (fun x => negb (String.eqb video x)) queue = queue.
Proof.
  induction queue as [|k rest IH]; intro Hnot; [reflexivity|].
  cbn [filter]. destruct (String.eqb_spec video k) as [->|Hne].
  - exfalso. apply Hnot. now left.
  - cbn [negb]. rewrite IH; [reflexivity|]. intro H. apply Hnot. now right.
Qed.

Lemma remove_first_filter (video : string) (queue : list string) :
  NoDup queue ->
  (if Keys.mem video queue then Keys.remove_first video queue else queue)
  = filter (fun x => negb (String.eqb video x)) queue.
Proof.
  intro Hnd. destruct (Keys.mem video queue) eqn:Hm.
  - clear Hm. induction Hnd as [|k rest Hk Hnd IH]; [reflexivity|].
    cbn [Keys.remove_first filter].
    destruct (String.eqb_spec video k) as [->|Hne]; cbn [negb].
    + symmetry. now apply filter_other_absent.
    + now rewrite IH.
  - symmetry. apply filter_other_absent. intro H. apply mem_In in H. congruence.
Qed.

Lemma filter_twice {A} (f g : A -> bool) (l : list A) :
  filter f (filter g l) = filter (fun x => g x && f x) l.
Proof.
  induction l as [|a l IH]; [reflexivity|].
  cbn [filter]. destruct (g a); cbn [andb filter]; [|exact IH].
  destruct (f a); now rewrite IH.
Qed.

Lemma process_loop_queue (videos : list string) :
  forall plans self done self',
    NoDup (input_files self) ->
    process_loop videos plans self = (done, self') ->
    input_files self' = filter (not_done done) (input_files self)
    /\ incl done videos
    /\ (length done <= length plans)%nat
    /\ (forall key,
          (count_occ string_dec (Keys.api_keys (keys self')) key
           <= count_occ string_dec (Keys.api_keys (keys self)) key)%nat).
Proof.
  induction videos as [|video rest IH]; intros plans self done self' Hnd Hrun.
  - cbn in Hrun. injection Hrun as <- <-. cbn [filter not_done].
    repeat split; try (cbn; lia); try (intros x []).
    symmetry. apply forallb_filter_id. now apply forallb_forall.
  - destruct plans as [|plan plans].
    { cbn in Hrun. injection Hrun as <- <-.
      repeat split; try (cbn; lia); try (intros x []).
      symmetry. apply forallb_filter_id. now apply forallb_forall. }
    cbn [process_loop] in Hrun. destruct plan as [|outcomes].
    + destruct (IH _ _ _ _ Hnd Hrun) as (Hq & Hincl & Hlen & Hpool).
      repeat split; try assumption; [now apply incl_tl|cbn [length]; lia].
    + destruct (Keys.process_video outcomes (keys self)) as [[key|] keys'] eqn:Hv.
      * destruct (process_loop rest plans _) as [done' self''] eqn:Hrest.
        injection Hrun as <- <-.
        rewrite remove_first_filter in Hrest by assumption.
        apply IH in Hrest; [|cbn [input_files]; apply NoDup_filter, Hnd].
        destruct Hrest as (Hq & Hincl & Hlen & Hpool).
        cbn [input_files keys] in *. repeat split.
        -- rewrite Hq, filter_twice. apply filter_ext. intro x.
           unfold not_done, Keys.mem. cbn [existsb].
           rewrite (String.eqb_sym video x).
           destruct (String.eqb x video), (existsb (String.eqb x) done');
             reflexivity.
        -- intros x [<-|Hx]; [now left|right; now apply Hincl].
        -- cbn [length]. lia.
        -- intro k. specialize (Hpool k).
           pose proof (failover_counts _ _ _ _ _ k Hv). lia.
      * apply IH in Hrun; [|exact Hnd].
        destruct Hrun as (Hq & Hincl & Hlen & Hpool).
        cbn [input_files keys] in *.
        repeat split; try assumption; [now apply incl_tl|cbn [length]; lia|].
        intro k. specialize (Hpool k).
        pose proof (failover_counts _ _ _ _ _ k Hv). lia.
Qed.

End ProcessLoop.

(** X23: over a queue without duplicates a run takes out of the queue
    exactly the videos that succeeded and keeps the others in their order;
    at most one video succeeds per plan carried out, and the run never adds
    a key to the pool. *)
Theorem process_videos_queue
    (plans : list Queue.video_plan) (self self' : Queue.worker)
    (done : list string) :
  NoDup (Queue.input_files self) ->
  Queue._process_videos plans self = (done, self') ->
  Queue.input_files self'
  = filter (fun video => negb (Keys.mem video done)) (Queue.input_files self)
  /\ incl done (Queue.input_files self)
  /\ (length done <= length plans)%nat
  /\ (forall key,
        (count_occ string_dec (Keys.api_keys (Queue.keys self')) key
         <= count_occ string_dec (Keys.api_keys (Queue.keys self)) key)%nat).
Proof.
  intros Hnd Hrun. apply (process_loop_queue _ _ _ _ _ Hnd Hrun).
Qed.

Lemma process_videos_queue_witness :
  let run := Queue._process_videos
               [Queue.Tried [Keys.Succeeded]; Queue.Unreadable;
                Queue.Tried [Keys.Abandoned; Keys.Succeeded]]
               sample_worker in
  Queue.input_files (snd run)
  = filter (fun video => negb (Keys.mem video (fst run)))
      (Queue.input_files sample_worker)
  /\ incl (fst run) (Queue.input_files sample_worker)
  /\ (length (fst run) <= 3)%nat
  /\ (forall key,
        (count_occ string_dec (Keys.api_keys (Queue.keys (snd run))) key
         <= count_occ string_dec (Keys.api_keys (Queue.keys sample_worker)) key)%nat).
Proof.
  intro run.
  apply (process_videos_queue
           [Queue.Tried [Keys.Succeeded]; Queue.Unreadable;
            Queue.Tried [Keys.Abandoned; Keys.Succeeded]]
           sample_worker (snd run) (fst run)).
  - repeat constructor; cbn; intuition discriminate.
  - vm_compute. reflexivity.
Defined.

(** ** Output paths *)

Section UniquePathFacts.

Variable path_exists : string -> bool.
Variable path_split : string -> string * string.
Variable path_splitext : string -> string * string.
Variable path_join : string -> string -> string.

Local Abbreviation numbered :=
  (numbered_path path_split path_splitext path_join).
Local Abbreviation loop :=
  (unique_loop path_exists path_split path_splitext path_join).

(** From any counter, the loop stops at the first free candidate. *)
Lemma unique_loop_finds (output_path : string) :
  forall (n fuel : nat) (counter : Z),
    path_exists (numbered output_path (counter + Z.of_nat n)) = false ->
    (n < fuel)%nat ->
    exists k,
      (k <= n)%nat
      /\ loop fuel output_path counter
         = Some (numbered output_path (counter + Z.of_nat k))
      /\ path_exists (numbered output_path (counter + Z.of_nat k)) = false
      /\ forall j, (j < k)%nat ->
           path_exists (numbered output_path (counter + Z.of_nat j)) = true.
Proof.
  induction n as [|n IH]; intros fuel counter Hfree Hfuel;
    (destruct fuel as [|fuel]; [lia|]); cbn [unique_loop].
  - exists 0%nat. cbn [Z.of_nat] in *. rewrite Z.add_0_r in *.
    rewrite Hfree. cbn [negb].
    split; [lia|]. split; [reflexivity|]. split; [reflexivity|].
    intros j Hj; lia.
  - destruct (path_exists (numbered output_path counter)) eqn:Hhere; cbn [negb].
    + destruct (IH fuel (counter + 1)%Z) as (k & Hk & Hrun & Hk_free & Hbelow).
      * replace (counter + 1 + Z.of_nat n)%Z with (counter + Z.of_nat (S n))%Z
          by lia.
        exact Hfree.
      * lia.
      * exists (S k).
        replace (counter + Z.of_nat (S k))%Z with (counter + 1 + Z.of_nat k)%Z
          by lia.
        split; [lia|]. split; [assumption|]. split; [assumption|].
        intros [|j] Hj.
        -- replace (counter + Z.of_nat 0)%Z with counter by lia. exact Hhere.
        -- replace (counter + Z.of_nat (S j))%Z
             with (counter + 1 + Z.of_nat j)%Z by lia.
           apply Hbelow. lia.
    + exists 0%nat.
      replace (counter + Z.of_nat 0)%Z with counter by lia.
      split; [lia|]. split; [reflexivity|]. split; [assumption|].
      intros j Hj; lia.
Qed.

End UniquePathFacts.

(** X24: [get_unique_filepath] returns as soon as one of the numbered names
    is free; the path returned does not exist; it is the given path when
    that one is free, and otherwise the numbered name with the least counter,
    from 1 on, that is free. *)
Theorem get_unique_filepath_least
    (path_exists : string -> bool)
    (path_split path_splitext : string -> string * string)
    (path_join : string -> string -> string)
    (output_path : string) (n : Z) (fuel : nat) :
  let numbered := numbered_path path_split path_splitext path_join output_path in
  (1 <= n)%Z ->
  path_exists (numbered n) = false ->
  (Z.to_nat n <= fuel)%nat ->
  exists path,
    get_unique_filepath path_exists path_split path_splitext path_join
      fuel output_path = Some path
    /\ path_exists path = false
    /\ (path_exists output_path = false -> path = output_path)
    /\ (path_exists output_path = true ->
        exists m, (1 <= m <= n)%Z
          /\ path = numbered m
          /\ forall j, (1 <= j < m)%Z -> path_exists (numbered j) = true).
Proof.
  intros numbered Hn Hfree Hfuel. unfold get_unique_filepath.
  destruct (path_exists output_path) eqn:Hgiven; cbn [negb].
  - destruct (unique_loop_finds path_exists path_split path_splitext path_join
                output_path (Z.to_nat n - 1) fuel 1)
      as (k & Hk & Hrun & Hk_free & Hbelow).
    + replace (1 + Z.of_nat (Z.to_nat n - 1))%Z with n by lia. exact Hfree.
    + lia.
    + exists (numbered (1 + Z.of_nat k)%Z).
      split; [exact Hrun|]. split; [exact Hk_free|]. split; [discriminate|].
      intros _. exists (1 + Z.of_nat k)%Z.
      split; [lia|]. split; [reflexivity|].
      intros j Hj.
      replace j with (1 + Z.of_nat (Z.to_nat (j - 1)))%Z by lia.
      apply Hbelow. lia.
  - exists output_path.
    split; [reflexivity|]. split; [assumption|]. split; [reflexivity|].
    discriminate.
Qed.

Lemma get_unique_filepath_least_witness :
  exists path,
    get_unique_filepath sample_directory sample_split sample_splitext
      sample_join 3 "out/AdobeStock_clip.mp4" = Some path
    /\ sample_directory path = false.
Proof.
  destruct (get_unique_filepath_least sample_directory sample_split
              sample_splitext sample_join "out/AdobeStock_clip.mp4" 3 3)
    as (path & Hrun & Hfree & _); [lia|reflexivity|cbn; lia|].
  exists path. split; assumption.
Defined.

(** ** The frame-rate normalizer *)

Lemma Qmake_thousandths (z : Z) : z # 1000 == inject_Z z / 1000.
Proof.
  unfold Qeq, Qdiv, Qmult, Qinv, inject_Z. cbn. lia.
Qed.

(** X25: the normalized frame rate is less than 0.56 away from the measured
    one and has at most three decimals. *)
Theorem normalize_fps_near (fps : Q) :
  Qabs (normalize_fps fps - fps) < 0.56
  /\ exists thousandths : Z, normalize_fps fps == thousandths # 1000.
Proof.
  unfold normalize_fps.
  repeat match goal with
  | |- context [Qle_bool ?a fps && Qlt_bool fps ?b] =>
      let Hlo := fresh "Hlo" in
      let Hhi := fresh "Hhi" in
      destruct (Qle_bool a fps) eqn:Hlo;
        [ destruct (Qlt_bool fps b) eqn:Hhi;
          [ apply Qle_bool_iff in Hlo; apply Qlt_bool_iff in Hhi
          | ]
        | ]; cbn [andb]
  end;
  try (split;
       [ apply Qabs_Qlt_condition; split; lra
       | first [ exists 23976%Z; reflexivity | exists 25000%Z; reflexivity
               | exists 29970%Z; reflexivity | exists 50000%Z; reflexivity
               | exists 59940%Z; reflexivity ] ]).
  all: split;
    [ pose proof (round_half_even_near (fps * inject_Z (pow10 3))) as Hnear;
      apply Qabs_Qle_condition in Hnear; destruct Hnear as [Hl Hu];
      unfold py_round;
      change (Z.to_pos (pow10 3)) with 1000%positive;
      change (inject_Z (pow10 3)) with 1000 in *;
      rewrite Qmake_thousandths;
      set (r := inject_Z (round_half_even (fps * 1000))) in *;
      apply Qabs_Qlt_condition;
      assert (Hr : r / 1000 * 1000 == r) by (field; lra);
      split; nra
    | exists (round_half_even (fps * inject_Z (pow10 3))); reflexivity ].
Qed.

(** ** The whole transcode *)

Section ReencodeFacts.

Import Transcode Encode.

Variable probe : result VideoMetadata.
Variable probe_out : result VideoMetadata.
Variable original_has_audio : bool.
Variable str_float : Q -> string.
Variable run : cmd -> result Z.
Variables input_path output_path preset : string.
Variable crf : Z.
Variable original_video_path : string.
Variable mute : bool.
Variable target_fps : option Q.
Variables original_duration desired_duration : Q.
Variable sharp_filter : option string.

Local Abbreviation has_audio := (video_has_audio original_has_audio mute).
Local Abbreviation fallback := (fallback_args original_has_audio mute sharp_filter).
Local Abbreviation block :=
  (factor_block probe original_has_audio mute original_duration
     desired_duration sharp_filter).
Local Abbreviation tail :=
  (encode_tail probe_out original_has_audio str_float run output_path preset
     crf mute target_fps).
Local Abbreviation audio_args :=
  (if has_audio then ["-c:a"; "aac"; "-b:a"; "320k"; "-ar"; "48000"]%string
   else []).

Lemma factor_block_on_raise (e : exn) (c : cmd) :
  probe = Raise e -> block c = (c ++ fallback, Done tt).
Proof.
  intro Hprobe.
  unfold factor_block, try_except, factor_body, bind, lift. rewrite Hprobe.
  apply fallback_on_exception_args.
Qed.

Lemma factor_block_on_invalid (meta : VideoMetadata) (c : cmd) :
  probe = Ok meta ->
  ~ (0 < duration meta /\ 0 < original_duration) ->
  block c = (c ++ fallback, Done tt).
Proof.
  intros Hprobe Hinvalid. unfold factor_block, try_except.
  now rewrite (factor_body_invalid_duration _ _ _ _ _ _ meta c Hprobe Hinvalid).
Qed.

(** When the second probe answers, the tail appends the encoder arguments,
    the audio encoder when there is audio and the output path, and runs
    ffmpeg on the result. *)
Lemma encode_tail_runs (out_meta : VideoMetadata) :
  probe_out = Ok out_meta ->
  exists encoder,
    forall c,
      tail c
      = (c ++ encoder ++ audio_args ++ [output_path],
         Done match run (c ++ encoder ++ audio_args ++ [output_path]) with
              | Ok returncode => (returncode =? 0)%Z
              | Raise _ => false
              end).
Proof.
  intro Hout.
  destruct (rate_tier (width out_meta) (height out_meta))
    as [maxrate bufsize] eqn:Htier.
  exists (["-c:v"; "libx264"; "-preset"; preset; "-crf"; int_to_string crf;
           "-profile:v"; "high"; "-level"; "4.2"; "-pix_fmt"; "yuv420p";
           "-colorspace"; "bt709"; "-color_primaries"; "bt709";
           "-color_trc"; "bt709"; "-movflags"; "+faststart";
           "-maxrate"; maxrate; "-bufsize"; bufsize]%string
          ++ match target_fps with
             | Some fps => ["-r"%string; str_float fps]
             | None => []
             end
          ++ match gop_of target_fps with
             | Some g => ["-g"%string; int_to_string g;
                          "-keyint_min"%string; int_to_string g]
             | None => []
             end).
  intro c. unfold encode_tail, bind, lift, extend, ret.
  rewrite Hout, Htier.
  destruct target_fps as [fps|]; destruct (gop_of _) as [g|];
    destruct has_audio;
    rewrite <- ?app_assoc; cbn [List.app]; reflexivity.
Qed.

Lemma tail_raises (e : exn) (c : cmd) :
  probe_out = Raise e -> tail c = (c, Raised e).
Proof.
  intro Hout. unfold encode_tail, bind, lift. now rewrite Hout.
Qed.

End ReencodeFacts.

(** C5: the function does not degrade when the probe fails.  The [try]
    block catches the exception of [get_video_metadata] and appends the
    stream-copy fallback, but the same probe is made again right after the
    block, unguarded: its exception leaves
    [reencode_video_adobe_optimized], and ffmpeg is not started on the
    fallback command. *)
Theorem reencode_raises_on_failed_probe
    (e : exn) (original_has_audio : bool)
    (str_float : Q -> string) (run : Transcode.cmd -> result Z)
    (input_path output_path preset : string) (crf : Z)
    (original_video_path : string) (mute : bool) (target_fps : option Q)
    (original_duration desired_duration : Q) (sharp_filter : option string) :
  Encode.reencode_video_adobe_optimized (Raise e) (Raise e) original_has_audio
    str_float run input_path output_path preset crf original_video_path
    mute target_fps original_duration desired_duration sharp_filter
  = (Transcode.initial_cmd input_path original_video_path
       (Transcode.video_has_audio original_has_audio mute)
     ++ Transcode.fallback_args original_has_audio mute sharp_filter,
     Transcode.Raised e).
Proof.
  unfold Encode.reencode_video_adobe_optimized, Transcode.bind.
  rewrite (factor_block_on_raise (Raise e) original_has_audio mute
             original_duration desired_duration sharp_filter e _ eq_refl).
  now apply tail_raises.
Qed.

(** X28: a temp file for which the capture reports no positive frame rate
    has duration 0 in its metadata, so the transcoder does not retime it:
    the command carries the stream-copy fallback, and with usable audio it
    asks for the audio to be copied and, further on, for AAC. *)
Theorem reencode_still_input
    (cap : capture) (size : Z) (original_has_audio : bool)
    (str_float : Q -> string) (run : Transcode.cmd -> result Z)
    (input_path output_path preset : string) (crf : Z)
    (original_video_path : string) (mute : bool) (target_fps : option Q)
    (original_duration desired_duration : Q) (sharp_filter : option string) :
  isOpened cap = true ->
  CAP_PROP_FPS cap <= 0 ->
  let probe := get_video_metadata cap (Ok size) in
  let has_audio := Transcode.video_has_audio original_has_audio mute in
  exists encoder,
    let final :=
      Transcode.initial_cmd input_path original_video_path has_audio
      ++ Transcode.fallback_args original_has_audio mute sharp_filter
      ++ encoder
      ++ (if has_audio
          then ["-c:a"; "aac"; "-b:a"; "320k"; "-ar"; "48000"]%string else [])
      ++ [output_path] in
    Encode.reencode_video_adobe_optimized probe probe original_has_audio
      str_float run input_path output_path preset crf original_video_path
      mute target_fps original_duration desired_duration sharp_filter
    = (final,
       Transcode.Done match run final with
                      | Ok returncode => (returncode =? 0)%Z
                      | Raise _ => false
                      end)
    /\ (has_audio = true ->
        exists before between,
          final
          = before ++ ["-c:a"; "copy"]%string ++ between
            ++ ["-c:a"; "aac"; "-b:a"; "320k"; "-ar"; "48000"; output_path]%string).
Proof.
  intros Hopen Hfps probe has_audio.
  assert (Hprobe : exists meta, probe = Ok meta /\ Transcode.duration meta = 0).
  { unfold probe, get_video_metadata. rewrite Hopen. cbn [negb].
    assert (Hc : Qlt_bool 0 (CAP_PROP_FPS cap) = false)
      by (apply Qlt_bool_false_iff; exact Hfps).
    rewrite Hc. eexists. split; reflexivity. }
  destruct Hprobe as (meta & Hmeta & Hzero).
  destruct (encode_tail_runs probe original_has_audio str_float run
              output_path preset crf mute target_fps meta Hmeta)
    as (encoder & Htail).
  exists encoder. cbv zeta. split.
  - unfold Encode.reencode_video_adobe_optimized, Transcode.bind.
    fold has_audio.
    rewrite (factor_block_on_invalid probe original_has_audio mute
               original_duration desired_duration sharp_filter meta _ Hmeta).
    + rewrite Htail. rewrite <- !app_assoc. reflexivity.
    + rewrite Hzero. intros [H _]. lra.
  - intro Haudio. unfold Transcode.fallback_args. fold has_audio.
    rewrite Haudio.
    exists (Transcode.initial_cmd input_path original_video_path true
            ++ (if Transcode.truthy sharp_filter
                then ["-filter:v"%string; Transcode.text_of sharp_filter]
                else [])
            ++ ["-map"; "0:v:0"; "-map"; "1:a:0"]%string),
      encoder.
    rewrite <- !app_assoc. reflexivity.
Qed.

Lemma reencode_still_input_witness :
  exists encoder,
    Encode.reencode_video_adobe_optimized
      (get_video_metadata still_capture (Ok 1024%Z))
      (get_video_metadata still_capture (Ok 1024%Z))
      true str_fps run_ok "temp_clip.mp4" "AdobeStock_clip.mp4" "slow" 10
      "clip.mp4" false None 10 10 None
    = (Transcode.initial_cmd "temp_clip.mp4" "clip.mp4" true
       ++ Transcode.fallback_args true false None
       ++ encoder
       ++ ["-c:a"; "aac"; "-b:a"; "320k"; "-ar"; "48000"]%string
       ++ ["AdobeStock_clip.mp4"%string],
       Transcode.Done true).
Proof.
  destruct (reencode_still_input still_capture 1024 true str_fps run_ok
              "temp_clip.mp4" "AdobeStock_clip.mp4" "slow" 10 "clip.mp4"
              false None 10 10 None)
    as (encoder & Hrun & _); [reflexivity|cbn; lra|].
  exists encoder. exact Hrun.
Defined.
